(** * Classic chess rules engine: a shallow embedding and its properties

    The development follows the Python sources:
    - [src/domain/pieces.py]        (class [StandardPosition]: coordinates and their text form)
    - [chess/app/variants/classic.py] (class [Normal]: move generation, legality,
      game state, history).

    Python integers are unbounded and are modelled by [Z]; [//] and [%] with a
    positive divisor are [Z.div] and [Z.modulo]; Python sets are [gset]s, the
    board is a finite map from positions to pieces.  A Python string is
    modelled by [string], one character per code point below 256; the texts
    the position constructor lets through hold the letters [a-zA-Z], the
    digits [0-9] and a final newline only. *)

From Stdlib Require Import ZArith String Ascii List Lia Bool.
From Stdlib Require Import Decimal DecimalString DecimalZ DecimalFacts.
From stdpp Require Import base decidable countable gmap list.

Import ListNotations.
Local Open Scope Z_scope.

(* ===================================================================== *)
(** ** Exceptions *)
(* ===================================================================== *)

(** The exceptions the modelled code raises.  [NoPiece], [NotAValidMove],
    [CausesCheck], [NotAValidPromotion] and [WrongMoveOrder] are the classes
    imported from [chess.exceptions.variant]; [ValueError], [IndexError],
    [TypeError] and [AttributeError] are Python's own. *)
Inductive Error : Type :=
| NoPiece
| NotAValidMove
| CausesCheck
| NotAValidPromotion
| WrongMoveOrder
| ValueError
| IndexError
| TypeError
| AttributeError.

Inductive Result (A : Type) : Type :=
| Ok (a : A)
| Raise (e : Error).

Arguments Ok {A} a.
Arguments Raise {A} e.

Definition rbind {A B : Type} (r : Result A) (k : A -> Result B) : Result B :=
  match r with
  | Ok a => k a
  | Raise e => Raise e
  end.

Notation "x <-? r ;; k" := (rbind r (fun x => k))
  (at level 100, r at next level, right associativity).

(* ===================================================================== *)
(** ** Positions ([src/domain/pieces.py], class [StandardPosition]) *)
(* ===================================================================== *)

Module StandardPosition.

(** A position is the pair (file, rank), both zero-based. *)
Abbreviation t := (Z * Z)%type.

Definition file (p : t) : Z := fst p.
Definition rank (p : t) : Z := snd p.

(** [string.ascii_lowercase] *)
Definition ascii_lowercase : string := "abcdefghijklmnopqrstuvwxyz".

Definition is_upper (c : ascii) : bool :=
  let n := N_of_ascii c in (65 <=? n)%N && (n <=? 90)%N.
Definition is_lower (c : ascii) : bool :=
  let n := N_of_ascii c in (97 <=? n)%N && (n <=? 122)%N.
(** the character class [a-zA-Z] *)
Definition is_letter (c : ascii) : bool := is_lower c || is_upper c.
(** the character class [0-9] *)
Definition is_digit (c : ascii) : bool :=
  let n := N_of_ascii c in (48 <=? n)%N && (n <=? 57)%N.

(** [letter.lower()] on one character of the class [a-zA-Z], the only
    characters that reach it; any other character is returned as it is. *)
Definition lower (c : ascii) : ascii :=
  if is_upper c then ascii_of_N (N_of_ascii c + 32) else c.

(** [s.index(c)]: position of the first occurrence, [ValueError] if none *)
Fixpoint index (c : ascii) (s : string) : Result Z :=
  match s with
  | EmptyString => Raise ValueError
  | String d s' =>
      if Ascii.eqb c d then Ok 0 else i <-? index c s' ;; Ok (i + 1)
  end.

(** [ascii_lowercase[x]]; every caller passes a remainder modulo 26, so the
    index is always in range. *)
Definition ascii_lowercase_at (x : Z) : ascii :=
  match String.get (Z.to_nat x) ascii_lowercase with
  | Some c => c
  | None => "?"%char
  end.

(** The greedy letter prefix of [location_regex]. *)
Fixpoint span_letters (s : string) : string * string :=
  match s with
  | EmptyString => (EmptyString, EmptyString)
  | String c s' =>
      if is_letter c then
        let '(l, r) := span_letters s' in (String c l, r)
      else (EmptyString, s)
  end.

Fixpoint all_digits (s : string) : bool :=
  match s with
  | EmptyString => true
  | String c s' => is_digit c && all_digits s'
  end.

(** [$] matches at the end of the string and also just before a final
    newline. *)
Fixpoint strip_final_newline (s : string) : string :=
  match s with
  | EmptyString => EmptyString
  | String c EmptyString => if Ascii.eqb c "010"%char then EmptyString else s
  | String c s' => String c (strip_final_newline s')
  end.

(** [location_regex.search(pos)] for
    [^(?P<file>[a-zA-Z]+)(?P<rank>[0-9]+)$]: the two groups, or [None].
    The two character classes are disjoint, so the file group is the
    maximal letter prefix. *)
Definition location_regex (pos : string) : option (string * string) :=
  let '(f, rest) := span_letters pos in
  let r := strip_final_newline rest in
  match f, r with
  | EmptyString, _ => None
  | _, EmptyString => None
  | _, _ => if all_digits r then Some (f, r) else None
  end.

(** CPython's default bound on the number of digits in a conversion between
    [int] and [str] ([sys.get_int_max_str_digits()]). *)
Definition max_str_digits : Z := 4300.

(** Python's [str] on an integer of at most [max_str_digits] digits: its
    decimal text.  On an integer with more digits CPython raises
    [ValueError] instead; that case is outside this definition. *)
Definition str_int (n : Z) : string := NilZero.string_of_int (Z.to_int n).

(** Python's [int] on a string of decimal digits (the only strings the
    regular expression lets through): [ValueError] when there are more than
    [max_str_digits] of them. *)
Definition int_str (s : string) : Result Z :=
  if max_str_digits <? Z.of_nat (String.length s) then Raise ValueError
  else
    match NilEmpty.uint_of_string s with
    | Some d => Ok (Z.of_uint d)
    | None => Raise ValueError
    end.

Definition rank_from_str_to_int (rank : string) : Result Z :=
  n <-? int_str rank ;; Ok (n - 1).

Definition rank_from_int_to_str (rank : Z) : string := str_int (rank + 1).

(** [values = [ascii_lowercase.index(letter.lower()) for letter in rank]] *)
Fixpoint letter_values (s : string) : Result (list Z) :=
  match s with
  | EmptyString => Ok []
  | String c s' =>
      v <-? index (lower c) ascii_lowercase ;;
      vs <-? letter_values s' ;;
      Ok (v :: vs)
  end.

(** One round of the accumulation loop: the state is
    [(index_value, counter)]. *)
Definition file_step (st : Z * Z) (value : Z) : Z * Z :=
  let '(index_value, counter) := st in
  if counter <? 1 then (index_value + value, counter + 1)
  else (index_value + (value * 26) ^ counter, counter + 1).

Definition file_from_str_to_int (rank : string) : Result Z :=
  values <-? letter_values rank ;;
  Ok (fst (fold_left file_step (rev values) (0, 0))).

(** [while 26 ** output_chars <= file: output_chars += 1], with a bound on
    the number of rounds. *)
Fixpoint output_chars_loop (fuel : nat) (output_chars file : Z) : Z :=
  match fuel with
  | O => output_chars
  | S fuel' =>
      if 26 ^ output_chars <=? file
      then output_chars_loop fuel' (output_chars + 1) file
      else output_chars
  end.

(** The loop runs at most [file] rounds (see [output_chars_exit]). *)
Definition output_chars (file : Z) : Z :=
  output_chars_loop (Z.to_nat file) 1 file.

(** [for i in range(output_chars): values.append((file // 26 ** i) % 26)] *)
Definition file_values (file : Z) : list Z :=
  map (fun i => (file / 26 ^ Z.of_nat i) mod 26)
      (seq 0 (Z.to_nat (output_chars file))).

Definition file_from_int_to_str (file : Z) : string :=
  string_of_list_ascii (map ascii_lowercase_at (rev (file_values file))).

(** [__str__] *)
Definition to_str (p : t) : string :=
  (file_from_int_to_str (file p) ++ rank_from_int_to_str (rank p))%string.

(** [StandardPosition(pos)] for a string argument.  The rank is converted
    first, as in the constructor. *)
Definition from_str (pos : string) : Result t :=
  match location_regex pos with
  | None => Raise ValueError
  | Some (f, r) =>
      rk <-? rank_from_str_to_int r ;;
      fl <-? file_from_str_to_int f ;;
      Ok (fl, rk)
  end.

End StandardPosition.

Abbreviation Position := StandardPosition.t.

(* ===================================================================== *)
(** ** Sides and pieces *)
(* ===================================================================== *)

Inductive Side : Type := White | Black.

Inductive Kind : Type := King | Queen | Rook | Bishop | Knight | Pawn.

(** A piece is a kind together with its side: [King(White)] is
    [piece King White].  Pieces compare by kind and side. *)
Record Piece : Type := piece { kind : Kind; side : Side }.

#[global] Instance Side_eq_dec : EqDecision Side.
Proof. solve_decision. Defined.

#[global] Instance Kind_eq_dec : EqDecision Kind.
Proof. solve_decision. Defined.

#[global] Instance Piece_eq_dec : EqDecision Piece.
Proof. solve_decision. Defined.

Definition Side_to_nat (s : Side) : nat :=
  match s with White => 0%nat | Black => 1%nat end.
Definition Side_of_nat (n : nat) : Side :=
  match n with O => White | _ => Black end.

#[global] Instance Side_countable : Countable Side :=
  inj_countable' Side_to_nat Side_of_nat
    (fun s => match s with White => eq_refl | Black => eq_refl end).

Definition Kind_to_nat (k : Kind) : nat :=
  match k with
  | King => 0%nat | Queen => 1%nat | Rook => 2%nat
  | Bishop => 3%nat | Knight => 4%nat | Pawn => 5%nat
  end.
Definition Kind_of_nat (n : nat) : Kind :=
  match n with
  | 0%nat => King | 1%nat => Queen | 2%nat => Rook
  | 3%nat => Bishop | 4%nat => Knight | _ => Pawn
  end.

#[global] Instance Kind_countable : Countable Kind :=
  inj_countable' Kind_to_nat Kind_of_nat
    (fun k => match k with
              | King => eq_refl | Queen => eq_refl | Rook => eq_refl
              | Bishop => eq_refl | Knight => eq_refl | Pawn => eq_refl
              end).

Definition Piece_to_pair (p : Piece) : Kind * Side := (kind p, side p).
Definition Piece_of_pair (ks : Kind * Side) : Piece := piece (fst ks) (snd ks).

#[global] Instance Piece_countable : Countable Piece :=
  inj_countable' Piece_to_pair Piece_of_pair
    (fun p => match p with piece _ _ => eq_refl end).

(** [isinstance(p, K)] for a value that may be [None]. *)
Definition isinstance (p : option Piece) (k : Kind) : bool :=
  match p with
  | Some q => bool_decide (kind q = k)
  | None => false
  end.

Module Movement.

(** Modelled from the spec: the piece catalogue ([chess/app/pieces.py]) is
    absent.  A movement profile is an ordered list of move descriptors and
    one of capture descriptors, each a direction vector, a maximum distance
    ([None] is [math.inf]), the all-directions flag and the
    stop-after-first-capture flag. *)
Record MoveDescription : Type := {
  vector : Z * Z;
  distance : option nat;
  any_direction : bool;
  capture_break : bool
}.

Record t : Type := { move : list MoveDescription; capture : list MoveDescription }.

Definition desc (v : Z * Z) (d : option nat) (any : bool) : MoveDescription :=
  {| vector := v; distance := d; any_direction := any; capture_break := true |}.

(** Modelled from the spec: the profiles of classic chess.  Sliding pieces
    have unbounded distance; the king and the knight one step in all eight
    transforms of their vectors; the pawn one step forward, capturing one
    step diagonally forward (side-relative). *)
Definition movement (k : Kind) : t :=
  match k with
  | King =>
      let ds := [desc (1, 0) (Some 1%nat) true; desc (1, 1) (Some 1%nat) true] in
      {| move := ds; capture := ds |}
  | Queen =>
      let ds := [desc (1, 0) None true; desc (1, 1) None true] in
      {| move := ds; capture := ds |}
  | Rook =>
      let ds := [desc (1, 0) None true] in {| move := ds; capture := ds |}
  | Bishop =>
      let ds := [desc (1, 1) None true] in {| move := ds; capture := ds |}
  | Knight =>
      let ds := [desc (1, 2) (Some 1%nat) true] in {| move := ds; capture := ds |}
  | Pawn =>
      {| move := [desc (0, 1) (Some 1%nat) false];
         capture := [desc (1, 1) (Some 1%nat) false; desc (-1, 1) (Some 1%nat) false] |}
  end.

End Movement.

(** Modelled from the spec: the one-letter code of a kind
    ([Piece.char]). *)
Definition kind_char (k : Kind) : ascii :=
  match k with
  | King => "k" | Queen => "q" | Rook => "r"
  | Bishop => "b" | Knight => "n" | Pawn => "p"
  end%char.

(** Modelled from the spec: [Side.char] of the absent
    [chess/app/sides.py], the side-to-move character of the state string. *)
Definition side_char (s : Side) : ascii :=
  match s with White => "w" | Black => "b" end%char.

(** Modelled from the spec: [Side.capitalize] of the absent
    [chess/app/sides.py]; White's pieces are written in upper case. *)
Definition capitalize (s : Side) : bool :=
  match s with White => true | Black => false end.

(** [str.upper] on one character *)
Definition upper (c : ascii) : ascii :=
  if StandardPosition.is_lower c then ascii_of_N (N_of_ascii c - 32) else c.

(** [Piece.__str__] ([src/domain/pieces.py]): upper case for a capitalising
    side.  It also stands for the absent [Piece.fen]. *)
Definition piece_str (p : Piece) : ascii :=
  if capitalize (side p) then upper (kind_char (kind p))
  else StandardPosition.lower (kind_char (kind p)).

(* ===================================================================== *)
(** ** The board *)
(* ===================================================================== *)

Module StandardBoard.

(** Modelled from the spec: the board store ([chess/app/board.py]) is
    absent.  It is a mapping from positions to at most one piece with
    get/put/remove, an enumeration of the occupied squares, a bounds check
    for the 8x8 grid and the FEN layout string. *)
Abbreviation t := (gmap Position Piece).

(** Modelled from the spec: the dimensions of the classic board. *)
Definition files : Z := 8.
Definition ranks : Z := 8.

(** Modelled from the spec: [isOnBoard(pos)]. *)
Definition validate_position (p : Position) : bool :=
  (0 <=? fst p) && (fst p <? files) && (0 <=? snd p) && (snd p <? ranks).

(** Modelled from the spec: [get(pos) -> Piece?]. *)
Definition get_piece (b : t) (p : Position) : option Piece := b !! p.

(** Modelled from the spec: [put(piece, pos) -> Piece?] returns the
    displaced piece, here with the new board.  Putting [None] leaves the
    square empty. *)
Definition put_piece (b : t) (pc : option Piece) (p : Position) : option Piece * t :=
  (b !! p, match pc with Some q => <[p := q]> b | None => delete p b end).

(** Modelled from the spec: [remove(pos) -> Piece?]. *)
Definition remove_piece (b : t) (p : Position) : option Piece * t :=
  (b !! p, delete p b).

(** Modelled from the spec: [allPieces()], the occupied squares, in the
    order of the map's enumeration. *)
Definition pieces (b : t) : list (Position * Piece) := map_to_list b.

(** Modelled from the spec: the occupied squares holding a piece equal to
    the requested one. *)
Definition find_pieces (b : t) (requested_piece : Piece) : list (Position * Piece) :=
  List.filter (fun pp => bool_decide (snd pp = requested_piece)) (pieces b).

(** Modelled from the spec: one rank of the FEN layout, scanned from file
    [f] for [n] squares with [run] empty squares pending. *)
Fixpoint fen_rank (b : t) (r : Z) (f : Z) (n : nat) (run : Z) : string :=
  let flush (s : string) : string :=
    if run =? 0 then s else (StandardPosition.str_int run ++ s)%string in
  match n with
  | O => flush EmptyString
  | S n' =>
      match b !! (f, r) with
      | Some pc => flush (String (piece_str pc) (fen_rank b r (f + 1) n' 0))
      | None => fen_rank b r (f + 1) n' (run + 1)
      end
  end.

(** Modelled from the spec: the ranks from the top one down, separated by
    slashes. *)
Fixpoint fen_ranks (b : t) (n : nat) : string :=
  match n with
  | O => EmptyString
  | S O => fen_rank b 0 0 (Z.to_nat files) 0
  | S n' => (fen_rank b (Z.of_nat n') 0 (Z.to_nat files) 0 ++ "/" ++ fen_ranks b n')%string
  end.

(** Modelled from the spec: [toStateString()], the layout field of the
    state string. *)
Definition get_fen (b : t) : string := fen_ranks b (Z.to_nat ranks).

End StandardBoard.

Abbreviation Board := StandardBoard.t.

(** [StandardMove]: source, destination and the optional promotion kind;
    moves compare by the triple. *)
Record StandardMove : Type := mkMove {
  source : Position;
  destination : Position;
  promotion : option Kind
}.

#[global] Instance StandardMove_eq_dec : EqDecision StandardMove.
Proof. solve_decision. Defined.

Definition StandardMove_to_tuple (m : StandardMove) : Position * Position * option Kind :=
  (source m, destination m, promotion m).
Definition StandardMove_of_tuple (x : Position * Position * option Kind) : StandardMove :=
  mkMove (fst (fst x)) (snd (fst x)) (snd x).

#[global] Instance StandardMove_countable : Countable StandardMove :=
  inj_countable' StandardMove_to_tuple StandardMove_of_tuple
    (fun m => match m with mkMove _ _ _ => eq_refl end).

(* ===================================================================== *)
(** ** The classic variant ([chess/app/variants/classic.py], class [Normal]) *)
(* ===================================================================== *)

Module Normal.

(** One entry of [__board_history]: the tuple deep-copied by
    [save_history]. *)
Record Snapshot : Type := mkSnapshot {
  snap_board : Board;
  snap_half_moves : Z;
  snap_position_occurence : gmap Z Z;
  snap_en_passant : option Position;
  snap_half_moves_since_pawn_moved : Z;
  snap_half_moves_since_capture : Z;
  snap_castling : gset Piece
}.

(** The private fields of a [Normal] instance.  The pocket dictionary has
    exactly the two sides as keys, so it is a total function on [Side]. *)
Record t : Type := mkNormal {
  board : Board;
  half_moves : Z;
  moves_history : list StandardMove;
  board_history : list Snapshot;
  position_occurence : gmap Z Z;
  en_passant : option Position;
  half_moves_since_pawn_moved : Z;
  half_moves_since_capture : Z;
  castling : gset Piece;
  pocket : Side -> list Piece
}.

Definition set_board (b : Board) (self : t) : t :=
  mkNormal b (half_moves self) (moves_history self) (board_history self)
    (position_occurence self) (en_passant self) (half_moves_since_pawn_moved self)
    (half_moves_since_capture self) (castling self) (pocket self).

Definition set_half_moves (h : Z) (self : t) : t :=
  mkNormal (board self) h (moves_history self) (board_history self)
    (position_occurence self) (en_passant self) (half_moves_since_pawn_moved self)
    (half_moves_since_capture self) (castling self) (pocket self).

Definition set_moves_history (l : list StandardMove) (self : t) : t :=
  mkNormal (board self) (half_moves self) l (board_history self)
    (position_occurence self) (en_passant self) (half_moves_since_pawn_moved self)
    (half_moves_since_capture self) (castling self) (pocket self).

Definition set_board_history (l : list Snapshot) (self : t) : t :=
  mkNormal (board self) (half_moves self) (moves_history self) l
    (position_occurence self) (en_passant self) (half_moves_since_pawn_moved self)
    (half_moves_since_capture self) (castling self) (pocket self).

Definition set_position_occurence (o : gmap Z Z) (self : t) : t :=
  mkNormal (board self) (half_moves self) (moves_history self) (board_history self)
    o (en_passant self) (half_moves_since_pawn_moved self)
    (half_moves_since_capture self) (castling self) (pocket self).

Definition set_en_passant (e : option Position) (self : t) : t :=
  mkNormal (board self) (half_moves self) (moves_history self) (board_history self)
    (position_occurence self) e (half_moves_since_pawn_moved self)
    (half_moves_since_capture self) (castling self) (pocket self).

Definition set_half_moves_since_pawn_moved (n : Z) (self : t) : t :=
  mkNormal (board self) (half_moves self) (moves_history self) (board_history self)
    (position_occurence self) (en_passant self) n
    (half_moves_since_capture self) (castling self) (pocket self).

Definition set_half_moves_since_capture (n : Z) (self : t) : t :=
  mkNormal (board self) (half_moves self) (moves_history self) (board_history self)
    (position_occurence self) (en_passant self) (half_moves_since_pawn_moved self)
    n (castling self) (pocket self).

Definition set_castling (c : gset Piece) (self : t) : t :=
  mkNormal (board self) (half_moves self) (moves_history self) (board_history self)
    (position_occurence self) (en_passant self) (half_moves_since_pawn_moved self)
    (half_moves_since_capture self) c (pocket self).

Definition set_pocket (p : Side -> list Piece) (self : t) : t :=
  mkNormal (board self) (half_moves self) (moves_history self) (board_history self)
    (position_occurence self) (en_passant self) (half_moves_since_pawn_moved self)
    (half_moves_since_capture self) (castling self) p.

(** *** A state-and-exception monad for the methods that write to [self]

    A computation maps the instance to a result and the instance as the call
    leaves it; an exception keeps whatever was written before it was
    raised. *)
Definition M (A : Type) : Type := t -> Result A * t.

Definition ret {A : Type} (a : A) : M A := fun self => (Ok a, self).

Definition raise {A : Type} (e : Error) : M A := fun self => (Raise e, self).

Definition bind {A B : Type} (c : M A) (k : A -> M B) : M B :=
  fun self =>
    match c self with
    | (Ok a, self') => k a self'
    | (Raise e, self') => (Raise e, self')
    end.

(** A call that only reads the instance. *)
Definition reads {A : Type} (f : t -> Result A) : M A := fun self => (f self, self).

Definition gets {A : Type} (f : t -> A) : M A := fun self => (Ok (f self), self).

(** An assignment to fields of the instance. *)
Definition modify (f : t -> t) : M unit := fun self => (Ok tt, f self).

Notation "x <-! c ;; k" := (bind c (fun x => k))
  (at level 100, c at next level, right associativity).
Notation "c ;;! k" := (bind c (fun _ => k))
  (at level 100, right associativity).

(** *** Properties *)

Definition sides : list Side := [White; Black].

(** [len(self.sides)] *)
Definition n_sides : Z := Z.of_nat (length sides).

(** [moves]: the full-move counter. *)
Definition moves (self : t) : Z := (half_moves self + 1) / n_sides.

(** [on_move]: [self.sides[(self.__half_moves - 1) % len(self.sides)]]; the
    index is a remainder, hence in range. *)
Definition on_move (self : t) : Side :=
  nth (Z.to_nat ((half_moves self - 1) mod n_sides)) sides White.

(** [set(self.sides) - {s}] *)
Definition other_sides (s : Side) : gset Side := list_to_set sides ∖ {[s]}.

(** *** Move generation *)

(** [__transform_vector] *)
Definition transform_vector (vector : Z * Z) (all_directions : bool) (sd : Side)
  : gset (Z * Z) :=
  let '(v0, v1) := vector in
  if all_directions then
    {[ (v0, v1); (v1, v0); (v1, v0 * -1); (v0, v1 * -1);
       (v0 * -1, v1 * -1); (v1 * -1, v0 * -1); (v1 * -1, v0); (v0 * -1, v1) ]}
  else if bool_decide (sd = Black) then {[ (v0 * -1, v1 * -1) ]}
  else {[ vector ]}.

(** [range(1, n + 1)] *)
Definition range1 (n : nat) : list Z := map Z.of_nat (seq 1 n).

(** Number of steps after which an unbounded ray has certainly left the
    board: [itertools.count(1)] is cut there (see [ray_moves_count],
    [ray_captures_count] and [ray_attacked_count]: a longer prefix yields the
    same squares). *)
Definition ray_bound : nat := Z.to_nat (Z.max StandardBoard.files StandardBoard.ranks).

(** The distances a descriptor iterates over. *)
Definition loop (distance : option nat) : list Z :=
  match distance with
  | None => range1 ray_bound
  | Some n => range1 n
  end.

Definition step (position : Position) (vector : Z * Z) (distance : Z) : Position :=
  (fst position + fst vector * distance, snd position + snd vector * distance).

(** The inner loop of [standard_moves] along one direction. *)
Fixpoint ray_moves (board : Board) (position : Position) (vector : Z * Z)
    (distances : list Z) (new_positions : gset Position) : gset Position :=
  match distances with
  | [] => new_positions
  | distance :: rest =>
      let new_position := step position vector distance in
      if negb (StandardBoard.validate_position new_position) then new_positions
      else match StandardBoard.get_piece board new_position with
           | Some _ => new_positions
           | None => ray_moves board position vector rest ({[new_position]} ∪ new_positions)
           end
  end.

(** The inner loop of [standard_captures] along one direction. *)
Fixpoint ray_captures (board : Board) (pc : Piece) (capture_break : bool)
    (position : Position) (vector : Z * Z)
    (distances : list Z) (new_positions : gset Position) : gset Position :=
  match distances with
  | [] => new_positions
  | distance :: rest =>
      let new_position := step position vector distance in
      if negb (StandardBoard.validate_position new_position) then new_positions
      else match StandardBoard.get_piece board new_position with
           | None => ray_captures board pc capture_break position vector rest new_positions
           | Some new_piece =>
               if bool_decide (side new_piece ≠ side pc) then
                 if capture_break then {[new_position]} ∪ new_positions
                 else ray_captures board pc capture_break position vector rest
                        ({[new_position]} ∪ new_positions)
               else new_positions
           end
  end.

(** The inner loop of [attacked_fields] along one direction. *)
Fixpoint ray_attacked (board : Board) (pc : Piece)
    (position : Position) (vector : Z * Z)
    (distances : list Z) (new_positions : gset Position) : gset Position :=
  match distances with
  | [] => new_positions
  | distance :: rest =>
      let new_position := step position vector distance in
      if negb (StandardBoard.validate_position new_position) then new_positions
      else match StandardBoard.get_piece board new_position with
           | None => ray_attacked board pc position vector rest ({[new_position]} ∪ new_positions)
           | Some new_piece =>
               if bool_decide (side new_piece ≠ side pc)
               then {[new_position]} ∪ new_positions
               else new_positions
           end
  end.

(** The two outer loops shared by the three generators: over the
    descriptors, then over the transformed vectors. *)
Definition for_descriptors (descs : list Movement.MoveDescription) (sd : Side)
    (ray : Movement.MoveDescription -> Z * Z -> gset Position -> gset Position)
    (new_positions : gset Position) : gset Position :=
  fold_left
    (fun acc d =>
       fold_left (fun acc' v => ray d v acc')
         (elements (transform_vector (Movement.vector d) (Movement.any_direction d) sd))
         acc)
    descs new_positions.

(** [standard_moves]; [brd] is the optional board argument. *)
Definition standard_moves (self : t) (position : Position) (brd : option Board)
  : Result (gset Position) :=
  let board := default (board self) brd in
  match StandardBoard.get_piece board position with
  | None => Raise NoPiece
  | Some pc =>
      Ok (for_descriptors (Movement.move (Movement.movement (kind pc))) (side pc)
            (fun m_desc vector =>
               ray_moves board position vector (loop (Movement.distance m_desc)))
            ∅)
  end.

(** [attacked_fields] *)
Definition attacked_fields (self : t) (position : Position) (brd : option Board)
  : Result (gset Position) :=
  let board := default (board self) brd in
  match StandardBoard.get_piece board position with
  | None => Raise NoPiece
  | Some pc =>
      Ok (for_descriptors (Movement.capture (Movement.movement (kind pc))) (side pc)
            (fun c_desc vector =>
               ray_attacked board pc position vector (loop (Movement.distance c_desc)))
            ∅)
  end.

(** [standard_captures] *)
Definition standard_captures (self : t) (position : Position) (brd : option Board)
  : Result (gset Position) :=
  let board := default (board self) brd in
  match StandardBoard.get_piece board position with
  | None => Raise NoPiece
  | Some pc =>
      new_positions <-?
        (if bool_decide (kind pc = Pawn) then
           match en_passant self with
           | Some ep =>
               fields <-? attacked_fields self position (Some board) ;;
               Ok (if bool_decide (ep ∈ fields) then ({[ep]} : gset Position) else ∅)
           | None => Ok ∅
           end
         else Ok ∅) ;;
      Ok (for_descriptors (Movement.capture (Movement.movement (kind pc))) (side pc)
            (fun c_desc vector =>
               ray_captures board pc (Movement.capture_break c_desc) position vector
                 (loop (Movement.distance c_desc)))
            new_positions)
  end.

(** [attacked_fields_by_sides]: the comprehension runs [attacked_fields] on
    every occupied square and keeps the squares of the pieces whose side is in
    [sds]. *)
Definition attacked_fields_by_sides (self : t) (sds : gset Side) (brd : option Board)
  : Result (gset Position) :=
  let board := default (board self) brd in
  fold_left
    (fun acc pp =>
       so_far <-? acc ;;
       fields <-? attacked_fields self (fst pp) (Some board) ;;
       Ok (if bool_decide (side (snd pp) ∈ sds) then fields ∪ so_far else so_far))
    (StandardBoard.pieces board) (Ok ∅).

(** [not board.get_piece(p)] *)
Definition vacant (board : Board) (p : Position) : bool :=
  match StandardBoard.get_piece board p with
  | None => true
  | Some _ => false
  end.

(** [special_moves].  The attacked squares are computed on [self.board],
    whatever board was passed, and for the sides other than the one on
    move. *)
Definition special_moves (self : t) (position : Position) (brd : option Board)
  : Result (gset Position) :=
  let board := default (board self) brd in
  match StandardBoard.get_piece board position with
  | None => Raise NoPiece
  | Some pc =>
      let file := StandardPosition.file position in
      let rank := StandardPosition.rank position in
      if bool_decide (kind pc = Pawn) then
        let new_position : option Position :=
          if bool_decide (pc = piece Pawn Black) && (rank =? 6) && vacant board (file, 5)
          then Some (file, rank - 2)
          else if bool_decide (pc = piece Pawn White) && (rank =? 1) && vacant board (file, 2)
          then Some (file, rank + 2)
          else None in
        match new_position with
        | Some np =>
            if StandardBoard.validate_position np && vacant board np
            then Ok {[np]} else Ok ∅
        | None => Ok ∅
        end
      else if bool_decide (kind pc = King) && negb (bool_decide (castling self = ∅))
              && (file =? 4) then
        attacked <-? attacked_fields_by_sides self (other_sides (on_move self)) None ;;
        let king_side : gset Position :=
          if bool_decide (piece King (on_move self) ∈ castling self) then
            let pos1 : Position := (file + 1, rank) in
            let pos2 : Position := (file + 2, rank) in
            if vacant board pos1 && vacant board pos2
               && bool_decide (({[pos1; pos2]} : gset Position) ∩ attacked = ∅)
            then {[pos2]} else ∅
          else ∅ in
        let queen_side : gset Position :=
          if bool_decide (piece Queen (on_move self) ∈ castling self) then
            let pos1 : Position := (file - 1, rank) in
            let pos2 : Position := (file - 2, rank) in
            let pos3 : Position := (file - 2, rank) in
            if vacant board pos1 && vacant board pos2 && vacant board pos3
               && bool_decide (({[pos1; pos2]} : gset Position) ∩ attacked = ∅)
            then {[pos2]} else ∅
          else ∅ in
        Ok (king_side ∪ queen_side)
      else Ok ∅
  end.

(** *** Legality *)

(** [destination.rank in (7, 0)] *)
Definition last_rank (p : Position) : bool :=
  (StandardPosition.rank p =? 7) || (StandardPosition.rank p =? 0).

(** [assert_move].  The test board is a deep copy of [self.board]: the
    removals and the put below act on the copy only. *)
Definition assert_move (move : StandardMove) : M unit :=
  let source := source move in
  let destination := destination move in
  pc_opt <-! gets (fun self => StandardBoard.get_piece (board self) source) ;;
  match pc_opt with
  | None => raise NoPiece
  | Some pc =>
      available_dest <-! reads (fun self =>
        a <-? standard_moves self source None ;;
        b <-? standard_captures self source None ;;
        c <-? special_moves self source None ;;
        Ok (a ∪ b ∪ c)) ;;
      if bool_decide (destination ∉ available_dest) then raise NotAValidMove
      else
        copy <-! gets board ;;
        let '(test_piece, test_board) := StandardBoard.remove_piece copy source in
        let test_board := snd (StandardBoard.put_piece test_board test_piece destination) in
        ep <-! gets en_passant ;;
        let test_board :=
          if isinstance test_piece Pawn && bool_decide (Some destination = ep)
          then snd (StandardBoard.remove_piece test_board
                      (StandardPosition.file destination, StandardPosition.rank source))
          else test_board in
        on <-! gets on_move ;;
        match StandardBoard.find_pieces test_board (piece King on) with
        | [] => raise IndexError
        | (king_pos, king) :: _ =>
            attacked <-! reads (fun self =>
              attacked_fields_by_sides self (other_sides (side pc)) (Some test_board)) ;;
            if bool_decide (king_pos ∈ attacked) then raise CausesCheck
            else if bool_decide (kind pc = Pawn) && last_rank destination then
              match promotion move with
              | None => raise NotAValidPromotion
              | Some _ => ret tt
              end
            else ret tt
        end
  end.

(** Modelled from the spec: the exception classes
    ([chess/exceptions/variant.py]) are absent.  The handlers
    [except NotAValidMove] of [can_i_make_a_move] and [all_available_moves]
    skip a destination whose validation fails, so [CausesCheck] and
    [NotAValidPromotion] are taken to derive from [NotAValidMove]. *)
Definition except_NotAValidMove (e : Error) : bool :=
  match e with
  | NotAValidMove | CausesCheck | NotAValidPromotion => true
  | _ => false
  end.

(** [try: self.assert_move(move) except NotAValidMove: ...]: [true] when the
    move validates, [false] when the handler caught the exception; any other
    exception propagates. *)
Definition try_assert_move (move : StandardMove) : M bool :=
  fun self =>
    match assert_move move self with
    | (Ok _, self') => (Ok true, self')
    | (Raise e, self') =>
        if except_NotAValidMove e then (Ok false, self') else (Raise e, self')
    end.

(** The loop [for dest in moves] of [can_i_make_a_move], returning at the
    first destination that validates. *)
Fixpoint first_valid (pos : Position) (dests : list Position) : M bool :=
  match dests with
  | [] => ret false
  | dest :: rest =>
      ok <-! try_assert_move (mkMove pos dest None) ;;
      if ok then ret true else first_valid pos rest
  end.

Fixpoint can_move_from (ps : list (Position * Piece)) : M bool :=
  match ps with
  | [] => ret false
  | (pos, pc) :: rest =>
      on <-! gets on_move ;;
      if bool_decide (side pc = on) then
        sc <-! reads (fun self => standard_captures self pos None) ;;
        sm <-! reads (fun self => standard_moves self pos None) ;;
        sp <-! reads (fun self => special_moves self pos None) ;;
        found <-! first_valid pos (elements sc ++ elements sm ++ elements sp) ;;
        if found then ret true else can_move_from rest
      else can_move_from rest
  end.

(** [can_i_make_a_move] *)
Definition can_i_make_a_move : M bool :=
  ps <-! gets (fun self => StandardBoard.pieces (board self)) ;;
  can_move_from ps.

(** The loop [for destination in ...] of [all_available_moves]. *)
Fixpoint collect_valid (pos : Position) (dests : list Position)
    (moves : gset StandardMove) : M (gset StandardMove) :=
  match dests with
  | [] => ret moves
  | dest :: rest =>
      ok <-! try_assert_move (mkMove pos dest None) ;;
      collect_valid pos rest (if ok then {[mkMove pos dest None]} ∪ moves else moves)
  end.

Fixpoint collect_from (sd : Side) (ps : list (Position * Piece))
    (moves : gset StandardMove) : M (gset StandardMove) :=
  match ps with
  | [] => ret moves
  | (pos, pc) :: rest =>
      if bool_decide (side pc ≠ sd) then collect_from sd rest moves
      else
        dests <-! reads (fun self =>
          a <-? standard_moves self pos None ;;
          b <-? standard_captures self pos None ;;
          c <-? special_moves self pos None ;;
          Ok (a ∪ b ∪ c)) ;;
        moves' <-! collect_valid pos (elements dests) moves ;;
        collect_from sd rest moves'
  end.

(** [all_available_moves] *)
Definition all_available_moves (sd : option Side) : M (list StandardMove) :=
  on <-! gets on_move ;;
  let sd := default on sd in
  ps <-! gets (fun self => StandardBoard.pieces (board self)) ;;
  moves <-! collect_from sd ps ∅ ;;
  ret (elements moves).

(** *** Game state *)

Definition all_sides : gset Side := list_to_set sides.

(** The five three-piece sets of [game_state], in the order tested. *)
Definition lone_minor_sets : list (gset Piece) :=
  [ {[piece King White; piece King Black; piece Knight White]};
    {[piece King White; piece King Black; piece Knight Black]};
    {[piece King White; piece King Black; piece Bishop White]};
    {[piece King White; piece King Black; piece Bishop Black]} ].

(** The chain of tests [pieces == {...} and not self.can_i_make_a_move()];
    [true] when one of them returns the draw. *)
Fixpoint lone_minor_draw (pieces : gset Piece) (candidates : list (gset Piece)) : M bool :=
  match candidates with
  | [] => ret false
  | c :: rest =>
      if bool_decide (pieces = c) then
        can <-! can_i_make_a_move ;;
        if negb can then ret true else lone_minor_draw pieces rest
      else lone_minor_draw pieces rest
  end.

Definition Verdict : Type := option (gset Side) * option string.

(** The part of [game_state] after the material test. *)
Definition game_state_rest : M Verdict :=
  pawn <-! gets half_moves_since_pawn_moved ;;
  capt <-! gets half_moves_since_capture ;;
  if (50 <=? pawn) && (50 <=? capt) then
    ret (Some all_sides, Some "fifty-move rule"%string)
  else
    occ <-! gets position_occurence ;;
    if existsb (fun kv => 3 <=? snd kv) (map_to_list occ) then
      ret (Some all_sides, Some "threefold repetition"%string)
    else
      can <-! can_i_make_a_move ;;
      if negb can then
        on <-! gets on_move ;;
        kings <-! gets (fun self => StandardBoard.find_pieces (board self) (piece King on)) ;;
        match kings with
        | [] => raise IndexError
        | (king_pos, _) :: _ =>
            attacked <-! reads (fun self =>
              attacked_fields_by_sides self (other_sides on) None) ;;
            if bool_decide (king_pos ∈ attacked)
            then ret (Some (other_sides on), Some "check mate"%string)
            else ret (Some all_sides, Some "stalemate"%string)
        end
      else ret (None, None).

(** [game_state] *)
Definition game_state : M Verdict :=
  pieces <-! gets (fun self =>
    (list_to_set (map snd (StandardBoard.pieces (board self))) : gset Piece)) ;;
  if bool_decide (size pieces < 4)%nat then
    if bool_decide (pieces = {[piece King White; piece King Black]}) then
      ret (Some all_sides, Some "insufficient material"%string)
    else
      draw <-! lone_minor_draw pieces lone_minor_sets ;;
      if draw then ret (Some all_sides, Some "insufficient material"%string)
      else game_state_rest
  else game_state_rest.
(** *** Construction *)

(** [self.board.put_piece(piece=..., position=...)] on a board value. *)
Definition place (pc : Piece) (p : Position) (b : Board) : Board :=
  snd (StandardBoard.put_piece b (Some pc) p).

(** [for i in range(8): self.board.put_piece(Pawn(side), (i, rank))] *)
Definition place_pawns (sd : Side) (rank : Z) (b : Board) : Board :=
  fold_left (fun b' i => place (piece Pawn sd) (Z.of_nat i, rank) b') (seq 0 8) b.

(** [init_board_state], as the sequence of its [put_piece] calls. *)
Definition init_board_state (b : Board) : Board :=
  let b := place (piece Rook White) (0, 0) b in
  let b := place (piece Rook White) (7, 0) b in
  let b := place (piece Knight White) (1, 0) b in
  let b := place (piece Knight White) (6, 0) b in
  let b := place (piece Bishop White) (2, 0) b in
  let b := place (piece Bishop White) (5, 0) b in
  let b := place (piece Queen White) (3, 0) b in
  let b := place (piece King White) (4, 0) b in
  let b := place_pawns White 1 b in
  let b := place_pawns Black 6 b in
  let b := place (piece Rook Black) (0, 7) b in
  let b := place (piece Rook Black) (7, 7) b in
  let b := place (piece Knight Black) (1, 7) b in
  let b := place (piece Knight Black) (6, 7) b in
  let b := place (piece Bishop Black) (2, 7) b in
  let b := place (piece Bishop Black) (5, 7) b in
  let b := place (piece Queen Black) (3, 7) b in
  place (piece King Black) (4, 7) b.

(** [{piece(side) for side in self.sides for piece in (King, Queen)}] *)
Definition initial_castling : gset Piece :=
  list_to_set (flat_map (fun sd => [piece King sd; piece Queen sd]) sides).

(** [__init__] *)
Definition new (init : bool) : t :=
  {| board := if init then init_board_state ∅ else ∅;
     half_moves := 1;
     moves_history := [];
     board_history := [];
     position_occurence := ∅;
     en_passant := None;
     half_moves_since_pawn_moved := 0;
     half_moves_since_capture := 0;
     castling := initial_castling;
     pocket := fun _ => [] |}.

(** *** The state string *)

(** [sorted] on one-character strings: insertion by code point. *)
Fixpoint insert_sorted (c : ascii) (l : list ascii) : list ascii :=
  match l with
  | [] => [c]
  | d :: l' =>
      if (N_of_ascii c <=? N_of_ascii d)%N then c :: l else d :: insert_sorted c l'
  end.

Definition sorted (l : list ascii) : list ascii := fold_right insert_sorted [] l.

(** [__str__] (and [fen]). *)
Definition str (self : t) : string :=
  (StandardBoard.get_fen (board self) ++ " "
   ++ String (side_char (on_move self)) " "
   ++ (if bool_decide (castling self = ∅) then "-"
       else string_of_list_ascii (sorted (map piece_str (elements (castling self)))))
   ++ " "
   ++ match en_passant self with
      | Some ep => StandardPosition.to_str ep
      | None => "-"
      end
   ++ " "
   ++ StandardPosition.str_int
        (Z.min (half_moves_since_pawn_moved self) (half_moves_since_capture self))
   ++ " "
   ++ StandardPosition.str_int (moves self))%string.

(** *** History *)

(** The tuple [save_history] deep-copies. *)
Definition snapshot (self : t) : Snapshot :=
  mkSnapshot (board self) (half_moves self) (position_occurence self)
    (en_passant self) (half_moves_since_pawn_moved self)
    (half_moves_since_capture self) (castling self).

(** [save_history] *)
Definition save_history : M unit :=
  modify (fun self => set_board_history (board_history self ++ [snapshot self]) self).

(** [l[i]] with Python's negative indices. *)
Definition py_index {A : Type} (l : list A) (i : Z) : Result A :=
  let n := Z.of_nat (length l) in
  let j := if i <? 0 then n + i else i in
  if (0 <=? j) && (j <? n) then
    match l !! Z.to_nat j with
    | Some a => Ok a
    | None => Raise IndexError
    end
  else Raise IndexError.

(** [l.pop()] on a field read by [get] and written by [set]. *)
Definition pop {A : Type} (get : t -> list A) (set : list A -> t -> t) : M unit :=
  fun self =>
    match get self with
    | [] => (Raise IndexError, self)
    | _ :: _ => (Ok tt, set (removelast (get self)) self)
    end.

(** [for _ in range(offset): self.__moves_history.pop(); self.__board_history.pop()] *)
Fixpoint pop_histories (n : nat) : M unit :=
  match n with
  | O => ret tt
  | S n' =>
      pop moves_history set_moves_history ;;!
      pop board_history set_board_history ;;!
      pop_histories n'
  end.

Definition restore (snap : Snapshot) (self : t) : t :=
  mkNormal (snap_board snap) (snap_half_moves snap) (moves_history self)
    (board_history self) (snap_position_occurence snap) (snap_en_passant snap)
    (snap_half_moves_since_pawn_moved snap) (snap_half_moves_since_capture snap)
    (snap_castling snap) (pocket self).

(** [load_history] *)
Definition load_history (offset : Z) : M unit :=
  index <-! gets (fun self => half_moves self - offset - 1) ;;
  snap <-! reads (fun self => py_index (board_history self) index) ;;
  modify (restore snap) ;;!
  pop_histories (Z.to_nat offset).

(** *** Committing a move *)

Definition e1 : Position := (4, 0).
Definition a1 : Position := (0, 0).
Definition h1 : Position := (7, 0).
Definition e8 : Position := (4, 7).
Definition a8 : Position := (0, 7).
Definition h8 : Position := (7, 7).

(** One [if]/[elif]/[elif] chain of [__update_castling_info] for the home
    squares [king], [rook_a] and [rook_h] of side [sd]. *)
Definition revoke (sd : Side) (king rook_a rook_h : Position)
    (source destination : Position) (c : gset Piece) : gset Piece :=
  if bool_decide (king = source) then c ∖ {[piece King sd; piece Queen sd]}
  else if bool_decide (rook_a = source) || bool_decide (rook_a = destination)
  then c ∖ {[piece Queen sd]}
  else if bool_decide (rook_h = source) || bool_decide (rook_h = destination)
  then c ∖ {[piece King sd]}
  else c.

(** [__update_castling_info] *)
Definition update_castling_info (source destination : Position) : M unit :=
  modify (fun self =>
    if bool_decide (castling self = ∅) then self
    else
      let c := revoke White e1 a1 h1 source destination (castling self) in
      let c := revoke Black e8 a8 h8 source destination c in
      set_castling c self).

(** [self.board.remove_piece(position)] and [self.board.put_piece(pc, position)]
    on the instance's own board. *)
Definition board_remove_piece (p : Position) : M (option Piece) :=
  fun self =>
    let '(removed, b) := StandardBoard.remove_piece (board self) p in
    (Ok removed, set_board b self).

Definition board_put_piece (pc : option Piece) (p : Position) : M (option Piece) :=
  fun self =>
    let '(displaced, b) := StandardBoard.put_piece (board self) pc p in
    (Ok displaced, set_board b self).

(** [d[k] += 1] on a [defaultdict(int)] *)
Definition increment (k : Z) (d : gmap Z Z) : gmap Z Z :=
  <[k := default 0 (d !! k) + 1]> d.

Section Commit.

(** [hash(self.board)]: the board class and its [__hash__] are absent from
    the sources; the key is whatever function of the board layout that hash
    computes, taken as a parameter. *)
Variable board_hash : Board -> Z.

(** The pawn branch of [move]; returns the captured piece. *)
Definition move_pawn (move : StandardMove) (taken_piece : option Piece)
  : M (option Piece) :=
  let source := source move in
  let destination := destination move in
  ep <-! gets en_passant ;;
  taken_piece <-!
    (if bool_decide (Some destination = ep)
     then board_remove_piece
            (StandardPosition.file destination, StandardPosition.rank source)
     else ret taken_piece) ;;
  modify (set_en_passant
    (if Z.abs (StandardPosition.rank source - StandardPosition.rank destination) =? 2
     then Some (StandardPosition.file source,
                Z.quot (StandardPosition.rank source + StandardPosition.rank destination) 2)
     else None)) ;;!
  modify (set_half_moves_since_pawn_moved 0) ;;!
  (if last_rank destination then
     on <-! gets on_move ;;
     match promotion move with
     | Some k => board_put_piece (Some (piece k on)) destination ;;! ret tt
     | None => raise TypeError
     end
   else ret tt) ;;!
  ret taken_piece.

(** The branch of [move] for any other piece. *)
Definition move_other : M unit :=
  ep <-! gets en_passant ;;
  (match ep with
   | Some _ => modify (set_en_passant None)
   | None => ret tt
   end) ;;!
  modify (fun self =>
    set_half_moves_since_pawn_moved (half_moves_since_pawn_moved self + 1) self).

(** The rook relocation of a castling move. *)
Definition move_castling_rook (move : StandardMove) (moved_piece : option Piece) : M unit :=
  let source := source move in
  let destination := destination move in
  if isinstance moved_piece King
     && (Z.abs (StandardPosition.file source - StandardPosition.file destination) =? 2)
  then
    let rank := StandardPosition.rank source in
    if StandardPosition.file destination =? 6 then
      moved_rook <-! board_remove_piece (7, rank) ;;
      board_put_piece moved_rook (5, rank) ;;! ret tt
    else if StandardPosition.file destination =? 2 then
      moved_rook <-! board_remove_piece (0, rank) ;;
      board_put_piece moved_rook (3, rank) ;;! ret tt
    else ret tt
  else ret tt.

(** The capture counter and the pocket. *)
Definition move_capture (taken_piece : option Piece) : M unit :=
  match taken_piece with
  | None =>
      modify (fun self =>
        set_half_moves_since_capture (half_moves_since_capture self + 1) self)
  | Some tp =>
      modify (set_half_moves_since_capture 0) ;;!
      on <-! gets on_move ;;
      modify (fun self =>
        set_pocket (fun sd => if bool_decide (sd = on)
                              then pocket self sd ++ [tp] else pocket self sd) self)
  end.

(** The part of [move] that relocates pieces and updates the en-passant
    square, the two sub-counters, the pocket and the castling rights. *)
Definition relocate (move : StandardMove) : M (option Piece) :=
  let source := source move in
  let destination := destination move in
  moved_piece <-! board_remove_piece source ;;
  taken_piece <-! board_put_piece moved_piece destination ;;
  taken_piece <-!
    (if isinstance moved_piece Pawn then move_pawn move taken_piece
     else move_other ;;! ret taken_piece) ;;
  move_castling_rook move moved_piece ;;!
  move_capture taken_piece ;;!
  update_castling_info source destination ;;!
  ret taken_piece.

(** Everything [move] does once the move is accepted. *)
Definition commit (move : StandardMove) : M (option Piece) :=
  save_history ;;!
  taken_piece <-! relocate move ;;
  modify (fun self =>
    set_position_occurence
      (increment (board_hash (board self)) (position_occurence self)) self) ;;!
  modify (fun self => set_moves_history (moves_history self ++ [move]) self) ;;!
  modify (fun self => set_half_moves (half_moves self + 1) self) ;;!
  ret taken_piece.

(** [move] *)
Definition move (mv : StandardMove) : M (option Piece) :=
  assert_move mv ;;!
  moved_piece <-! gets (fun self => StandardBoard.get_piece (board self) (source mv)) ;;
  match moved_piece with
  | None => raise AttributeError
  | Some mp =>
      on <-! gets on_move ;;
      if bool_decide (side mp ≠ on) then raise WrongMoveOrder
      else commit mv
  end.

End Commit.

(** *** Queries outside the hot path *)

(** [is_check]: whether the king of the side on move stands on a square
    attacked by the other sides. *)
Definition is_check (self : t) : Result bool :=
  match StandardBoard.find_pieces (board self) (piece King (on_move self)) with
  | [] => Raise IndexError
  | (pos, _) :: _ =>
      attacked <-? attacked_fields_by_sides self (other_sides (on_move self)) None ;;
      Ok (bool_decide (pos ∈ attacked))
  end.

(** [last_move]: [self.moves_history[-1]], or [None] when the history is
    empty. *)
Definition last_move (self : t) : option StandardMove := last (moves_history self).

(** [who_can_step_here]: the dictionary of the occupied squares whose piece
    attacks [position]. *)
Definition who_can_step_here (self : t) (position : Position) (brd : option Board)
  : Result (gmap Position Piece) :=
  let board := default (board self) brd in
  fold_left
    (fun acc pp =>
       so_far <-? acc ;;
       fields <-? attacked_fields self (fst pp) (Some board) ;;
       Ok (if bool_decide (position ∈ fields) then <[fst pp := snd pp]> so_far else so_far))
    (StandardBoard.pieces board) (Ok ∅).

(** [fen] *)
Definition fen (self : t) : string := str self.

End Normal.


(* ===================================================================== *)
(** ** Vocabulary of the statements *)
(* ===================================================================== *)

Fixpoint all_letters (s : string) : bool :=
  match s with
  | EmptyString => true
  | String c s' => StandardPosition.is_letter c && all_letters s'
  end.

(** The file [f] renders to a non-empty word of letters that parses back to
    [f]. *)
Definition file_round_trips (f : Z) : bool :=
  let s := StandardPosition.file_from_int_to_str f in
  negb (String.eqb s EmptyString) && all_letters s
  && match StandardPosition.file_from_str_to_int s with
     | Ok g => g =? f
     | Raise _ => false
     end.

(** The least file whose text does not parse back: ["caa"] reads as
    [(2 * 26) ** 2]. *)
Definition first_bad_file : Z := 2 * 26 ^ 2.

Import Normal.

(** A computation relates the instance it leaves to the one it was given by
    [R], whatever its outcome. *)
Definition preserves (R : Normal.t -> Normal.t -> Prop) {A : Type} (c : M A) : Prop :=
  forall self, R self (snd (c self)).

(** A computation that writes nothing to the instance. *)
Definition readonly {A : Type} (c : M A) : Prop := preserves eq c.

(** The exceptions a computation can raise all satisfy [P]. *)
Definition raises_only (P : Error -> Prop) {A : Type} (c : M A) : Prop :=
  forall self e self', c self = (Raise e, self') -> P e.

(** The five validation errors of a proposed move. *)
Definition validation_error (e : Error) : bool :=
  match e with
  | NoPiece | NotAValidMove | CausesCheck | NotAValidPromotion | WrongMoveOrder => true
  | _ => false
  end.

(** What the relocation steps of a commit leave alone: the histories, the
    half-move counter and the repetition table are untouched and the
    castling rights can only shrink. *)
Definition commit_frame (s s' : Normal.t) : Prop :=
  board_history s' = board_history s
  /\ moves_history s' = moves_history s
  /\ half_moves s' = half_moves s
  /\ position_occurence s' = position_occurence s
  /\ castling s' ⊆ castling s.

(** The castling rights of [s'] are among those of [s]. *)
Definition castling_shrinks (s s' : Normal.t) : Prop := castling s' ⊆ castling s.

(** The snapshot stack mirrors the half-move counter: there is one snapshot
    per committed move, and the snapshot at index [i] was taken at half-move
    [i + 1]. *)
Definition history_consistent (s : Normal.t) : Prop :=
  half_moves s = Z.of_nat (length (board_history s)) + 1
  /\ forall (i : nat) (snap : Snapshot),
       board_history s !! i = Some snap -> snap_half_moves snap = Z.of_nat i + 1.

(** The pieces on the board, as the set [game_state] builds. *)
Definition piece_set (s : Normal.t) : gset Piece :=
  list_to_set (map snd (StandardBoard.pieces (board s))).

(** A board holding exactly the two kings and one minor piece. *)
Definition lone_minor_board (b : Board) : Prop :=
  exists (pw pb pm : Position) (m : Kind) (sd : Side),
    (m = Bishop \/ m = Knight)
    /\ pw <> pb /\ pw <> pm /\ pb <> pm
    /\ b = <[pw := piece King White]> (<[pb := piece King Black]> {[pm := piece m sd]}).

(** The verdicts of [game_state]. *)
Definition insufficient_material : Verdict :=
  (Some all_sides, Some "insufficient material"%string).
Definition fifty_move_rule : Verdict :=
  (Some all_sides, Some "fifty-move rule"%string).
Definition threefold_repetition : Verdict :=
  (Some all_sides, Some "threefold repetition"%string).

(** Two states differ in a component of the repetition signature. *)
Definition signature_differs (s1 s2 : Normal.t) : Prop :=
  board s1 <> board s2 \/ on_move s1 <> on_move s2
  \/ castling s1 <> castling s2 \/ en_passant s1 <> en_passant s2.

(** A computation leaves the component [f] of the instance as it found
    it. *)
Definition keeps {A : Type} (f : Normal.t -> A) (s s' : Normal.t) : Prop := f s' = f s.

(** What the squares offered to the piece [pc] can hold on [b]: nothing, or
    a piece of another side. *)
Definition free_for (b : Board) (pc : Piece) (d : Position) : Prop :=
  match StandardBoard.get_piece b d with
  | None => True
  | Some q => side q <> side pc
  end.

(** The castling rights left by [__update_castling_info]. *)
Definition revoked (source destination : Position) (c : gset Piece) : gset Piece :=
  if bool_decide (c = ∅) then c
  else revoke Black e8 a8 h8 source destination
         (revoke White e1 a1 h1 source destination c).

(** The other side of the two. *)
Definition opponent (sd : Side) : Side :=
  match sd with White => Black | Black => White end.

(** Each of the letters [A] to [Z] of a text replaced by its lower-case
    counterpart; every other character is left alone. *)
Fixpoint lower_ascii_letters (s : string) : string :=
  match s with
  | EmptyString => EmptyString
  | String c s' => String (StandardPosition.lower c) (lower_ascii_letters s')
  end.

(** The texts of positions: one or more letters of [a-zA-Z], then between
    one and [max_str_digits] digits of [0-9], then at most one newline. *)
Definition position_text (pos : string) : Prop :=
  exists letters digits nl : string,
    pos = (letters ++ digits ++ nl)%string
    /\ letters <> EmptyString /\ all_letters letters = true
    /\ digits <> EmptyString /\ StandardPosition.all_digits digits = true
    /\ Z.of_nat (String.length digits) <= StandardPosition.max_str_digits
    /\ (nl = EmptyString \/ nl = String "010"%char EmptyString).

(** The en-passant square a move leaves: the square passed over by a pawn
    that advanced two ranks, and none otherwise. *)
Definition en_passant_after (pc : Piece) (m : StandardMove) : option Position :=
  if bool_decide (kind pc = Pawn)
     && (Z.abs (StandardPosition.rank (source m) - StandardPosition.rank (destination m)) =? 2)
  then Some (StandardPosition.file (source m),
             Z.quot (StandardPosition.rank (source m) + StandardPosition.rank (destination m)) 2)
  else None.

(** The pocket after a capture by side [on]. *)
Definition pocket_after (on : Side) (taken : option Piece) (p : Side -> list Piece)
  : Side -> list Piece :=
  match taken with
  | None => p
  | Some tp => fun sd => if bool_decide (sd = on) then p sd ++ [tp] else p sd
  end.

(** The home squares of the king and the two rooks of a side. *)
Definition king_home (sd : Side) : Position :=
  match sd with White => e1 | Black => e8 end.
Definition rook_a_home (sd : Side) : Position :=
  match sd with White => a1 | Black => a8 end.
Definition rook_h_home (sd : Side) : Position :=
  match sd with White => h1 | Black => h8 end.

(** A move starts from or ends on the square [p]. *)
Definition touches (p : Position) (m : StandardMove) : Prop :=
  source m = p \/ destination m = p.

(** The moves without promotion, from a square held by side [sd], that
    [assert_move] accepts. *)
Definition accepted_from (sd : Side) (s : Normal.t) (m : StandardMove) : Prop :=
  promotion m = None
  /\ (exists pc, StandardBoard.get_piece (board s) (source m) = Some pc /\ side pc = sd)
  /\ fst (assert_move m s) = Ok tt.

(** The destinations the three generators offer from [pos]. *)
Definition offered (s : Normal.t) (pos : Position) : Result (gset Position) :=
  a <-? standard_moves s pos None ;;
  b <-? standard_captures s pos None ;;
  c <-? special_moves s pos None ;;
  Ok (a ∪ b ∪ c).

(** The remaining verdicts of [game_state]. *)
Definition check_mate (loser : Side) : Verdict :=
  (Some {[opponent loser]}, Some "check mate"%string).
Definition stalemate : Verdict := (Some all_sides, Some "stalemate"%string).
Definition undecided : Verdict := (None, None).

Section Games.

Variable board_hash : Board -> Z.

(** The states of a game: a fresh instance, and whatever a successful [move]
    or [load_history] leaves. *)
Inductive reachable : Normal.t -> Prop :=
| reachable_new (init : bool) : reachable (new init)
| reachable_move (s s' : Normal.t) (mv : StandardMove) (taken : option Piece) :
    reachable s -> move board_hash mv s = (Ok taken, s') -> reachable s'
| reachable_load (s s' : Normal.t) (offset : Z) :
    reachable s -> load_history offset s = (Ok tt, s') -> reachable s'.

(** The instance after a sequence of calls to [move], whatever each call
    returned. *)
Definition play (mvs : list StandardMove) (s : Normal.t) : Normal.t :=
  fold_left (fun s' mv => snd (move board_hash mv s')) mvs s.

(** The key under which [move] counts the state it leaves. *)
Definition recorded_key (s : Normal.t) : Z := board_hash (board s).

(** Every move of the sequence is accepted and committed. *)
Fixpoint all_accepted (mvs : list StandardMove) (s : Normal.t) : bool :=
  match mvs with
  | [] => true
  | m :: rest =>
      match move board_hash m s with
      | (Ok _, s') => all_accepted rest s'
      | (Raise _, _) => false
      end
  end.

(** The recorded keys tell apart any two committed states of games that
    differ in board layout, side to move, castling rights or en-passant
    square. *)
Definition key_distinguishes : Prop :=
  forall (s1 s2 s1' s2' : Normal.t) (m1 m2 : StandardMove) (t1 t2 : option Piece),
    reachable s1 -> reachable s2 ->
    move board_hash m1 s1 = (Ok t1, s1') ->
    move board_hash m2 s2 = (Ok t2, s2') ->
    signature_differs s1' s2' ->
    recorded_key s1' <> recorded_key s2'.

End Games.

(** A board hash for the worked examples (any function serves): a
    polynomial hash of the layout string. *)
Definition fen_hash (b : Board) : Z :=
  fold_left (fun acc c => (acc * 131 + Z.of_N (N_of_ascii c)) mod 2 ^ 61)
    (list_ascii_of_string (StandardBoard.get_fen b)) 7.

Definition mv (a b : Position) : StandardMove := mkMove a b None.

(** Knights out and back: after these four plies the initial layout is on
    the board again. *)
Definition knights_dance : list StandardMove :=
  [mv (6, 0) (5, 2); mv (6, 7) (5, 5); mv (5, 2) (6, 0); mv (5, 5) (6, 7)].

(** A game of ten plies.  Both knights come out; both king's rooks step to
    the g-file and back; both knights go home and come out again.  The
    layout after ply 2 is on the board again after plies 6 and 10. *)
Definition knights_out : list StandardMove :=
  [mv (6, 0) (5, 2); mv (6, 7) (5, 5)].
Definition rooks_there_and_back : list StandardMove :=
  [mv (7, 0) (6, 0); mv (7, 7) (6, 7); mv (6, 0) (7, 0); mv (6, 7) (7, 7)].
Definition knights_home_and_out : list StandardMove :=
  [mv (5, 2) (6, 0); mv (5, 5) (6, 7); mv (6, 0) (5, 2); mv (6, 7) (5, 5)].

(** Fifty plies of knight moves from the initial position. *)
Definition fifty_plies : list StandardMove :=
  concat (repeat knights_dance 12) ++ [mv (6, 0) (5, 2); mv (6, 7) (5, 5)].

(** White to move, king on e1 in check from the rook on e8, rook on h1,
    f1 and g1 empty and not attacked, all castling rights held. *)
Definition checked_king : Normal.t :=
  set_board
    (list_to_map [((4, 0), piece King White); ((7, 0), piece Rook White);
                  ((4, 7), piece Rook Black); ((0, 7), piece King Black)])
    (new false).

(** White to move with king a1 and bishop c1 against the king on h8. *)
Definition bishop_ending : Normal.t :=
  set_board
    (list_to_map [((0, 0), piece King White); ((2, 0), piece Bishop White);
                  ((7, 7), piece King Black)])
    (new false).

(** Black to move and stalemated: king a8 against king b6 and bishop d6. *)
Definition bishop_stalemate : Normal.t :=
  set_castling ∅ (set_half_moves 2
    (set_board
       (list_to_map [((1, 5), piece King White); ((3, 5), piece Bishop White);
                     ((0, 7), piece King Black)])
       (new false))).

(** After 1. e4 d5: the pawn on e4 attacks the pawn on d5. *)
Definition centre_pawns : Normal.t :=
  play fen_hash [mv (4, 1) (4, 3); mv (3, 6) (3, 4)] (new true).

(** After 1. e4 a6 2. e5 d5: the pawn on e5 can take the pawn on d5 en
    passant. *)
Definition en_passant_ready : Normal.t :=
  play fen_hash [mv (4, 1) (4, 3); mv (0, 6) (0, 5); mv (4, 3) (4, 4); mv (3, 6) (3, 4)]
    (new true).

(** After 1. f3 e5 2. g4 Qh4: White is mated. *)
Definition fools_mate : Normal.t :=
  play fen_hash [mv (5, 1) (5, 2); mv (4, 6) (4, 4); mv (6, 1) (6, 3); mv (3, 7) (7, 3)]
    (new true).

(** White to move with king e1 and both rooks at home against the king on
    e8, all castling rights held. *)
Definition open_back_rank : Normal.t :=
  set_board
    (list_to_map [((4, 0), piece King White); ((0, 0), piece Rook White);
                  ((7, 0), piece Rook White); ((4, 7), piece King Black)])
    (new false).

(** White to move with king e1 and a pawn on a7 against the king on e8. *)
Definition pawn_on_seventh : Normal.t :=
  set_board
    (list_to_map [((4, 0), piece King White); ((0, 6), piece Pawn White);
                  ((4, 7), piece King Black)])
    (new false).

(* ===================================================================== *)
(** ** Position text *)
(* ===================================================================== *)

Section PositionText.

Import StandardPosition.

Lemma output_chars_loop_exit (file : Z) (fuel : nat) (oc : Z) :
  0 <= oc ->
  file < 26 ^ (oc + Z.of_nat fuel) ->
  file < 26 ^ output_chars_loop fuel oc file.
Proof.
  revert oc. induction fuel as [|fuel IH]; intros oc Hoc Hbound; simpl.
  - by rewrite Z.add_0_r in Hbound.
  - destruct (Z.leb_spec (26 ^ oc) file) as [Hle|Hgt]; [|done].
    apply IH; [lia|]. by replace (oc + 1 + Z.of_nat fuel) with (oc + Z.of_nat (S fuel)) by lia.
Qed.

(** The [while] loop of [__file_from_int_to_str] has stopped by itself when
    the bound on its rounds is reached: its exit condition holds. *)
Lemma output_chars_exit (file : Z) : file < 26 ^ output_chars file.
Proof.
  unfold output_chars. apply output_chars_loop_exit; [lia|].
  destruct (Z.le_gt_cases file 0) as [Hneg|Hpos].
  - assert (0 < 26 ^ (1 + Z.of_nat (Z.to_nat file))) by (apply Z.pow_pos_nonneg; lia). lia.
  - rewrite Z2Nat.id by lia.
    assert (1 + file < 26 ^ (1 + file)) by (apply Z.pow_gt_lin_r; lia). lia.
Qed.

Lemma output_chars_loop_lower (file : Z) (fuel : nat) (oc : Z) :
  oc <= output_chars_loop fuel oc file.
Proof.
  revert oc. induction fuel as [|fuel IH]; intros oc; simpl; [lia|].
  destruct (26 ^ oc <=? file); [|lia]. specialize (IH (oc + 1)). lia.
Qed.

Lemma output_chars_pos (file : Z) : 1 <= output_chars file.
Proof. apply output_chars_loop_lower. Qed.

Lemma digit_not_letter (c : ascii) : is_digit c = true -> is_letter c = false.
Proof.
  unfold is_digit, is_letter, is_lower, is_upper.
  generalize (N_of_ascii c). intros n H.
  apply andb_true_iff in H as [_ H]. apply N.leb_le in H.
  apply orb_false_iff. split; apply andb_false_iff; left; apply N.leb_gt; lia.
Qed.

Lemma digit_not_newline (c : ascii) : is_digit c = true -> Ascii.eqb c "010" = false.
Proof.
  intros H. apply Ascii.eqb_neq. intros ->. discriminate H.
Qed.

Lemma span_letters_app (l r : string) :
  all_letters l = true ->
  match r with EmptyString => True | String c _ => is_letter c = false end ->
  span_letters (l ++ r) = (l, r).
Proof.
  intros Hl Hr. induction l as [|c l IH]; simpl.
  - destruct r as [|c r]; [done|]. simpl. by rewrite Hr.
  - simpl in Hl. apply andb_true_iff in Hl as [Hc Hl].
    rewrite Hc, (IH Hl). done.
Qed.

Lemma strip_final_newline_digits (s : string) :
  all_digits s = true -> strip_final_newline s = s.
Proof.
  induction s as [|c s IH]; [done|]. intros H. simpl in H.
  apply andb_true_iff in H as [Hc Hs]. simpl.
  destruct s as [|d s]; [by rewrite (digit_not_newline c Hc)|].
  by rewrite (IH Hs).
Qed.

Lemma string_of_uint_digits (d : uint) :
  all_digits (NilEmpty.string_of_uint d) = true.
Proof. induction d; simpl; auto. Qed.

Lemma string_of_uint_nonempty (d : uint) :
  d <> Nil -> NilEmpty.string_of_uint d <> EmptyString.
Proof. destruct d; simpl; congruence. Qed.

(** The decimal text of a positive integer is a non-empty digit string
    whose value is that integer. *)
Lemma str_int_pos (n : Z) :
  0 < n ->
  all_digits (str_int n) = true /\ str_int n <> EmptyString
  /\ exists d, NilEmpty.uint_of_string (str_int n) = Some d /\ Z.of_uint d = n.
Proof.
  intros Hn. destruct n as [|p|p]; try lia.
  unfold str_int. simpl.
  assert (Hnil : Pos.to_uint p <> Nil).
  { intros E. pose proof (DecimalPos.Unsigned.of_to p) as H. rewrite E in H. discriminate H. }
  assert (Hs : NilZero.string_of_uint (Pos.to_uint p) = NilEmpty.string_of_uint (Pos.to_uint p)).
  { unfold NilZero.string_of_uint. destruct (Pos.to_uint p); congruence. }
  rewrite Hs. split; [apply string_of_uint_digits|]. split; [by apply string_of_uint_nonempty|].
  exists (Pos.to_uint p). split; [apply NilEmpty.usu|].
  unfold Z.of_uint. by rewrite DecimalPos.Unsigned.of_to.
Qed.

(** [int] reads the text of a positive integer back when the text is within
    the digit limit. *)
Lemma int_str_str_int (n : Z) :
  0 < n -> Z.of_nat (String.length (str_int n)) <= max_str_digits ->
  int_str (str_int n) = Ok n.
Proof.
  intros Hn Hlen. destruct (str_int_pos n Hn) as (_ & _ & d & Hd & <-).
  unfold int_str. destruct (Z.ltb_spec max_str_digits (Z.of_nat (String.length (str_int (Z.of_uint d)))));
    [lia|]. by rewrite Hd.
Qed.

Lemma files_round_trip_below_first_bad :
  forallb file_round_trips (map Z.of_nat (seq 0 (Z.to_nat first_bad_file))) = true.
Proof. vm_compute. reflexivity. Qed.

Lemma file_round_trips_small (f : Z) :
  0 <= f < first_bad_file -> file_round_trips f = true.
Proof.
  intros Hf. pose proof files_round_trip_below_first_bad as H.
  rewrite forallb_forall in H. apply H.
  apply in_map_iff. exists (Z.to_nat f). split; [lia|].
  apply in_seq. lia.
Qed.

(** Parsing the text of a position whose file word round-trips and whose
    rank text is within the digit limit. *)
Lemma from_str_to_str (f r : Z) :
  file_round_trips f = true -> 0 <= r ->
  Z.of_nat (String.length (str_int (r + 1))) <= max_str_digits ->
  from_str (to_str (f, r)) = Ok (f, r).
Proof.
  intros Hf Hr Hlen. unfold file_round_trips in Hf.
  apply andb_true_iff in Hf as [Hf Hparse]. apply andb_true_iff in Hf as [Hne Hlet].
  destruct (str_int_pos (r + 1)) as (Hdig & Hnonempty & _); [lia|].
  pose proof (int_str_str_int (r + 1) ltac:(lia) Hlen) as Hint.
  unfold from_str, to_str, location_regex, rank_from_int_to_str. simpl file. simpl rank.
  rewrite span_letters_app; [|done|].
  2:{ destruct (str_int (r + 1)) as [|c s] eqn:E; [done|].
      simpl in Hdig. apply andb_true_iff in Hdig as [Hc _]. by apply digit_not_letter. }
  rewrite strip_final_newline_digits by done.
  destruct (file_from_int_to_str f) as [|c s] eqn:Ef; [discriminate Hne|].
  destruct (str_int (r + 1)) as [|d s'] eqn:Er; [done|].
  rewrite Hdig. unfold rank_from_str_to_int. rewrite Hint. cbn [rbind].
  destruct (file_from_str_to_int (String c s)) as [g|e]; [|discriminate Hparse].
  cbn [rbind]. apply Z.eqb_eq in Hparse. subst g. f_equal. f_equal. lia.
Qed.

(** Below file 1352 the slip of the parser is not felt: the text of a
    position parses back to the position, as long as [int] accepts the rank
    text. *)
Lemma position_text_round_trip_small (f r : Z) :
  0 <= f < first_bad_file -> 0 <= r ->
  Z.of_nat (String.length (str_int (r + 1))) <= max_str_digits ->
  from_str (to_str (f, r)) = Ok (f, r).
Proof.
  intros Hf Hr Hlen. apply from_str_to_str; [|done..]. by apply file_round_trips_small.
Qed.

(** C9: the code at the failing input.  File 1352 = 2 * 26 ** 2 is written
    "caa".  For the leading letter the parser adds [(2 * 26) ** 2] where base
    26 has [2 * 26 ** 2], so it reads "caa" as 2704, and the text of the
    position (1352, 0) parses as (2704, 0): conversion to text and back is
    not the identity on the positions with non-negative file and rank. *)
Theorem C9_position_text_round_trip_fails :
  to_str (1352, 0) = "caa1"%string
  /\ file_from_str_to_int "caa" = Ok ((2 * 26) ^ 2)
  /\ from_str "caa1" = Ok (2704, 0)
  /\ ~ (forall f r : Z, 0 <= f -> 0 <= r -> from_str (to_str (f, r)) = Ok (f, r)).
Proof.
  split; [by vm_compute|]. split; [by vm_compute|]. split; [by vm_compute|].
  intros H. specialize (H 1352 0 ltac:(lia) ltac:(lia)).
  vm_compute in H. discriminate H.
Qed.

(** The letters of the file: 26 is written "ba", and "aa" reads as 0. *)
Example file_26_is_ba :
  file_from_int_to_str 25 = "z"%string /\ file_from_int_to_str 26 = "ba"%string
  /\ file_from_str_to_int "aa" = Ok 0.
Proof. by vm_compute. Qed.

(** 1352 is the least file the slip affects: every file below it parses
    back from its letters, and 1352 does not. *)
Example first_bad_file_is_least :
  forallb file_round_trips (map Z.of_nat (seq 0 (Z.to_nat first_bad_file))) = true
  /\ file_round_trips first_bad_file = false.
Proof. split; [apply files_round_trip_below_first_bad|by vm_compute]. Qed.

End PositionText.

(* ===================================================================== *)
(** ** Reasoning about the monad *)
(* ===================================================================== *)

Section Preserves.

Context (R : Normal.t -> Normal.t -> Prop) `{!PreOrder R}.

Lemma preserves_ret {A : Type} (a : A) : preserves R (ret a).
Proof. intros s. simpl. reflexivity. Qed.

Lemma preserves_raise {A : Type} (e : Error) : preserves R (raise (A := A) e).
Proof. intros s. simpl. reflexivity. Qed.

Lemma preserves_gets {A : Type} (f : Normal.t -> A) : preserves R (gets f).
Proof. intros s. simpl. reflexivity. Qed.

Lemma preserves_reads {A : Type} (f : Normal.t -> Result A) : preserves R (reads f).
Proof. intros s. simpl. reflexivity. Qed.

Lemma preserves_modify (f : Normal.t -> Normal.t) :
  (forall s, R s (f s)) -> preserves R (modify f).
Proof. intros Hf s. apply Hf. Qed.

Lemma preserves_bind {A B : Type} (c : M A) (k : A -> M B) :
  preserves R c -> (forall a, preserves R (k a)) -> preserves R (bind c k).
Proof.
  intros Hc Hk s. unfold bind. specialize (Hc s).
  destruct (c s) as [[a|e] s1]; simpl in *; [|done].
  etrans; [exact Hc|apply Hk].
Qed.

Lemma readonly_preserves {A : Type} (c : M A) : readonly c -> preserves R c.
Proof. intros Hc s. rewrite <- (Hc s). reflexivity. Qed.

End Preserves.

Create HintDb preserves.

(** Peel one construct off a [preserves] goal: a block already dealt with,
    a primitive, a bind or a case distinction. *)
Ltac preserves_step :=
  first
    [ solve [auto 2 with preserves]
    | apply preserves_ret; apply _ | apply preserves_raise; apply _
    | apply preserves_gets; apply _ | apply preserves_reads; apply _
    | apply preserves_bind; [apply _| |intros ?]
    | lazymatch goal with
      | |- preserves _ (if ?b then _ else _) => destruct b
      | |- preserves _ (match ?x with Some _ => _ | None => _ end) => destruct x
      | |- preserves _ (match ?x with [] => _ | _ :: _ => _ end) => destruct x
      | |- preserves _ (match ?x with (_, _) => _ end) => destruct x
      end ].

Ltac preserves_steps := repeat preserves_step.

Section ReadOnly.

Context (R : Normal.t -> Normal.t -> Prop) `{!PreOrder R}.

Lemma assert_move_preserves (m : StandardMove) : preserves R (assert_move m).
Proof. unfold assert_move. preserves_steps. Qed.

Lemma try_assert_move_preserves (m : StandardMove) : preserves R (try_assert_move m).
Proof.
  intros s. unfold try_assert_move. pose proof (assert_move_preserves m s) as H.
  destruct (assert_move m s) as [[[]|e] s']; simpl in *; [done|].
  by destruct (except_NotAValidMove e).
Qed.

#[local] Hint Resolve try_assert_move_preserves : preserves.

Lemma first_valid_preserves (pos : Position) (dests : list Position) :
  preserves R (first_valid pos dests).
Proof. induction dests as [|d dests IH]; simpl; preserves_steps. Qed.

#[local] Hint Resolve first_valid_preserves : preserves.

Lemma can_move_from_preserves (ps : list (Position * Piece)) :
  preserves R (can_move_from ps).
Proof. induction ps as [|[pos pc] ps IH]; simpl; preserves_steps. Qed.

#[local] Hint Resolve can_move_from_preserves : preserves.

Lemma can_i_make_a_move_preserves : preserves R can_i_make_a_move.
Proof. unfold can_i_make_a_move. preserves_steps. Qed.

#[local] Hint Resolve can_i_make_a_move_preserves : preserves.

Lemma collect_valid_preserves (pos : Position) (dests : list Position)
    (acc : gset StandardMove) :
  preserves R (collect_valid pos dests acc).
Proof. revert acc. induction dests as [|d dests IH]; intros acc; simpl; preserves_steps. Qed.

#[local] Hint Resolve collect_valid_preserves : preserves.

Lemma collect_from_preserves (sd : Side) (ps : list (Position * Piece))
    (acc : gset StandardMove) :
  preserves R (collect_from sd ps acc).
Proof. revert acc. induction ps as [|[pos pc] ps IH]; intros acc; simpl; preserves_steps. Qed.

#[local] Hint Resolve collect_from_preserves : preserves.

Lemma all_available_moves_preserves (sd : option Side) :
  preserves R (all_available_moves sd).
Proof. unfold all_available_moves. preserves_steps. Qed.

Lemma lone_minor_draw_preserves (pieces : gset Piece) (cs : list (gset Piece)) :
  preserves R (lone_minor_draw pieces cs).
Proof. induction cs as [|c cs IH]; simpl; preserves_steps. Qed.

#[local] Hint Resolve lone_minor_draw_preserves : preserves.

Lemma game_state_rest_preserves : preserves R game_state_rest.
Proof. unfold game_state_rest. preserves_steps. Qed.

#[local] Hint Resolve game_state_rest_preserves : preserves.

Lemma game_state_preserves : preserves R game_state.
Proof. unfold game_state. preserves_steps. Qed.

End ReadOnly.

#[global] Hint Resolve assert_move_preserves try_assert_move_preserves
  first_valid_preserves can_move_from_preserves can_i_make_a_move_preserves
  collect_valid_preserves collect_from_preserves all_available_moves_preserves
  lone_minor_draw_preserves game_state_rest_preserves game_state_preserves
  : preserves.
#[global] Hint Extern 1 (PreOrder _) => apply _ : preserves.

(** *** What a computation returns when it succeeds *)

Lemma bind_ok {A B : Type} (c : M A) (k : A -> M B) (s s' : Normal.t) (b : B) :
  bind c k s = (Ok b, s') ->
  exists a s1, c s = (Ok a, s1) /\ k a s1 = (Ok b, s').
Proof.
  unfold bind. destruct (c s) as [[a|e] s1]; [|discriminate]. eauto.
Qed.

Lemma bind_raise {A B : Type} (c : M A) (k : A -> M B) (s s' : Normal.t) (e : Error) :
  bind c k s = (Raise e, s') ->
  c s = (Raise e, s') \/ exists a s1, c s = (Ok a, s1) /\ k a s1 = (Raise e, s').
Proof.
  unfold bind. destruct (c s) as [[a|e0] s1]; [eauto|]. intros H. injection H as -> ->. by left.
Qed.

Lemma preserves_run {A : Type} (R : Normal.t -> Normal.t -> Prop) (c : M A)
    (s s' : Normal.t) (r : Result A) :
  preserves R c -> c s = (r, s') -> R s s'.
Proof. intros Hc H. specialize (Hc s). by rewrite H in Hc. Qed.

Lemma preserves_weaken {A : Type} (R R' : Normal.t -> Normal.t -> Prop) (c : M A) :
  (forall s s', R s s' -> R' s s') -> preserves R c -> preserves R' c.
Proof. intros HR Hc s. apply HR, Hc. Qed.

(** *** The frame of the relocation *)

#[global] Instance commit_frame_preorder : PreOrder commit_frame.
Proof.
  split.
  - intros s. by repeat split.
  - intros s1 s2 s3 (H1 & H2 & H3 & H4 & H5) (K1 & K2 & K3 & K4 & K5).
    repeat split; try congruence. by etrans.
Qed.

#[global] Instance castling_shrinks_preorder : PreOrder castling_shrinks.
Proof.
  split; unfold castling_shrinks.
  - by intros s.
  - intros s1 s2 s3 ? ?. by etrans.
Qed.

Lemma revoke_subseteq (sd : Side) (k ra rh src dst : Position) (c : gset Piece) :
  revoke sd k ra rh src dst c ⊆ c.
Proof.
  unfold revoke. destruct (bool_decide (k = src)); [by apply subseteq_difference_l|].
  destruct (_ || _); [by apply subseteq_difference_l|].
  destruct (_ || _); [by apply subseteq_difference_l|done].
Qed.

(** The goals left by [modify] for [commit_frame]. *)
Ltac frame_fields :=
  intros; unfold commit_frame; simpl; repeat split; try reflexivity.

Lemma board_remove_piece_frame (p : Position) :
  preserves commit_frame (board_remove_piece p).
Proof. intros s. unfold board_remove_piece. simpl. by frame_fields. Qed.

Lemma board_put_piece_frame (pc : option Piece) (p : Position) :
  preserves commit_frame (board_put_piece pc p).
Proof. intros s. unfold board_put_piece. simpl. by frame_fields. Qed.

#[global] Hint Resolve board_remove_piece_frame board_put_piece_frame : preserves.

Ltac frame_steps :=
  repeat first [ preserves_step | apply preserves_modify; frame_fields ].

Lemma move_pawn_frame (m : StandardMove) (taken : option Piece) :
  preserves commit_frame (move_pawn m taken).
Proof. unfold move_pawn. frame_steps. Qed.

Lemma move_other_frame : preserves commit_frame move_other.
Proof. unfold move_other. frame_steps. Qed.

Lemma move_castling_rook_frame (m : StandardMove) (moved : option Piece) :
  preserves commit_frame (move_castling_rook m moved).
Proof. unfold move_castling_rook. frame_steps. Qed.

Lemma move_capture_frame (taken : option Piece) :
  preserves commit_frame (move_capture taken).
Proof. unfold move_capture. frame_steps. Qed.

Lemma update_castling_info_frame (src dst : Position) :
  preserves commit_frame (update_castling_info src dst).
Proof.
  unfold update_castling_info. apply preserves_modify.
  intros s. destruct (bool_decide (castling s = ∅)); [reflexivity|].
  frame_fields. etrans; apply revoke_subseteq.
Qed.

#[global] Hint Resolve move_pawn_frame move_other_frame move_castling_rook_frame
  move_capture_frame update_castling_info_frame : preserves.

Lemma relocate_frame (m : StandardMove) : preserves commit_frame (relocate m).
Proof. unfold relocate. frame_steps. Qed.

(** What a successful commit has written. *)
Lemma commit_effect (h : Board -> Z) (m : StandardMove) (s s' : Normal.t)
    (taken : option Piece) :
  commit h m s = (Ok taken, s') ->
  board_history s' = board_history s ++ [snapshot s]
  /\ moves_history s' = moves_history s ++ [m]
  /\ half_moves s' = half_moves s + 1
  /\ position_occurence s' = increment (h (board s')) (position_occurence s)
  /\ castling s' ⊆ castling s.
Proof.
  unfold commit. intros H.
  apply bind_ok in H as ([] & s1 & Hsave & H).
  apply bind_ok in H as (tk & s2 & Hrel & H).
  apply (preserves_run _ _ _ _ _ (relocate_frame m)) in Hrel as (F1 & F2 & F3 & F4 & F5).
  unfold save_history, modify in Hsave. injection Hsave as <-.
  unfold bind, modify, ret in H. injection H as <- <-. simpl in *.
  by rewrite F1, F2, F3, F4.
Qed.

(** The state a successful [move] starts its commit from is the one it was
    called on. *)
Lemma move_ok (h : Board -> Z) (m : StandardMove) (s s' : Normal.t)
    (taken : option Piece) :
  move h m s = (Ok taken, s') ->
  assert_move m s = (Ok tt, s) /\ commit h m s = (Ok taken, s').
Proof.
  unfold move. intros H.
  apply bind_ok in H as ([] & s1 & Ha & H).
  pose proof (preserves_run eq _ _ _ _ (assert_move_preserves eq m) Ha) as <-.
  split; [done|].
  apply bind_ok in H as (moved & s2 & Hg & H). injection Hg as <- <-.
  destruct (StandardBoard.get_piece (board s) (source m)) as [mp|]; [|discriminate].
  apply bind_ok in H as (on & s3 & Hon & H). injection Hon as <- <-.
  by case_bool_decide.
Qed.

(* ===================================================================== *)
(** ** Validation is separate from mutation *)
(* ===================================================================== *)

Section Raises.

Context (P : Error -> Prop).

Lemma raises_only_ret {A : Type} (a : A) : raises_only P (ret a).
Proof. intros s e s' H. discriminate H. Qed.

Lemma raises_only_gets {A : Type} (f : Normal.t -> A) : raises_only P (gets f).
Proof. intros s e s' H. discriminate H. Qed.

Lemma raises_only_modify (f : Normal.t -> Normal.t) : raises_only P (modify f).
Proof. intros s e s' H. discriminate H. Qed.

Lemma raises_only_raise {A : Type} (e : Error) : P e -> raises_only P (raise (A := A) e).
Proof. intros He s e' s' H. injection H as <- _. exact He. Qed.

Lemma raises_only_bind {A B : Type} (c : M A) (k : A -> M B) :
  raises_only P c -> (forall a, raises_only P (k a)) -> raises_only P (bind c k).
Proof.
  intros Hc Hk s e s' H. apply bind_raise in H as [H|(a & s1 & _ & H)].
  - by eapply Hc.
  - by eapply Hk.
Qed.

Lemma raises_only_board_remove_piece (p : Position) :
  raises_only P (board_remove_piece p).
Proof. intros s e s' H. discriminate H. Qed.

Lemma raises_only_board_put_piece (pc : option Piece) (p : Position) :
  raises_only P (board_put_piece pc p).
Proof. intros s e s' H. discriminate H. Qed.

End Raises.

Ltac raises_steps :=
  repeat first
    [ apply raises_only_ret | apply raises_only_gets | apply raises_only_modify
    | apply raises_only_board_remove_piece | apply raises_only_board_put_piece
    | apply raises_only_raise; reflexivity
    | apply raises_only_bind; [|intros ?]
    | lazymatch goal with
      | |- raises_only _ (if ?b then _ else _) => destruct b
      | |- raises_only _ (match ?x with Some _ => _ | None => _ end) => destruct x
      end ].

(** Once the move is accepted, the only exception left in the code is the
    call of a missing promotion class. *)
Lemma commit_raises_only_TypeError (h : Board -> Z) (m : StandardMove) :
  raises_only (fun e => e = TypeError) (commit h m).
Proof.
  unfold commit, relocate, save_history, move_pawn, move_other, move_castling_rook,
    move_capture, update_castling_info.
  raises_steps.
Qed.

Section Commits.

Variable board_hash : Board -> Z.

(** C6: a move rejected with a validation error leaves the instance exactly
    as it was (board, counters, en-passant square, castling rights,
    repetition table, pockets, both histories), and [assert_move] never
    writes to the instance, whether it accepts or rejects. *)
Theorem C6_rejection_leaves_state (m : StandardMove) (s : Normal.t) :
  snd (assert_move m s) = s
  /\ forall (e : Error) (s' : Normal.t),
       move board_hash m s = (Raise e, s') -> validation_error e = true -> s' = s.
Proof.
  split; [symmetry; apply (assert_move_preserves eq)|].
  intros e s' H He. unfold move in H.
  apply bind_raise in H as [H|([] & s1 & Ha & H)].
  - symmetry. eapply (preserves_run eq); [apply (assert_move_preserves eq)|exact H].
  - pose proof (preserves_run eq _ _ _ _ (assert_move_preserves eq m) Ha) as <-.
    apply bind_raise in H as [H|(moved & s2 & Hg & H)]; [discriminate H|].
    injection Hg as <- <-.
    destruct (StandardBoard.get_piece (board s) (source m)) as [mp|].
    + apply bind_raise in H as [H|(on & s3 & Hon & H)]; [discriminate H|].
      injection Hon as <- <-.
      destruct (bool_decide (side mp ≠ on_move s)).
      * by injection H as _ <-.
      * apply commit_raises_only_TypeError in H. subst e. discriminate He.
    + by injection H as _ <-.
Qed.

(** One call of [move] cannot add a castling right, whatever it returns. *)
Lemma move_castling_shrinks (m : StandardMove) :
  preserves castling_shrinks (move board_hash m).
Proof.
  unfold move, commit, save_history.
  repeat first
    [ apply (preserves_weaken commit_frame);
        [by intros ? ? (_ & _ & _ & _ & ?)|apply relocate_frame]
    | apply preserves_modify; intros; unfold castling_shrinks; simpl; reflexivity
    | preserves_step ].
Qed.

Lemma play_castling_shrinks (mvs : list StandardMove) (s : Normal.t) :
  castling (play board_hash mvs s) ⊆ castling s.
Proof.
  revert s. induction mvs as [|m mvs IH]; intros s; simpl; [done|].
  etrans; [apply IH|]. apply move_castling_shrinks.
Qed.

(** C7: along any sequence of calls to [move] the castling-rights set never
    gains an entry: every right (side and rook side) held after more moves of
    the sequence was already held after fewer. *)
Theorem C7_castling_rights_only_shrink (played more : list StandardMove) (s : Normal.t) :
  castling (play board_hash (played ++ more) s) ⊆ castling (play board_hash played s).
Proof. unfold play. rewrite fold_left_app. apply play_castling_shrinks. Qed.

End Commits.

(* ===================================================================== *)
(** ** History: snapshots and rollback *)
(* ===================================================================== *)

Lemma set_histories_same (s : Normal.t) :
  set_board_history (board_history s) (set_moves_history (moves_history s) s) = s.
Proof. by destruct s. Qed.

Lemma pop_snoc {A : Type} (get : Normal.t -> list A) (set : list A -> Normal.t -> Normal.t)
    (s : Normal.t) (l : list A) (x : A) :
  get s = l ++ [x] -> pop get set s = (Ok tt, set l s).
Proof.
  intros E. unfold pop. rewrite E.
  destruct (l ++ [x]) as [|y l'] eqn:El; [by destruct l|].
  by rewrite <- El, removelast_last.
Qed.

Lemma removelast_take {A : Type} (l : list A) :
  removelast l = take (length l - 1) l.
Proof. rewrite removelast_firstn_len. f_equal. lia. Qed.

Lemma pop_ok {A : Type} (get : Normal.t -> list A) (set : list A -> Normal.t -> Normal.t)
    (s s' : Normal.t) :
  pop get set s = (Ok tt, s') ->
  (1 <= length (get s))%nat /\ s' = set (take (length (get s) - 1) (get s)) s.
Proof.
  unfold pop. rewrite removelast_take.
  destruct (get s) as [|x l] eqn:E; [discriminate|].
  intros H. injection H as <-. split; [simpl; lia|done].
Qed.

(** A successful run of the popping loop has truncated both histories by
    [n] entries and touched nothing else. *)
Lemma pop_histories_ok (n : nat) (s s' : Normal.t) :
  pop_histories n s = (Ok tt, s') ->
  (n <= length (moves_history s))%nat
  /\ (n <= length (board_history s))%nat
  /\ s' = set_board_history (take (length (board_history s) - n) (board_history s))
            (set_moves_history (take (length (moves_history s) - n) (moves_history s)) s).
Proof.
  revert s. induction n as [|n IH]; intros s H.
  - injection H as <-. rewrite !Nat.sub_0_r, !firstn_all.
    repeat split; [lia..|]. by rewrite set_histories_same.
  - simpl in H.
    apply bind_ok in H as ([] & s1 & H1 & H). apply pop_ok in H1 as [L1 ->].
    apply bind_ok in H as ([] & s2 & H2 & H). apply pop_ok in H2 as [L2 ->].
    apply IH in H as (L3 & L4 & ->). clear IH. simpl in *.
    rewrite length_take in L3. rewrite length_take in L4. repeat split; [lia..|].
    rewrite !length_take, !take_take. destruct s; simpl in *.
    unfold set_board_history, set_moves_history; simpl.
    f_equal; f_equal; lia.
Qed.

Lemma py_index_ok {A : Type} (l : list A) (i : Z) (a : A) :
  py_index l i = Ok a ->
  exists j : nat,
    l !! j = Some a
    /\ Z.of_nat j = (if i <? 0 then Z.of_nat (length l) + i else i).
Proof.
  unfold py_index. set (j := if i <? 0 then _ else _).
  destruct (Z.leb_spec 0 j) as [Hj|]; [|discriminate]. simpl.
  destruct (j <? Z.of_nat (length l)); [|discriminate].
  destruct (l !! Z.to_nat j) as [b|] eqn:E; [|discriminate].
  intros H. injection H as ->. exists (Z.to_nat j). split; [done|lia].
Qed.

(** What a successful [load_history] leaves: the snapshot taken [offset]
    plies ago, with both histories cut back to that point. *)
Lemma load_history_ok (offset : Z) (s s' : Normal.t) :
  history_consistent s ->
  load_history offset s = (Ok tt, s') ->
  exists (n : nat) (snap : Snapshot),
    Z.of_nat n = offset /\ (1 <= n <= length (board_history s))%nat
    /\ board_history s !! (length (board_history s) - n)%nat = Some snap
    /\ s' = set_board_history (take (length (board_history s) - n) (board_history s))
              (set_moves_history (take (length (moves_history s) - n) (moves_history s))
                 (restore snap s)).
Proof.
  intros [Hhm _] H. unfold load_history in H.
  apply bind_ok in H as (index & s1 & Hi & H). injection Hi as <- <-.
  apply bind_ok in H as (snap & s1 & Hs & H).
  assert (s1 = s) as -> by (unfold reads in Hs; congruence).
  assert (Hpy : py_index (board_history s) (half_moves s - offset - 1) = Ok snap)
    by (unfold reads in Hs; congruence).
  clear Hs. apply py_index_ok in Hpy as (j & Hj & Hij).
  apply bind_ok in H as ([] & s2 & Hm & H). injection Hm as <-.
  apply pop_histories_ok in H as (L1 & L2 & ->). simpl in L1, L2.
  pose proof (lookup_lt_Some _ _ _ Hj) as Hlt.
  assert (Hoff : 0 < offset <= Z.of_nat (length (board_history s))).
  { destruct (Z.ltb_spec (half_moves s - offset - 1) 0); lia. }
  exists (Z.to_nat offset), snap. split; [lia|]. split; [lia|]. split; [|done].
  rewrite <- Hj. f_equal.
  destruct (Z.ltb_spec (half_moves s - offset - 1) 0); lia.
Qed.

Section Rollback.

Variable board_hash : Board -> Z.

Lemma new_consistent (init : bool) : history_consistent (new init).
Proof. split; [done|]. intros i snap H. by destruct i. Qed.

Lemma move_consistent (m : StandardMove) (s s' : Normal.t) (taken : option Piece) :
  history_consistent s -> move board_hash m s = (Ok taken, s') -> history_consistent s'.
Proof.
  intros [Hhm Hsn] H. apply move_ok in H as [_ H].
  apply commit_effect in H as (Hb & _ & Hh & _). split.
  - rewrite Hh, Hb, length_app. simpl. lia.
  - intros i snap. rewrite Hb. intros Hi.
    apply lookup_app_Some in Hi as [Hi|[Hlen Hi]]; [by apply Hsn|].
    apply list_lookup_singleton_Some in Hi as [Hi <-]. simpl. lia.
Qed.

Lemma load_history_consistent (offset : Z) (s s' : Normal.t) :
  history_consistent s -> load_history offset s = (Ok tt, s') -> history_consistent s'.
Proof.
  intros Hs H. pose proof Hs as [Hhm Hsn].
  apply (load_history_ok _ _ _ Hs) in H as (n & snap & <- & Hn & Hlk & ->).
  split; simpl.
  - rewrite length_take, (Hsn _ _ Hlk). lia.
  - intros i sn Hi. apply lookup_take_Some in Hi as [Hi _]. by apply Hsn.
Qed.

(** Every state of a game keeps the snapshot stack in step with the
    half-move counter. *)
Lemma reachable_consistent (s : Normal.t) :
  reachable board_hash s -> history_consistent s.
Proof.
  induction 1 as [init|s s' m taken _ IH H|s s' offset _ IH H].
  - apply new_consistent.
  - by eapply move_consistent.
  - by eapply load_history_consistent.
Qed.

(** Rolling back the move just committed restores every snapshotted field
    and both histories; only the pockets keep what the move put there. *)
Lemma move_then_load_history (m : StandardMove) (s s' : Normal.t) (taken : option Piece) :
  history_consistent s ->
  move board_hash m s = (Ok taken, s') ->
  load_history 1 s' = (Ok tt, set_pocket (pocket s') s).
Proof.
  intros [Hhm _] H. apply move_ok in H as [_ H].
  apply commit_effect in H as (Hb & Hm & Hh & _).
  unfold load_history, bind, gets, reads. simpl.
  assert (Hidx : py_index (board_history s') (half_moves s' - 1 - 1) = Ok (snapshot s)).
  { unfold py_index. rewrite Hh, Hb, length_app. simpl.
    destruct (Z.ltb_spec (half_moves s + 1 - 1 - 1) 0); [lia|].
    destruct (Z.leb_spec 0 (half_moves s + 1 - 1 - 1)); [|lia].
    destruct (Z.ltb_spec (half_moves s + 1 - 1 - 1)
                (Z.of_nat (length (board_history s) + 1))); [|lia].
    simpl. replace (Z.to_nat (half_moves s + 1 - 1 - 1)) with (length (board_history s)) by lia.
    by rewrite list_lookup_middle. }
  rewrite Hidx. unfold modify. simpl. unfold bind.
  rewrite (pop_snoc moves_history set_moves_history _ (moves_history s) m) by done.
  rewrite (pop_snoc board_history set_board_history _ (board_history s) (snapshot s)) by done.
  reflexivity.
Qed.

(** C5: from any state of a game, committing a legal move and then rolling
    back one ply ([load_history] with offset 1) succeeds and leaves a state
    whose state string is the one before the move. *)
Theorem C5_move_then_rollback_restores_state_string
    (m : StandardMove) (s s' : Normal.t) (taken : option Piece) :
  reachable board_hash s ->
  move board_hash m s = (Ok taken, s') ->
  exists s'', load_history 1 s' = (Ok tt, s'') /\ str s'' = str s.
Proof.
  intros Hs H. exists (set_pocket (pocket s') s). split; [|done].
  eapply move_then_load_history; [|exact H]. by apply reachable_consistent.
Qed.

(** The key recorded by a committed move is the hash of the board the move
    leaves, whatever the other components of the state are. *)
Lemma move_records_board_hash (m : StandardMove) (s s' : Normal.t) (taken : option Piece) :
  move board_hash m s = (Ok taken, s') ->
  position_occurence s' = increment (recorded_key board_hash s') (position_occurence s).
Proof.
  intros H. apply move_ok in H as [_ H]. by apply commit_effect in H as (_ & _ & _ & ? & _).
Qed.

End Rollback.

(* ===================================================================== *)
(** ** Unbounded rays *)
(* ===================================================================== *)

Lemma range1_split (n k : nat) :
  range1 (n + S k) = range1 n ++ Z.of_nat (S n) :: map Z.of_nat (seq (S (S n)) k).
Proof. unfold range1. by rewrite seq_app, map_app. Qed.

(** A ray with a direction leaves the 8x8 board at its first step or has
    left it by the ninth. *)
Lemma ray_leaves_board (position : Position) (vector : Z * Z) :
  vector <> (0, 0) ->
  StandardBoard.validate_position (step position vector 1) = false
  \/ StandardBoard.validate_position (step position vector (Z.of_nat (S ray_bound))) = false.
Proof.
  destruct position as [x y], vector as [vx vy]. intros Hv.
  change (Z.of_nat (S ray_bound)) with 9.
  unfold StandardBoard.validate_position, step, StandardBoard.files, StandardBoard.ranks.
  simpl fst. simpl snd.
  destruct (_ && _ && _ && _) eqn:E1; [|by left].
  destruct (_ && _ && _ && (y + vy * 9 <? 8)) eqn:E9; [|by right].
  exfalso. apply Hv.
  repeat match goal with
         | H : _ && _ = true |- _ => apply andb_true_iff in H as [? ?]
         | H : (_ <=? _) = true |- _ => apply Z.leb_le in H
         | H : (_ <? _) = true |- _ => apply Z.ltb_lt in H
         end.
  f_equal; lia.
Qed.

(** A loop that stops at the first square off the board gives, on any
    prefix of [itertools.count(1)] no shorter than [ray_bound], what it gives
    on the prefix of length [ray_bound]. *)
Lemma count_prefix_enough
    (ray : list Z -> gset Position -> gset Position)
    (position : Position) (vector : Z * Z) :
  (forall (l1 l2 : list Z) (d : Z) (acc : gset Position),
      StandardBoard.validate_position (step position vector d) = false ->
      ray (l1 ++ d :: l2) acc = ray l1 acc) ->
  vector <> (0, 0) ->
  forall (n : nat) (acc : gset Position),
    (ray_bound <= n)%nat -> ray (range1 n) acc = ray (range1 ray_bound) acc.
Proof.
  intros Hstop Hv n acc Hn.
  assert (Hrb : ray_bound = 8%nat) by reflexivity.
  destruct (ray_leaves_board position vector Hv) as [H1|H9].
  - assert (Hcut : forall k, ray (range1 (S k)) acc = ray [] acc).
    { intros k. change (S k) with (0 + S k)%nat. rewrite range1_split. by apply Hstop. }
    destruct n as [|k]; [lia|].
    rewrite Hcut. symmetry. apply (Hcut (pred ray_bound)).
  - destruct (decide (n = ray_bound)) as [->|Hne]; [done|].
    replace n with (ray_bound + S (n - S ray_bound))%nat by lia.
    rewrite range1_split. by apply Hstop.
Qed.

Lemma ray_moves_stops (board : Board) (position : Position) (vector : Z * Z)
    (l1 l2 : list Z) (d : Z) (acc : gset Position) :
  StandardBoard.validate_position (step position vector d) = false ->
  ray_moves board position vector (l1 ++ d :: l2) acc
  = ray_moves board position vector l1 acc.
Proof.
  intros H. revert acc. induction l1 as [|d' l1 IH]; intros acc; simpl.
  - by rewrite H.
  - destruct (negb _); [done|]. by destruct (StandardBoard.get_piece _ _).
Qed.

Lemma ray_captures_stops (board : Board) (pc : Piece) (brk : bool)
    (position : Position) (vector : Z * Z)
    (l1 l2 : list Z) (d : Z) (acc : gset Position) :
  StandardBoard.validate_position (step position vector d) = false ->
  ray_captures board pc brk position vector (l1 ++ d :: l2) acc
  = ray_captures board pc brk position vector l1 acc.
Proof.
  intros H. revert acc. induction l1 as [|d' l1 IH]; intros acc; simpl.
  - by rewrite H.
  - destruct (negb _); [done|].
    destruct (StandardBoard.get_piece _ _); [|done].
    destruct (bool_decide _); [|done]. by destruct brk.
Qed.

Lemma ray_attacked_stops (board : Board) (pc : Piece)
    (position : Position) (vector : Z * Z)
    (l1 l2 : list Z) (d : Z) (acc : gset Position) :
  StandardBoard.validate_position (step position vector d) = false ->
  ray_attacked board pc position vector (l1 ++ d :: l2) acc
  = ray_attacked board pc position vector l1 acc.
Proof.
  intros H. revert acc. induction l1 as [|d' l1 IH]; intros acc; simpl.
  - by rewrite H.
  - destruct (negb _); [done|]. by destruct (StandardBoard.get_piece _ _).
Qed.

(** The cut of the unbounded loops at [ray_bound] steps loses nothing. *)
Lemma ray_moves_count (board : Board) (position : Position) (vector : Z * Z)
    (n : nat) (acc : gset Position) :
  vector <> (0, 0) -> (ray_bound <= n)%nat ->
  ray_moves board position vector (range1 n) acc
  = ray_moves board position vector (loop None) acc.
Proof.
  intros Hv Hn.
  apply (count_prefix_enough (ray_moves board position vector) position vector);
    [intros; by apply ray_moves_stops|done..].
Qed.

Lemma ray_captures_count (board : Board) (pc : Piece) (brk : bool)
    (position : Position) (vector : Z * Z) (n : nat) (acc : gset Position) :
  vector <> (0, 0) -> (ray_bound <= n)%nat ->
  ray_captures board pc brk position vector (range1 n) acc
  = ray_captures board pc brk position vector (loop None) acc.
Proof.
  intros Hv Hn.
  apply (count_prefix_enough (ray_captures board pc brk position vector) position vector);
    [intros; by apply ray_captures_stops|done..].
Qed.

Lemma ray_attacked_count (board : Board) (pc : Piece)
    (position : Position) (vector : Z * Z) (n : nat) (acc : gset Position) :
  vector <> (0, 0) -> (ray_bound <= n)%nat ->
  ray_attacked board pc position vector (range1 n) acc
  = ray_attacked board pc position vector (loop None) acc.
Proof.
  intros Hv Hn.
  apply (count_prefix_enough (ray_attacked board pc position vector) position vector);
    [intros; by apply ray_attacked_stops|done..].
Qed.

(** No descriptor of the catalogue has the null vector, and none of its
    transforms is null. *)
Lemma catalogue_vectors_not_null (k : Kind) (sd : Side) (d : Movement.MoveDescription)
    (v : Z * Z) :
  d ∈ Movement.move (Movement.movement k) ++ Movement.capture (Movement.movement k) ->
  v ∈ transform_vector (Movement.vector d) (Movement.any_direction d) sd ->
  v <> (0, 0).
Proof.
  intros Hd Hv ->. revert Hv.
  destruct k, sd; simpl in Hd;
    repeat (apply elem_of_cons in Hd as [->|Hd]);
    try (by apply elem_of_nil in Hd);
    intros Hv; apply (bool_decide_pack _) in Hv; by vm_compute in Hv.
Qed.

(* ===================================================================== *)
(** ** Generators on an empty square *)
(* ===================================================================== *)

(** C10: on a square without a piece, each of [standard_moves],
    [standard_captures], [special_moves] and [attacked_fields] raises
    [NoPiece] (on the board passed, or on the instance's board when none
    is). *)
Theorem C10_generators_raise_NoPiece
    (s : Normal.t) (position : Position) (brd : option Board) :
  StandardBoard.get_piece (default (board s) brd) position = None ->
  standard_moves s position brd = Raise NoPiece
  /\ standard_captures s position brd = Raise NoPiece
  /\ special_moves s position brd = Raise NoPiece
  /\ attacked_fields s position brd = Raise NoPiece.
Proof.
  intros H. unfold standard_moves, standard_captures, special_moves, attacked_fields.
  by rewrite H.
Qed.

Lemma C10_generators_raise_NoPiece_witness :
  standard_moves (new true) (4, 3) None = Raise NoPiece
  /\ standard_captures (new true) (4, 3) None = Raise NoPiece
  /\ special_moves (new true) (4, 3) None = Raise NoPiece
  /\ attacked_fields (new true) (4, 3) None = Raise NoPiece.
Proof. apply C10_generators_raise_NoPiece. vm_compute. reflexivity. Defined.

(* ===================================================================== *)
(** ** The initial position *)
(* ===================================================================== *)

(** C8: in the instance created with the standard initial layout,
    [all_available_moves] returns exactly 20 moves for White, both by default
    (White is on move) and when White is named. *)
Theorem C8_initial_position_has_twenty_moves :
  on_move (new true) = White
  /\ (l <-? fst (all_available_moves None (new true)) ;; Ok (length l)) = Ok 20%nat
  /\ (l <-? fst (all_available_moves (Some White) (new true)) ;; Ok (length l)) = Ok 20%nat.
Proof. by vm_compute. Qed.

(** The layout [init_board_state] sets up, as its state string. *)
Example initial_state_string :
  str (new true) = "rnbqkbnr/pppppppp/8/8/8/8/PPPPPPPP/RNBQKBNR w KQkq - 0 1"%string.
Proof. by vm_compute. Qed.

Example home_squares :
  StandardPosition.from_str "e1" = Ok e1 /\ StandardPosition.from_str "a1" = Ok a1
  /\ StandardPosition.from_str "h1" = Ok h1 /\ StandardPosition.from_str "e8" = Ok e8
  /\ StandardPosition.from_str "a8" = Ok a8 /\ StandardPosition.from_str "h8" = Ok h8.
Proof. by vm_compute. Qed.

(* ===================================================================== *)
(** ** Castling *)
(* ===================================================================== *)

(** What the code does guarantee about the king-side castling square: a king
    gets it only on file e, with the right of the side on move held, the two
    squares towards the rook empty and neither of them attacked by the other
    side on the instance's board. *)
Lemma special_moves_king_side
    (s : Normal.t) (position : Position) (brd : option Board)
    (pc : Piece) (dests : gset Position) :
  StandardBoard.get_piece (default (board s) brd) position = Some pc ->
  kind pc = King ->
  special_moves s position brd = Ok dests ->
  (StandardPosition.file position + 2, StandardPosition.rank position) ∈ dests ->
  StandardPosition.file position = 4
  /\ piece King (on_move s) ∈ castling s
  /\ vacant (default (board s) brd)
       (StandardPosition.file position + 1, StandardPosition.rank position) = true
  /\ vacant (default (board s) brd)
       (StandardPosition.file position + 2, StandardPosition.rank position) = true
  /\ exists attacked,
       attacked_fields_by_sides s (other_sides (on_move s)) None = Ok attacked
       /\ ((StandardPosition.file position + 1, StandardPosition.rank position) ∉ attacked)
       /\ ((StandardPosition.file position + 2, StandardPosition.rank position) ∉ attacked).
Proof.
  intros Hpc Hk Hsp Hin. unfold special_moves in Hsp. rewrite Hpc, Hk in Hsp.
  rewrite bool_decide_eq_false_2 in Hsp by discriminate.
  rewrite bool_decide_eq_true_2 in Hsp by done. simpl in Hsp.
  destruct (bool_decide (castling s = ∅)); simpl in Hsp;
    [injection Hsp as <-; set_solver|].
  destruct (Z.eqb_spec (StandardPosition.file position) 4) as [Hf|];
    [|injection Hsp as <-; set_solver].
  destruct (attacked_fields_by_sides s (other_sides (on_move s)) None)
    as [attacked|] eqn:Ha; [|discriminate]. simpl in Hsp. injection Hsp as <-.
  apply elem_of_union in Hin as [Hin|Hin].
  - case_bool_decide as Hright; [|set_solver].
    destruct (vacant _ _) eqn:V1; [|set_solver].
    destruct (vacant _ (_ + 2, _)) eqn:V2; [|set_solver].
    simpl in Hin. case_bool_decide as Hatt; [|set_solver].
    repeat split; try done. exists attacked. set_solver.
  - exfalso. case_bool_decide; [|set_solver].
    destruct (_ && _); [|set_solver].
    apply elem_of_singleton in Hin. injection Hin as Hin. lia.
Qed.

(** C1: the code at the failing input.  White is to move with the king on e1
    in check from the rook on e8; f1 and g1 are empty and not attacked, so
    [special_moves] offers g1 and [assert_move] accepts e1g1. *)
Theorem C1_castling_out_of_check :
  on_move checked_king = White
  /\ (a <-? attacked_fields_by_sides checked_king (other_sides White) None ;;
      Ok (bool_decide ((4, 0) ∈ a), bool_decide ((5, 0) ∈ a), bool_decide ((6, 0) ∈ a)))
     = Ok (true, false, false)
  /\ (d <-? special_moves checked_king (4, 0) None ;; Ok (bool_decide ((6, 0) ∈ d)))
     = Ok true
  /\ fst (assert_move (mv (4, 0) (6, 0)) checked_king) = Ok tt
  /\ str (snd (move fen_hash (mv (4, 0) (6, 0)) checked_king))
     = "k3r3/8/8/8/8/8/8/5RK1 b kq - 1 1"%string.
Proof. by vm_compute. Qed.

(* ===================================================================== *)
(** ** Game state *)
(* ===================================================================== *)

(** Running a read-only computation first does not change what the next one
    sees. *)
Lemma fst_bind_readonly {A B : Type} (c : M A) (k : A -> M B) (s : Normal.t) :
  readonly c ->
  fst (bind c k s) = (a <-? fst (c s) ;; fst (k a s)).
Proof.
  intros Hc. unfold bind. specialize (Hc s).
  destruct (c s) as [[a|e] s1]; simpl in *; by subst.
Qed.

(** With both sub-counters at 50 the later tests of [game_state] are not
    reached. *)
Lemma game_state_rest_fifty (s : Normal.t) :
  50 <= half_moves_since_pawn_moved s ->
  50 <= half_moves_since_capture s ->
  game_state_rest s = (Ok fifty_move_rule, s).
Proof.
  intros Hp Hc. unfold game_state_rest, bind, gets.
  destruct (Z.leb_spec 50 (half_moves_since_pawn_moved s)); [|lia].
  destruct (Z.leb_spec 50 (half_moves_since_capture s)); [|lia]. done.
Qed.

(** C2: the code at the failing input.  After fifty plies of knight moves
    from the initial position (no pawn move, no capture) both sub-counters
    stand at 50 half-moves, half the threshold of the fifty-move rule, and
    [game_state] already reports the draw. *)
Theorem C2_fifty_move_rule_after_fifty_plies (board_hash : Board -> Z) :
  let s := play board_hash fifty_plies (new true) in
  all_accepted board_hash fifty_plies (new true) = true
  /\ half_moves_since_pawn_moved s = 50
  /\ half_moves_since_capture s = 50
  /\ fst (game_state s) = Ok fifty_move_rule.
Proof. by vm_compute. Qed.

Lemma existsb_occurrence (occ : gmap Z Z) :
  existsb (fun kv => 3 <=? snd kv) (map_to_list occ) = true ->
  exists (k n : Z), occ !! k = Some n /\ 3 <= n.
Proof.
  intros H. apply existsb_exists in H as ([k n] & Hin & Hn).
  exists k, n. split; [|simpl in Hn; lia].
  apply elem_of_map_to_list. by apply list_elem_of_In.
Qed.

Lemma game_state_rest_threefold (s : Normal.t) :
  fst (game_state_rest s) = Ok threefold_repetition ->
  exists (k n : Z), position_occurence s !! k = Some n /\ 3 <= n.
Proof.
  unfold game_state_rest, bind, gets. simpl.
  destruct (_ && _); [discriminate|].
  destruct (existsb _ _) eqn:E; [intros _; by apply existsb_occurrence|].
  destruct (can_i_make_a_move s) as [[[]|e] s1]; simpl; try discriminate.
  destruct (StandardBoard.find_pieces _ _) as [|[kp k] ?]; [discriminate|].
  unfold reads.
  destruct (attacked_fields_by_sides _ _ _); simpl; [|discriminate].
  destruct (bool_decide _); discriminate.
Qed.

(** [game_state] either declares the material insufficient or is decided
    by the tests after the material test. *)
Lemma game_state_cases (s : Normal.t) :
  fst (game_state s) = Ok insufficient_material
  \/ fst (game_state s) = fst (game_state_rest s)
  \/ exists e, fst (game_state s) = Raise e.
Proof.
  unfold game_state. rewrite fst_bind_readonly by (apply preserves_gets; apply _).
  cbn [gets fst rbind]. fold (piece_set s).
  destruct (bool_decide (_ < 4)%nat); [|by right; left].
  destruct (bool_decide (_ = _)); [by left|].
  rewrite fst_bind_readonly by apply (lone_minor_draw_preserves eq).
  destruct (fst (lone_minor_draw _ _ s)) as [[]|e]; cbn [rbind]; eauto.
Qed.

(** The verdict "threefold repetition" is only given when some key of the
    repetition table has been recorded three times. *)
Lemma game_state_threefold (s : Normal.t) :
  fst (game_state s) = Ok threefold_repetition ->
  exists (k n : Z), position_occurence s !! k = Some n /\ 3 <= n.
Proof.
  destruct (game_state_cases s) as [H|[H|[e H]]]; rewrite H; try discriminate.
  apply game_state_rest_threefold.
Qed.

Lemma play_reachable (board_hash : Board -> Z) (mvs : list StandardMove) (s : Normal.t) :
  reachable board_hash s ->
  all_accepted board_hash mvs s = true ->
  reachable board_hash (play board_hash mvs s).
Proof.
  revert s. induction mvs as [|m mvs IH]; intros s Hs H; simpl in *; [done|].
  destruct (move board_hash m s) as [[taken|e] s'] eqn:E; [|discriminate].
  simpl. apply IH; [|done]. by eapply reachable_move.
Qed.

Lemma play_snoc (board_hash : Board -> Z) (mvs : list StandardMove) (m : StandardMove)
    (s : Normal.t) :
  all_accepted board_hash (mvs ++ [m]) s = true ->
  exists taken,
    move board_hash m (play board_hash mvs s)
    = (Ok taken, play board_hash (mvs ++ [m]) s).
Proof.
  revert s. induction mvs as [|m' mvs IH]; intros s H; simpl in *.
  - destruct (move board_hash m s) as [[taken|e] s'] eqn:E; [|discriminate]. by exists taken.
  - destruct (move board_hash m' s) as [[taken|e] s'] eqn:E; [|discriminate]. by apply IH.
Qed.

Lemma all_accepted_app (board_hash : Board -> Z) (l1 l2 : list StandardMove) (s : Normal.t) :
  all_accepted board_hash (l1 ++ l2) s = true -> all_accepted board_hash l1 s = true.
Proof.
  revert s. induction l1 as [|m l1 IH]; intros s H; simpl in *; [done|].
  destruct (move board_hash m s) as [[taken|e] s']; [by apply IH|discriminate].
Qed.

Lemma game_state_rest_fifty_only (s : Normal.t) :
  fst (game_state_rest s) = Ok fifty_move_rule ->
  50 <= half_moves_since_pawn_moved s /\ 50 <= half_moves_since_capture s.
Proof.
  unfold game_state_rest, bind, gets. simpl.
  destruct (Z.leb_spec 50 (half_moves_since_pawn_moved s));
    destruct (Z.leb_spec 50 (half_moves_since_capture s)); simpl; [done|..].
  all: destruct (existsb _ _); [discriminate|].
  all: destruct (can_i_make_a_move s) as [[[]|e] s1]; simpl; try discriminate.
  all: destruct (StandardBoard.find_pieces _ _) as [|[kp k] ?]; [discriminate|].
  all: unfold reads; destruct (attacked_fields_by_sides _ _ _); simpl; [|discriminate].
  all: destruct (bool_decide _); discriminate.
Qed.

(** The verdict "fifty-move rule" is given only with both sub-counters at 50
    half-moves or more. *)
Lemma game_state_fifty_only (s : Normal.t) :
  fst (game_state s) = Ok fifty_move_rule ->
  50 <= half_moves_since_pawn_moved s /\ 50 <= half_moves_since_capture s.
Proof.
  destruct (game_state_cases s) as [H|[H|[e H]]]; rewrite H; try discriminate.
  apply game_state_rest_fifty_only.
Qed.

(** Whatever the board hash, the keys recorded after plies 2 and 6 of the
    ten-ply game are equal although the castling rights differ. *)
Lemma repetition_key_ignores_rights (board_hash : Board -> Z) :
  ~ key_distinguishes board_hash.
Proof.
  intros H.
  set (early := [mv (6, 0) (5, 2)]).
  set (late := knights_out ++ removelast rooks_there_and_back).
  assert (A1 : all_accepted board_hash (early ++ [mv (6, 7) (5, 5)]) (new true) = true)
    by by vm_compute.
  assert (A2 : all_accepted board_hash (late ++ [mv (6, 7) (7, 7)]) (new true) = true)
    by by vm_compute.
  destruct (play_snoc _ _ _ _ A1) as [t1 M1]. destruct (play_snoc _ _ _ _ A2) as [t2 M2].
  refine (H _ _ _ _ _ _ _ _ _ _ M1 M2 _ _).
  - apply play_reachable; [constructor|]. by eapply all_accepted_app.
  - apply play_reachable; [constructor|]. by eapply all_accepted_app.
  - right. right. left. intros E.
    apply (f_equal (fun c => bool_decide (piece King White ∈ c))) in E.
    vm_compute in E. discriminate E.
  - unfold recorded_key. apply (f_equal board_hash).
    apply (bool_decide_unpack _). by vm_compute.
Qed.

(** C3: the code at the failing input.  No board hash makes the recorded key
    tell apart states that differ in castling rights; and in the ten-ply
    game the layout reached after ply 2 with all castling rights comes back
    after plies 6 and 10 without the king-side rights: its key then counts 3
    and [game_state] reports threefold repetition, one ply after reporting
    nothing. *)
Theorem C3_threefold_repetition_counts_layouts :
  (forall board_hash : Board -> Z, ~ key_distinguishes board_hash)
  /\ let game := knights_out ++ rooks_there_and_back ++ knights_home_and_out in
     let first := play fen_hash knights_out (new true) in
     let second := play fen_hash (knights_out ++ rooks_there_and_back) (new true) in
     let third := play fen_hash game (new true) in
     all_accepted fen_hash game (new true) = true
     /\ str first = "rnbqkb1r/pppppppp/5n2/8/8/5N2/PPPPPPPP/RNBQKB1R w KQkq - 2 2"%string
     /\ str second = "rnbqkb1r/pppppppp/5n2/8/8/5N2/PPPPPPPP/RNBQKB1R w Qq - 6 4"%string
     /\ str third = "rnbqkb1r/pppppppp/5n2/8/8/5N2/PPPPPPPP/RNBQKB1R w Qq - 10 6"%string
     /\ position_occurence third !! recorded_key fen_hash third = Some 3
     /\ fst (game_state (play fen_hash (removelast game) (new true))) = Ok (None, None)
     /\ fst (game_state third) = Ok threefold_repetition.
Proof.
  split; [apply repetition_key_ignores_rights|]. by vm_compute.
Qed.

(** *** Insufficient material *)

Lemma lone_minor_piece_set (s : Normal.t) :
  lone_minor_board (board s) ->
  exists (m : Kind) (sd : Side),
    (m = Bishop \/ m = Knight)
    /\ piece_set s = {[piece King White; piece King Black; piece m sd]}.
Proof.
  intros (pw & pb & pm & m & sd & Hm & H1 & H2 & H3 & Hb).
  exists m, sd. split; [done|]. unfold piece_set, StandardBoard.pieces. rewrite Hb.
  rewrite map_to_list_insert
    by (rewrite lookup_insert_ne by done; by rewrite lookup_singleton_ne).
  rewrite map_to_list_insert by by rewrite lookup_singleton_ne.
  rewrite map_to_list_singleton. simpl.
  by rewrite (right_id_L ∅ (∪)), !(assoc_L (∪)).
Qed.

(** With a lone minor piece the chain of material tests returns the draw
    exactly when the side on move has no move. *)
Lemma lone_minor_draw_result (s : Normal.t) (m : Kind) (sd : Side) (can : bool) :
  m = Bishop \/ m = Knight ->
  fst (can_i_make_a_move s) = Ok can ->
  fst (lone_minor_draw {[piece King White; piece King Black; piece m sd]}
         lone_minor_sets s) = Ok (negb can).
Proof.
  intros Hm Hcan.
  assert (Hstep : forall (P c : gset Piece) (rest : list (gset Piece)),
    fst (lone_minor_draw P (c :: rest) s)
    = if bool_decide (P = c) && negb can then Ok true
      else fst (lone_minor_draw P rest s)).
  { intros P c rest. cbn [lone_minor_draw]. destruct (bool_decide (P = c)); [|done].
    rewrite fst_bind_readonly by apply (can_i_make_a_move_preserves eq).
    rewrite Hcan. by destruct can. }
  unfold lone_minor_sets. rewrite !Hstep.
  destruct Hm as [-> | ->], sd;
    repeat match goal with
           | |- context [bool_decide ?Q] =>
               let b := eval vm_compute in (bool_decide Q) in
               replace (bool_decide Q) with b by (vm_compute; reflexivity)
           end;
    by destruct can.
Qed.

(** C4 (as amended): with exactly the two kings and one bishop or one knight
    of either side on the board, [game_state] reports the draw for all sides
    with reason "insufficient material", whatever the counters, when the side
    on move has no move available ([can_i_make_a_move] is false); when it
    has one, the verdict is that of the tests after the material test. *)
Theorem C4_lone_minor_without_a_move_is_a_draw (s : Normal.t) (can : bool) :
  lone_minor_board (board s) ->
  fst (can_i_make_a_move s) = Ok can ->
  fst (game_state s)
  = if can then fst (game_state_rest s) else Ok insufficient_material.
Proof.
  intros Hb Hcan. destruct (lone_minor_piece_set s Hb) as (m & sd & Hm & Hset).
  unfold game_state. rewrite fst_bind_readonly by (apply preserves_gets; apply _).
  cbn [gets fst rbind]. fold (piece_set s). rewrite Hset.
  assert (Hsize : bool_decide
    (size ({[piece King White; piece King Black; piece m sd]} : gset Piece) < 4)%nat = true).
  { destruct Hm as [-> | ->], sd; by vm_compute. }
  assert (Hbare : bool_decide
    (({[piece King White; piece King Black; piece m sd]} : gset Piece)
     = {[piece King White; piece King Black]}) = false).
  { destruct Hm as [-> | ->], sd; by vm_compute. }
  rewrite Hsize, Hbare.
  rewrite fst_bind_readonly by apply (lone_minor_draw_preserves eq).
  rewrite (lone_minor_draw_result s m sd can) by done.
  by destruct can.
Qed.

Lemma bishop_stalemate_board : lone_minor_board (board bishop_stalemate).
Proof.
  exists (1, 5), (0, 7), (3, 5), Bishop, White.
  repeat split; [by left|discriminate..|]. apply (bool_decide_unpack _). by vm_compute.
Qed.

Lemma bishop_ending_board : lone_minor_board (board bishop_ending).
Proof.
  exists (0, 0), (7, 7), (2, 0), Bishop, White.
  repeat split; [by left|discriminate..|]. apply (bool_decide_unpack _). by vm_compute.
Qed.

Lemma C4_lone_minor_without_a_move_is_a_draw_witness :
  fst (game_state bishop_stalemate) = Ok insufficient_material.
Proof.
  apply (C4_lone_minor_without_a_move_is_a_draw bishop_stalemate false);
    [apply bishop_stalemate_board | vm_compute; reflexivity].
Defined.

(** C4 (as stated) fails: with king a1 and bishop c1 against king h8 and
    White to move, White has moves and [game_state] gives no verdict. *)
Lemma C4_counterexample :
  ~ (forall s : Normal.t,
       lone_minor_board (board s) -> fst (game_state s) = Ok insufficient_material).
Proof.
  intros H. specialize (H bishop_ending bishop_ending_board).
  vm_compute in H. discriminate H.
Qed.

Example bishop_ending_verdict :
  fst (can_i_make_a_move bishop_ending) = Ok true
  /\ fst (game_state bishop_ending) = Ok (None, None).
Proof. by vm_compute. Qed.

(** With the two kings alone the draw is reported outright. *)
Lemma bare_kings_draw (s : Normal.t) :
  piece_set s = {[piece King White; piece King Black]} ->
  fst (game_state s) = Ok insufficient_material.
Proof.
  intros Hset.
  unfold game_state. rewrite fst_bind_readonly by (apply preserves_gets; apply _).
  cbn [gets fst rbind]. fold (piece_set s). rewrite Hset.
  replace (bool_decide (size ({[piece King White; piece King Black]} : gset Piece) < 4)%nat)
    with true by by vm_compute.
  by rewrite bool_decide_eq_true_2.
Qed.

(* ===================================================================== *)
(** ** Worked instances *)
(* ===================================================================== *)

Lemma C5_move_then_rollback_restores_state_string_witness :
  exists s'',
    load_history 1 (snd (move fen_hash (mv (4, 1) (4, 3)) (new true))) = (Ok tt, s'')
    /\ str s'' = str (new true).
Proof.
  apply (C5_move_then_rollback_restores_state_string fen_hash (mv (4, 1) (4, 3))
           (new true) _ None).
  - apply reachable_new.
  - vm_compute. reflexivity.
Defined.

Lemma C6_rejection_leaves_state_witness :
  snd (assert_move (mv (4, 1) (4, 4)) (new true)) = new true
  /\ snd (move fen_hash (mv (4, 1) (4, 4)) (new true)) = new true.
Proof.
  destruct (C6_rejection_leaves_state fen_hash (mv (4, 1) (4, 4)) (new true)) as [Ha Hm].
  split; [exact Ha|].
  apply (Hm NotAValidMove); [vm_compute; reflexivity | reflexivity].
Defined.

(* ===================================================================== *)
(** ** What the generators return *)
(* ===================================================================== *)

(** The loops over descriptors and vectors keep any property of the
    collected squares that each ray keeps. *)
Lemma for_descriptors_Forall (P : Position -> Prop)
    (descs : list Movement.MoveDescription) (sd : Side)
    (ray : Movement.MoveDescription -> Z * Z -> gset Position -> gset Position)
    (acc : gset Position) :
  (forall d v a, set_Forall P a -> set_Forall P (ray d v a)) ->
  set_Forall P acc ->
  set_Forall P (for_descriptors descs sd ray acc).
Proof.
  intros Hray. unfold for_descriptors. revert acc.
  induction descs as [|d descs IH]; intros acc Hacc; simpl; [done|].
  apply IH. generalize (elements (transform_vector (Movement.vector d)
                                    (Movement.any_direction d) sd)).
  intros vs. revert acc Hacc. induction vs as [|v vs IHv]; intros acc Hacc; simpl; [done|].
  by apply IHv, Hray.
Qed.

Lemma set_Forall_add (P : Position -> Prop) (d : Position) (acc : gset Position) :
  P d -> set_Forall P acc -> set_Forall P ({[d]} ∪ acc).
Proof. intros Hd Hacc. apply set_Forall_union; [by apply set_Forall_singleton|done]. Qed.

Lemma ray_moves_Forall (board : Board) (position : Position) (vector : Z * Z)
    (distances : list Z) (acc : gset Position) :
  let P d := StandardBoard.validate_position d = true
             /\ StandardBoard.get_piece board d = None in
  set_Forall P acc -> set_Forall P (ray_moves board position vector distances acc).
Proof.
  intros P. revert acc. induction distances as [|n ds IH]; intros acc Hacc; simpl; [done|].
  destruct (StandardBoard.validate_position _) eqn:V; simpl; [|done].
  destruct (StandardBoard.get_piece _ _) eqn:G; [done|].
  apply IH, set_Forall_add; [by split|done].
Qed.

Lemma ray_captures_Forall (board : Board) (pc : Piece) (brk : bool)
    (position : Position) (vector : Z * Z) (distances : list Z) (acc : gset Position)
    (Q : Position -> Prop) :
  let P d := Q d \/ (StandardBoard.validate_position d = true
                     /\ exists q, StandardBoard.get_piece board d = Some q
                                  /\ side q <> side pc) in
  set_Forall P acc ->
  set_Forall P (ray_captures board pc brk position vector distances acc).
Proof.
  intros P. revert acc. induction distances as [|n ds IH]; intros acc Hacc; simpl; [done|].
  destruct (StandardBoard.validate_position _) eqn:V; simpl; [|done].
  destruct (StandardBoard.get_piece _ _) as [q|] eqn:G; [|by apply IH].
  case_bool_decide as Hside; [|done].
  assert (Hnew : set_Forall P ({[step position vector n]} ∪ acc)).
  { apply set_Forall_add; [|done]. right. split; [done|]. by exists q. }
  destruct brk; [done|by apply IH].
Qed.

Lemma ray_attacked_Forall (board : Board) (pc : Piece)
    (position : Position) (vector : Z * Z) (distances : list Z) (acc : gset Position) :
  let P d := StandardBoard.validate_position d = true /\ free_for board pc d in
  set_Forall P acc ->
  set_Forall P (ray_attacked board pc position vector distances acc).
Proof.
  intros P. revert acc. induction distances as [|n ds IH]; intros acc Hacc; simpl; [done|].
  destruct (StandardBoard.validate_position _) eqn:V; simpl; [|done].
  destruct (StandardBoard.get_piece _ _) as [q|] eqn:G.
  - case_bool_decide as Hside; [|done].
    apply set_Forall_add; [|done]. split; [done|]. unfold free_for. by rewrite G.
  - apply IH, set_Forall_add; [|done]. split; [done|]. unfold free_for. by rewrite G.
Qed.

Lemma standard_moves_spec
    (s : Normal.t) (position : Position) (brd : option Board)
    (dests : gset Position) (d : Position) :
  standard_moves s position brd = Ok dests ->
  d ∈ dests ->
  StandardBoard.validate_position d = true
  /\ StandardBoard.get_piece (default (board s) brd) d = None.
Proof.
  unfold standard_moves. destruct (StandardBoard.get_piece _ position) as [pc|]; [|done].
  intros H Hd. injection H as <-. revert d Hd.
  apply for_descriptors_Forall; [|by intros ? ?%elem_of_empty].
  intros c v a. apply ray_moves_Forall.
Qed.


Lemma attacked_fields_spec
    (s : Normal.t) (position : Position) (brd : option Board) (pc : Piece)
    (fields : gset Position) (d : Position) :
  StandardBoard.get_piece (default (board s) brd) position = Some pc ->
  attacked_fields s position brd = Ok fields ->
  d ∈ fields ->
  StandardBoard.validate_position d = true /\ free_for (default (board s) brd) pc d.
Proof.
  unfold attacked_fields. intros ->. intros H Hd. injection H as <-. revert d Hd.
  apply for_descriptors_Forall; [|by intros ? ?%elem_of_empty].
  intros c v a. apply ray_attacked_Forall.
Qed.

Lemma standard_captures_spec
    (s : Normal.t) (position : Position) (brd : option Board) (pc : Piece)
    (dests : gset Position) (d : Position) :
  StandardBoard.get_piece (default (board s) brd) position = Some pc ->
  standard_captures s position brd = Ok dests ->
  d ∈ dests ->
  StandardBoard.validate_position d = true
  /\ free_for (default (board s) brd) pc d
  /\ ((exists q, StandardBoard.get_piece (default (board s) brd) d = Some q
                 /\ side q <> side pc)
      \/ (kind pc = Pawn /\ en_passant s = Some d)).
Proof.
  intros Hpc. unfold standard_captures. rewrite Hpc.
  set (b := default (board s) brd).
  set (Q x := StandardBoard.validate_position x = true /\ free_for b pc x
              /\ kind pc = Pawn /\ en_passant s = Some x).
  set (P x := Q x \/ (StandardBoard.validate_position x = true
                      /\ exists q, StandardBoard.get_piece b x = Some q
                                   /\ side q <> side pc)).
  intros H Hd.
  assert (HP : P d).
  { destruct (if bool_decide (kind pc = Pawn) then _ else _) as [start|] eqn:Hstart;
      [|discriminate]. simpl in H. injection H as <-. revert d Hd.
    apply for_descriptors_Forall; [intros c v a; apply ray_captures_Forall|].
    case_bool_decide as Hk; [|injection Hstart as <-; by intros ? ?%elem_of_empty].
    destruct (en_passant s) as [ep|] eqn:Hep;
      [|injection Hstart as <-; by intros ? ?%elem_of_empty].
    destruct (attacked_fields s position (Some b)) as [fields|] eqn:Hf; [|discriminate].
    simpl in Hstart. injection Hstart as <-.
    case_bool_decide as Hin; [|by intros ? ?%elem_of_empty].
    intros x ->%elem_of_singleton. left.
    destruct (attacked_fields_spec s position (Some b) pc fields ep Hpc Hf Hin).
    by repeat split. }
  destruct HP as [(V & F & K & E)|(V & q & G & S)].
  - repeat split; [done..|]. by right.
  - repeat split; [done| |left; by exists q]. unfold free_for. by rewrite G.
Qed.

(** X1: Every square [standard_moves] returns is on the board and empty. *)
Theorem standard_moves_on_board_and_empty
    (s : Normal.t) (position : Position) (brd : option Board)
    (dests : gset Position) (d : Position) :
  standard_moves s position brd = Ok dests ->
  d ∈ dests ->
  StandardBoard.validate_position d = true
  /\ StandardBoard.get_piece (default (board s) brd) d = None.
Proof. apply standard_moves_spec. Qed.

Lemma standard_moves_on_board_and_empty_witness :
  StandardBoard.validate_position (4, 2) = true
  /\ StandardBoard.get_piece (default (board (new true)) None) (4, 2) = None.
Proof.
  destruct (standard_moves (new true) (4, 1) None) as [dests|] eqn:E; [|by vm_compute in E].
  apply (standard_moves_on_board_and_empty (new true) (4, 1) None dests (4, 2) E).
  apply (bool_decide_unpack _). revert E. vm_compute. intros [= <-]. exact I.
Defined.

(** X2: Every square [attacked_fields] returns for the piece on [position] is on
    the board and is empty or holds a piece of another side. *)
Theorem attacked_fields_on_board_and_free
    (s : Normal.t) (position : Position) (brd : option Board) (pc : Piece)
    (fields : gset Position) (d : Position) :
  StandardBoard.get_piece (default (board s) brd) position = Some pc ->
  attacked_fields s position brd = Ok fields ->
  d ∈ fields ->
  StandardBoard.validate_position d = true /\ free_for (default (board s) brd) pc d.
Proof. apply attacked_fields_spec. Qed.

Lemma attacked_fields_on_board_and_free_witness :
  StandardBoard.validate_position (2, 2) = true
  /\ free_for (default (board (new true)) None) (piece Knight White) (2, 2).
Proof.
  destruct (attacked_fields (new true) (1, 0) None) as [fields|] eqn:E;
    [|by vm_compute in E].
  apply (attacked_fields_on_board_and_free (new true) (1, 0) None (piece Knight White)
           fields (2, 2)); [vm_compute; reflexivity | exact E |].
  apply (bool_decide_unpack _). revert E. vm_compute. intros [= <-]. exact I.
Defined.

(** X3: Every square [standard_captures] returns is on the board and holds a
    piece of another side, except the en-passant square offered to a pawn
    that attacks it, which is on the board and not held by the pawn's
    side. *)
Theorem standard_captures_on_board_and_enemy
    (s : Normal.t) (position : Position) (brd : option Board) (pc : Piece)
    (dests : gset Position) (d : Position) :
  StandardBoard.get_piece (default (board s) brd) position = Some pc ->
  standard_captures s position brd = Ok dests ->
  d ∈ dests ->
  StandardBoard.validate_position d = true
  /\ free_for (default (board s) brd) pc d
  /\ ((exists q, StandardBoard.get_piece (default (board s) brd) d = Some q
                 /\ side q <> side pc)
      \/ (kind pc = Pawn /\ en_passant s = Some d)).
Proof. apply standard_captures_spec. Qed.

Lemma standard_captures_on_board_and_enemy_witness :
  StandardBoard.validate_position (3, 4) = true
  /\ free_for (default (board centre_pawns) None) (piece Pawn White) (3, 4)
  /\ ((exists q, StandardBoard.get_piece (default (board centre_pawns) None) (3, 4) = Some q
                 /\ side q <> side (piece Pawn White))
      \/ (kind (piece Pawn White) = Pawn /\ en_passant centre_pawns = Some (3, 4))).
Proof.
  destruct (standard_captures centre_pawns (4, 3) None) as [dests|] eqn:E;
    [|by vm_compute in E].
  apply (standard_captures_on_board_and_enemy centre_pawns (4, 3) None (piece Pawn White)
           dests (3, 4)); [vm_compute; reflexivity | exact E |].
  apply (bool_decide_unpack _). revert E. vm_compute. intros [= <-]. exact I.
Defined.

Lemma attacked_fields_occupied (s : Normal.t) (b : Board) (p : Position) (pc : Piece) :
  b !! p = Some pc -> exists fields, attacked_fields s p (Some b) = Ok fields.
Proof. intros H. unfold attacked_fields. simpl. unfold StandardBoard.get_piece. rewrite H. eauto. Qed.

(** The comprehension of [attacked_fields_by_sides] over a list of occupied
    squares. *)
Lemma attacked_fold (s : Normal.t) (sds : gset Side) (b : Board)
    (l : list (Position * Piece)) (acc : gset Position) :
  (forall pp, pp ∈ l -> b !! pp.1 = Some pp.2) ->
  exists fields : gset Position,
    fold_left
      (fun acc pp =>
         so_far <-? acc ;;
         fields <-? attacked_fields s (fst pp) (Some b) ;;
         Ok (if bool_decide (side (snd pp) ∈ sds) then fields ∪ so_far else so_far))
      l (Ok acc) = Ok fields
    /\ forall d, d ∈ fields <->
         d ∈ acc \/ exists pp fs, pp ∈ l /\ side pp.2 ∈ sds
                                  /\ attacked_fields s pp.1 (Some b) = Ok fs /\ d ∈ fs.
Proof.
  revert acc. induction l as [|pp l IH]; intros acc Hl; simpl.
  - exists acc. split; [done|]. intros d. split; [by left|].
    intros [?|(pp & fs & Hin & _)]; [done|]. by apply elem_of_nil in Hin.
  - destruct (attacked_fields_occupied s b pp.1 pp.2) as [fs Hfs]; [apply Hl; by left|].
    rewrite Hfs. simpl.
    destruct (IH (if bool_decide (side pp.2 ∈ sds) then fs ∪ acc else acc)) as (S & HS & Hiff).
    { intros pp' Hin. apply Hl. by right. }
    exists S. split; [done|]. intros d. rewrite Hiff. split.
    + intros [Hd|(pp' & fs' & Hin & Hside & Hf & Hd)].
      * case_bool_decide as Hside; [|by left].
        apply elem_of_union in Hd as [Hd|Hd]; [|by left].
        right. exists pp, fs. repeat split; [by left|done..].
      * right. exists pp', fs'. repeat split; [by right|done..].
    + intros [Hd|(pp' & fs' & Hin & Hside & Hf & Hd)].
      * left. case_bool_decide; [apply elem_of_union; by right|done].
      * apply elem_of_cons in Hin as [->|Hin].
        -- left. rewrite bool_decide_eq_true_2 by done.
           apply elem_of_union. left. congruence.
        -- right. by exists pp', fs'.
Qed.

Lemma attacked_fields_by_sides_spec
    (s : Normal.t) (sds : gset Side) (brd : option Board) :
  exists fields : gset Position,
    attacked_fields_by_sides s sds brd = Ok fields
    /\ forall d, d ∈ fields <->
         exists p pc fs,
           StandardBoard.get_piece (default (board s) brd) p = Some pc
           /\ side pc ∈ sds
           /\ attacked_fields s p (Some (default (board s) brd)) = Ok fs
           /\ d ∈ fs.
Proof.
  unfold attacked_fields_by_sides, StandardBoard.pieces. set (b := default (board s) brd).
  destruct (attacked_fold s sds b (map_to_list b) ∅) as (S & HS & Hiff).
  { intros [p pc] Hin. by apply elem_of_map_to_list in Hin. }
  exists S. split; [done|]. intros d. rewrite Hiff. split.
  - intros [Hd|([p pc] & fs & Hin & Hside & Hf & Hd)]; [by apply elem_of_empty in Hd|].
    exists p, pc, fs. repeat split; try done. by apply elem_of_map_to_list in Hin.
  - intros (p & pc & fs & Hp & Hside & Hf & Hd). right.
    exists (p, pc), fs. repeat split; try done. by apply elem_of_map_to_list.
Qed.

Lemma who_fold (s : Normal.t) (position : Position) (b : Board)
    (l : list (Position * Piece)) (acc : gmap Position Piece) :
  (forall pp, pp ∈ l -> b !! pp.1 = Some pp.2) ->
  (forall p pc, acc !! p = Some pc -> b !! p = Some pc) ->
  exists who : gmap Position Piece,
    fold_left
      (fun acc pp =>
         so_far <-? acc ;;
         fields <-? attacked_fields s (fst pp) (Some b) ;;
         Ok (if bool_decide (position ∈ fields) then <[fst pp := snd pp]> so_far
             else so_far))
      l (Ok acc) = Ok who
    /\ forall p pc, who !! p = Some pc <->
         acc !! p = Some pc
         \/ ((p, pc) ∈ l /\ exists fs, attacked_fields s p (Some b) = Ok fs /\ position ∈ fs).
Proof.
  revert acc. induction l as [|[q qc] l IH]; intros acc Hl Hacc; simpl.
  - exists acc. split; [done|]. intros p pc. split; [by left|].
    intros [?|[Hin _]]; [done|]. by apply elem_of_nil in Hin.
  - assert (Hq : b !! q = Some qc) by (apply (Hl (q, qc)); by left).
    destruct (attacked_fields_occupied s b q qc Hq) as [fs Hfs].
    rewrite Hfs. simpl.
    set (acc' := if bool_decide (position ∈ fs) then <[q:=qc]> acc else acc).
    assert (Hacc' : forall p pc, acc' !! p = Some pc -> b !! p = Some pc).
    { intros p pc. unfold acc'. case_bool_decide; [|apply Hacc].
      destruct (decide (q = p)) as [<-|Hne].
      - rewrite lookup_insert_eq. by intros [= <-].
      - rewrite lookup_insert_ne by done. apply Hacc. }
    destruct (IH acc') as (who & Hwho & Hiff); [intros pp' Hin; apply Hl; by right|done|].
    exists who. split; [done|]. intros p pc. rewrite Hiff. unfold acc'. split.
    + intros [Hp|[Hin Hatt]]; [|right; split; [by right|done]].
      case_bool_decide as Hpos; [|by left].
      destruct (decide (q = p)) as [<-|Hne].
      * rewrite lookup_insert_eq in Hp. injection Hp as <-.
        right. split; [by left|by exists fs].
      * rewrite lookup_insert_ne in Hp by done. by left.
    + intros [Hp|[Hin (fs' & Hf & Hpos)]].
      * left. case_bool_decide; [|done].
        destruct (decide (q = p)) as [<-|Hne]; [|by rewrite lookup_insert_ne].
        rewrite lookup_insert_eq. f_equal. apply Hacc in Hp. congruence.
      * apply elem_of_cons in Hin as [[= -> ->]|Hin]; [|right; split; [done|by exists fs']].
        left. rewrite bool_decide_eq_true_2 by congruence.
        by rewrite lookup_insert_eq.
Qed.

Lemma who_can_step_here_spec
    (s : Normal.t) (position : Position) (brd : option Board) :
  exists who : gmap Position Piece,
    who_can_step_here s position brd = Ok who
    /\ forall p pc, who !! p = Some pc <->
         StandardBoard.get_piece (default (board s) brd) p = Some pc
         /\ exists fs, attacked_fields s p (Some (default (board s) brd)) = Ok fs
                       /\ position ∈ fs.
Proof.
  unfold who_can_step_here, StandardBoard.pieces. set (b := default (board s) brd).
  destruct (who_fold s position b (map_to_list b) ∅) as (who & Hwho & Hiff).
  { intros [p pc] Hin. by apply elem_of_map_to_list in Hin. }
  { intros p pc H. by rewrite lookup_empty in H. }
  exists who. split; [done|]. intros p pc. rewrite Hiff. split.
  - intros [H|[Hin Hatt]]; [by rewrite lookup_empty in H|].
    split; [by apply elem_of_map_to_list in Hin|done].
  - intros [Hp Hatt]. right. split; [by apply elem_of_map_to_list|done].
Qed.

(** X4: [attacked_fields_by_sides] never raises, and returns exactly the squares
    attacked from an occupied square whose piece belongs to one of the given
    sides. *)
Theorem attacked_fields_by_sides_union
    (s : Normal.t) (sds : gset Side) (brd : option Board) :
  exists fields : gset Position,
    attacked_fields_by_sides s sds brd = Ok fields
    /\ forall d, d ∈ fields <->
         exists p pc fs,
           StandardBoard.get_piece (default (board s) brd) p = Some pc
           /\ side pc ∈ sds
           /\ attacked_fields s p (Some (default (board s) brd)) = Ok fs
           /\ d ∈ fs.
Proof. apply attacked_fields_by_sides_spec. Qed.

(** X5: [who_can_step_here] never raises; its dictionary maps a square to the
    piece on it exactly when that piece attacks the given position. *)
Theorem who_can_step_here_attackers
    (s : Normal.t) (position : Position) (brd : option Board) :
  exists who : gmap Position Piece,
    who_can_step_here s position brd = Ok who
    /\ forall p pc, who !! p = Some pc <->
         StandardBoard.get_piece (default (board s) brd) p = Some pc
         /\ exists fs, attacked_fields s p (Some (default (board s) brd)) = Ok fs
                       /\ position ∈ fs.
Proof. apply who_can_step_here_spec. Qed.

(** X6: Both queries succeed, and a square is in the attacked set of all sides
    exactly when [who_can_step_here] names an attacker for it. *)
Theorem attacked_iff_someone_can_step_here
    (s : Normal.t) (position : Position) (brd : option Board) :
  exists (fields : gset Position) (who : gmap Position Piece),
    attacked_fields_by_sides s all_sides brd = Ok fields
    /\ who_can_step_here s position brd = Ok who
    /\ (position ∈ fields <-> who <> ∅).
Proof.
  destruct (attacked_fields_by_sides_spec s all_sides brd) as (fields & Hf & Hiff).
  destruct (who_can_step_here_spec s position brd) as (who & Hw & Hwho).
  exists fields, who. split; [done|]. split; [done|].
  rewrite Hiff. split.
  - intros (p & pc & fs & Hp & _ & Hfs & Hin) Hempty.
    assert (who !! p = Some pc) as Hl by (apply Hwho; split; [done|by exists fs]).
    by rewrite Hempty, lookup_empty in Hl.
  - intros Hne. apply map_choose in Hne as (p & pc & Hl).
    apply Hwho in Hl as (Hp & fs & Hfs & Hin).
    exists p, pc, fs. repeat split; try done.
    unfold all_sides, sides. destruct (side pc).
    + apply elem_of_list_to_set. by left.
    + apply elem_of_list_to_set. right. by left.
Qed.

(** With stop-after-first-capture set, a capture ray collects nothing that
    the attack ray along the same direction does not. *)
Lemma ray_captures_subseteq_attacked (board : Board) (pc : Piece)
    (position : Position) (vector : Z * Z) (distances : list Z)
    (extra a1 a2 : gset Position) :
  a1 ⊆ a2 ∪ extra ->
  ray_captures board pc true position vector distances a1
  ⊆ ray_attacked board pc position vector distances a2 ∪ extra.
Proof.
  revert a1 a2. induction distances as [|n ds IH]; intros a1 a2 Ha; simpl; [done|].
  destruct (negb _); [done|].
  destruct (StandardBoard.get_piece _ _) as [q|].
  - destruct (bool_decide _); [|done].
    intros x [->%elem_of_singleton|Hx]%elem_of_union.
    + apply elem_of_union. left. apply elem_of_union. left. by apply elem_of_singleton.
    + apply Ha in Hx as [Hx|Hx]%elem_of_union; apply elem_of_union; [left|by right].
      apply elem_of_union. by right.
  - apply IH. intros x Hx. apply Ha in Hx as [Hx|Hx]%elem_of_union;
      apply elem_of_union; [left|by right]. apply elem_of_union. by right.
Qed.

Lemma for_descriptors_subseteq (descs : list Movement.MoveDescription) (sd : Side)
    (ray1 ray2 : Movement.MoveDescription -> Z * Z -> gset Position -> gset Position)
    (extra a1 a2 : gset Position) :
  (forall d v b1 b2, d ∈ descs -> b1 ⊆ b2 ∪ extra -> ray1 d v b1 ⊆ ray2 d v b2 ∪ extra) ->
  a1 ⊆ a2 ∪ extra ->
  for_descriptors descs sd ray1 a1 ⊆ for_descriptors descs sd ray2 a2 ∪ extra.
Proof.
  unfold for_descriptors. revert a1 a2.
  induction descs as [|d descs IH]; intros a1 a2 Hray Ha; simpl; [done|].
  apply IH; [intros d' v b1 b2 Hd; apply Hray; by right|].
  generalize (elements (transform_vector (Movement.vector d)
                          (Movement.any_direction d) sd)).
  intros vs. revert a1 a2 Ha. induction vs as [|v vs IHv]; intros a1 a2 Ha; simpl; [done|].
  apply IHv, Hray; [by left|done].
Qed.

(** X7: For a piece whose capture descriptors all stop at the first capture,
    every square [standard_captures] returns is among those
    [attacked_fields] returns. *)
Theorem standard_captures_subseteq_attacked_fields
    (s : Normal.t) (position : Position) (brd : option Board) (pc : Piece)
    (captures attacked : gset Position) :
  StandardBoard.get_piece (default (board s) brd) position = Some pc ->
  (forall c, c ∈ Movement.capture (Movement.movement (kind pc)) ->
             Movement.capture_break c = true) ->
  standard_captures s position brd = Ok captures ->
  attacked_fields s position brd = Ok attacked ->
  captures ⊆ attacked.
Proof.
  intros Hpc Hbrk Hc Ha. set (b := default (board s) brd) in *.
  assert (Ha' : attacked_fields s position (Some b) = Ok attacked).
  { revert Ha. unfold attacked_fields. simpl. by fold b. }
  unfold standard_captures in Hc. fold b in Hc. rewrite Hpc in Hc.
  assert (Hstart : exists start : gset Position,
    (if bool_decide (kind pc = Pawn)
     then match en_passant s with
          | Some ep =>
              fields <-? attacked_fields s position (Some b) ;;
              Ok (if bool_decide (ep ∈ fields) then ({[ep]} : gset Position) else ∅)
          | None => Ok ∅
          end
     else Ok ∅) = Ok start /\ start ⊆ attacked).
  { destruct (bool_decide (kind pc = Pawn)); [|by exists ∅].
    destruct (en_passant s) as [ep|]; [|by exists ∅].
    rewrite Ha'. simpl. case_bool_decide as Hin; [|by exists ∅].
    exists {[ep]}. split; [done|]. by apply singleton_subseteq_l. }
  destruct Hstart as (start & Hs & Hsub). rewrite Hs in Hc. simpl in Hc. injection Hc as <-.
  unfold attacked_fields in Ha. fold b in Ha. rewrite Hpc in Ha. injection Ha as Ha.
  assert (Hfold :
    for_descriptors (Movement.capture (Movement.movement (kind pc))) (side pc)
      (fun c_desc vector =>
         ray_captures b pc (Movement.capture_break c_desc) position vector
           (loop (Movement.distance c_desc))) start
    ⊆ for_descriptors (Movement.capture (Movement.movement (kind pc))) (side pc)
        (fun c_desc vector =>
           ray_attacked b pc position vector (loop (Movement.distance c_desc))) ∅
      ∪ start).
  { apply for_descriptors_subseteq.
    - intros d v b1 b2 Hd Hb. rewrite (Hbrk d Hd). by apply ray_captures_subseteq_attacked.
    - intros x Hx. apply elem_of_union. by right. }
  rewrite Ha in Hfold. intros x Hx. apply Hfold in Hx as [Hx|Hx]%elem_of_union; [done|].
  by apply Hsub.
Qed.

Lemma special_moves_pawn_spec
    (s : Normal.t) (position : Position) (brd : option Board) (pc : Piece)
    (dests : gset Position) (d : Position) :
  StandardBoard.get_piece (default (board s) brd) position = Some pc ->
  kind pc = Pawn ->
  special_moves s position brd = Ok dests ->
  d ∈ dests ->
  let file := StandardPosition.file position in
  let rank := StandardPosition.rank position in
  ((side pc = Black /\ rank = 6 /\ d = (file, 4)
    /\ vacant (default (board s) brd) (file, 5) = true)
   \/ (side pc = White /\ rank = 1 /\ d = (file, 3)
       /\ vacant (default (board s) brd) (file, 2) = true))
  /\ vacant (default (board s) brd) d = true
  /\ StandardBoard.validate_position d = true.
Proof.
  intros Hpc Hk Hsp Hd. unfold special_moves in Hsp. rewrite Hpc, Hk in Hsp.
  rewrite bool_decide_eq_true_2 in Hsp by done.
  destruct pc as [k sd]. simpl in Hk. subst k. simpl.
  destruct (bool_decide (piece Pawn sd = piece Pawn Black)
            && (StandardPosition.rank position =? 6)
            && vacant (default (board s) brd) (StandardPosition.file position, 5)) eqn:Eb.
  - apply andb_true_iff in Eb as [Eb Hv]. apply andb_true_iff in Eb as [Hsd Hr].
    apply bool_decide_eq_true in Hsd. injection Hsd as ->. apply Z.eqb_eq in Hr.
    destruct (_ && _) eqn:Ev in Hsp; injection Hsp as <-; [|by apply elem_of_empty in Hd].
    apply elem_of_singleton in Hd as ->. apply andb_true_iff in Ev as [Hval Hvac].
    rewrite Hr in *. repeat split; try done. left. by repeat split.
  - destruct (bool_decide (piece Pawn sd = piece Pawn White)
              && (StandardPosition.rank position =? 1)
              && vacant (default (board s) brd) (StandardPosition.file position, 2)) eqn:Ew;
      [|injection Hsp as <-; by apply elem_of_empty in Hd].
    apply andb_true_iff in Ew as [Ew Hv]. apply andb_true_iff in Ew as [Hsd Hr].
    apply bool_decide_eq_true in Hsd. injection Hsd as ->. apply Z.eqb_eq in Hr.
    destruct (_ && _) eqn:Ev in Hsp; injection Hsp as <-; [|by apply elem_of_empty in Hd].
    apply elem_of_singleton in Hd as ->. apply andb_true_iff in Ev as [Hval Hvac].
    rewrite Hr in *. repeat split; try done. right. by repeat split.
Qed.

(** X8: The double step of a pawn: [special_moves] offers a pawn only the square
    two ranks ahead of its starting rank (rank 2 for White, rank 7 for
    Black), and only when that square and the one in between are empty and
    the target is on the board. *)
Theorem special_moves_pawn_double_step
    (s : Normal.t) (position : Position) (brd : option Board) (pc : Piece)
    (dests : gset Position) (d : Position) :
  StandardBoard.get_piece (default (board s) brd) position = Some pc ->
  kind pc = Pawn ->
  special_moves s position brd = Ok dests ->
  d ∈ dests ->
  let file := StandardPosition.file position in
  let rank := StandardPosition.rank position in
  ((side pc = Black /\ rank = 6 /\ d = (file, 4)
    /\ vacant (default (board s) brd) (file, 5) = true)
   \/ (side pc = White /\ rank = 1 /\ d = (file, 3)
       /\ vacant (default (board s) brd) (file, 2) = true))
  /\ vacant (default (board s) brd) d = true
  /\ StandardBoard.validate_position d = true.
Proof. apply special_moves_pawn_spec. Qed.

(** X9: Castling on the queen side: a king gets the square two files to its left
    exactly when it stands on file e, the queen-side right of the side on
    move is held, the two squares to its left are empty and neither is
    attacked by the other side on the instance's board.  The square next to
    the rook is not looked at. *)
Theorem special_moves_queen_side
    (s : Normal.t) (position : Position) (brd : option Board)
    (pc : Piece) (dests attacked : gset Position) :
  StandardBoard.get_piece (default (board s) brd) position = Some pc ->
  kind pc = King ->
  special_moves s position brd = Ok dests ->
  attacked_fields_by_sides s (other_sides (on_move s)) None = Ok attacked ->
  let file := StandardPosition.file position in
  let rank := StandardPosition.rank position in
  (file - 2, rank) ∈ dests <->
    castling s <> ∅ /\ file = 4
    /\ piece Queen (on_move s) ∈ castling s
    /\ vacant (default (board s) brd) (file - 1, rank) = true
    /\ vacant (default (board s) brd) (file - 2, rank) = true
    /\ ((file - 1, rank) ∉ attacked) /\ ((file - 2, rank) ∉ attacked).
Proof.
  intros Hpc Hk Hsp Hatt. simpl. unfold special_moves in Hsp. rewrite Hpc, Hk in Hsp.
  rewrite bool_decide_eq_false_2 in Hsp by discriminate.
  rewrite bool_decide_eq_true_2 in Hsp by done. simpl in Hsp.
  case_bool_decide as Hc; simpl in Hsp.
  { injection Hsp as <-. split; [by intros ?%elem_of_empty|]. by intros [? _]. }
  destruct (Z.eqb_spec (StandardPosition.file position) 4) as [Hf|Hf].
  2:{ injection Hsp as <-. split; [by intros ?%elem_of_empty|]. by intros (_ & ? & _). }
  rewrite Hatt in Hsp. simpl in Hsp. injection Hsp as <-.
  rewrite elem_of_union. split.
  - intros [Hin|Hin].
    + exfalso. case_bool_decide; [|by apply elem_of_empty in Hin].
      destruct (_ && _); [|by apply elem_of_empty in Hin].
      apply elem_of_singleton in Hin. injection Hin as Hin. lia.
    + case_bool_decide as Hright; [|by apply elem_of_empty in Hin].
      destruct (vacant _ (_ - 1, _)) eqn:V1; [|by apply elem_of_empty in Hin].
      destruct (vacant _ (_ - 2, _)) eqn:V2; [|by apply elem_of_empty in Hin].
      simpl in Hin. case_bool_decide as Hfree; [|by apply elem_of_empty in Hin].
      repeat split; try done.
      * intros Hx. apply (not_elem_of_empty (C := gset Position)
                            (StandardPosition.file position - 1, StandardPosition.rank position)).
        rewrite <- Hfree. apply elem_of_intersection. split; [|done].
        apply elem_of_union. left. by apply elem_of_singleton.
      * intros Hx. apply (not_elem_of_empty (C := gset Position)
                            (StandardPosition.file position - 2, StandardPosition.rank position)).
        rewrite <- Hfree. apply elem_of_intersection. split; [|done].
        apply elem_of_union. right. by apply elem_of_singleton.
  - intros (_ & _ & Hright & V1 & V2 & N1 & N2). right.
    rewrite bool_decide_eq_true_2 by done. rewrite V1, V2. simpl.
    rewrite bool_decide_eq_true_2; [by apply elem_of_singleton|].
    apply set_eq. intros x. split; [|by intros ?%elem_of_empty].
    intros [Hx Hx']%elem_of_intersection.
    apply elem_of_union in Hx as [->%elem_of_singleton| ->%elem_of_singleton]; done.
Qed.

(* ===================================================================== *)
(** ** More on position text *)
(* ===================================================================== *)

Section PositionParsing.

Import StandardPosition.

(** Two positive integers with the same decimal text are equal. *)
Lemma str_int_inj (n m : Z) : 0 < n -> 0 < m -> str_int n = str_int m -> n = m.
Proof.
  intros Hn Hm H.
  destruct (str_int_pos n Hn) as (_ & _ & d & Hd & <-).
  destruct (str_int_pos m Hm) as (_ & _ & e & He & <-).
  rewrite H in Hd. congruence.
Qed.

Lemma letter_has_index (c : ascii) :
  is_letter c = true -> exists v, index (lower c) ascii_lowercase = Ok v /\ 0 <= v < 26.
Proof.
  destruct c as [[] [] [] [] [] [] [] []]; intros H; try discriminate H;
    eexists; (split; [vm_compute; reflexivity|lia]).
Qed.

Lemma letter_values_letters (s : string) :
  all_letters s = true ->
  exists vs, letter_values s = Ok vs /\ length vs = String.length s.
Proof.
  induction s as [|c s IH]; cbn [letter_values all_letters String.length];
    [by exists []|].
  intros [Hc Hs]%andb_true_iff.
  destruct (letter_has_index c Hc) as (v & -> & _).
  destruct (IH Hs) as (vs & -> & Hlen). cbn [rbind]. exists (v :: vs). split; [done|].
  simpl. by rewrite Hlen.
Qed.

Lemma digit_reads (c : ascii) (d : uint) :
  is_digit c = true -> exists d', uint_of_char c (Some d) = Some d'.
Proof.
  destruct c as [[] [] [] [] [] [] [] []]; intros H; try discriminate H; by eexists.
Qed.

Lemma digits_read (s : string) :
  all_digits s = true -> exists d, NilEmpty.uint_of_string s = Some d.
Proof.
  induction s as [|c s IH]; simpl; [by eexists|].
  intros [Hc Hs]%andb_true_iff. destruct (IH Hs) as [d ->]. by apply digit_reads.
Qed.

Lemma span_letters_fst (s : string) : all_letters (fst (span_letters s)) = true.
Proof.
  induction s as [|c s IH]; simpl; [done|].
  destruct (is_letter c) eqn:E; [|done].
  destruct (span_letters s) as [l r]. simpl in *. by rewrite E.
Qed.

Lemma span_letters_spec (s : string) :
  s = (fst (span_letters s) ++ snd (span_letters s))%string.
Proof.
  induction s as [|c s IH]; simpl; [done|].
  destruct (is_letter c); [|done].
  destruct (span_letters s) as [l r]. simpl in *. rewrite IH. reflexivity.
Qed.

Lemma strip_final_newline_spec (s : string) :
  exists nl, s = (strip_final_newline s ++ nl)%string
             /\ (nl = EmptyString \/ nl = String "010"%char EmptyString).
Proof.
  induction s as [|c s IH]; [exists EmptyString; by split; [|left]|].
  destruct s as [|d s].
  - simpl. destruct (Ascii.eqb_spec c "010"%char) as [->|_].
    + exists (String "010"%char EmptyString). by split; [|right].
    + exists EmptyString. by split; [|left].
  - destruct IH as (nl & IH & Hnl). exists nl. split; [|done].
    change (String c (String d s)
            = String c (strip_final_newline (String d s) ++ nl)%string).
    by f_equal.
Qed.

Lemma string_app_nil_r (s : string) : (s ++ EmptyString)%string = s.
Proof.
  induction s as [|c s IH]; [done|].
  change (String c (s ++ EmptyString)%string = String c s). by f_equal.
Qed.

Lemma strip_final_newline_app (d nl : string) :
  all_digits d = true -> d <> EmptyString ->
  nl = EmptyString \/ nl = String "010"%char EmptyString ->
  strip_final_newline (d ++ nl) = d.
Proof.
  intros Hd Hne [-> | ->].
  - rewrite string_app_nil_r. by apply strip_final_newline_digits.
  - induction d as [|c d IH]; [done|]. simpl in Hd.
    apply andb_true_iff in Hd as [Hc Hd]. destruct d as [|e d].
    + simpl. done.
    + change (String c (strip_final_newline (String e d ++ String "010"%char EmptyString))
              = String c (String e d)).
      f_equal. by apply IH.
Qed.

(** What the regular expression finds: the two groups of a text of the form
    letters, digits, optional newline. *)
Lemma location_regex_Some (pos f r : string) :
  location_regex pos = Some (f, r) <->
  exists nl, pos = (f ++ r ++ nl)%string
             /\ f <> EmptyString /\ all_letters f = true
             /\ r <> EmptyString /\ all_digits r = true
             /\ (nl = EmptyString \/ nl = String "010"%char EmptyString).
Proof.
  split.
  - unfold location_regex. intros E.
    pose proof (span_letters_spec pos) as Hpos. pose proof (span_letters_fst pos) as Hl.
    destruct (span_letters pos) as [f' rest]. simpl in Hpos, Hl.
    destruct (strip_final_newline_spec rest) as (nl & Hrest & Hnl).
    destruct f' as [|c f']; [discriminate|].
    destruct (strip_final_newline rest) as [|d r']; [discriminate|].
    destruct (all_digits (String d r')) eqn:Hd; [|discriminate]. injection E as <- <-.
    exists nl. rewrite Hpos, Hrest. by repeat split.
  - intros (nl & -> & Hf & Hl & Hr & Hd & Hnl). unfold location_regex.
    rewrite span_letters_app; [|done|].
    2:{ destruct r as [|c r]; [done|]. simpl in *.
        apply andb_true_iff in Hd as [Hc _]. by apply digit_not_letter. }
    rewrite strip_final_newline_app by done.
    destruct f as [|c f]; [done|]. destruct r as [|d r]; [done|]. by rewrite Hd.
Qed.

(** The constructor raises nothing but [ValueError]. *)
Lemma from_str_outcome (pos : string) :
  (exists p, from_str pos = Ok p) \/ from_str pos = Raise ValueError.
Proof.
  unfold from_str. destruct (location_regex pos) as [[f r]|] eqn:E; [|by right].
  apply location_regex_Some in E as (nl & _ & _ & Hl & _ & Hd & _).
  unfold rank_from_str_to_int, int_str.
  destruct (max_str_digits <? Z.of_nat (String.length r)); [by right|].
  destruct (digits_read _ Hd) as [u ->]. cbn [rbind].
  unfold file_from_str_to_int.
  destruct (letter_values_letters _ Hl) as (vs & -> & _). cbn [rbind]. left. eauto.
Qed.

(** X10: The constructor from a string returns a position exactly on the
    texts made of one or more letters of [a-zA-Z], then between one and
    [max_str_digits] digits of [0-9], then at most one newline; on every
    other text it raises [ValueError]. *)
Theorem from_str_accepts_exactly (pos : string) :
  ((exists p, from_str pos = Ok p) <-> position_text pos)
  /\ (from_str pos = Raise ValueError <-> ~ position_text pos).
Proof.
  assert (Hok : (exists p, from_str pos = Ok p) <-> position_text pos).
  { split.
    - intros [p Hp]. unfold from_str in Hp.
      destruct (location_regex pos) as [[f r]|] eqn:E; [|discriminate].
      apply location_regex_Some in E as (nl & -> & Hf & Hl & Hr & Hd & Hnl).
      exists f, r, nl. repeat split; try done.
      unfold rank_from_str_to_int, int_str in Hp.
      destruct (Z.ltb_spec max_str_digits (Z.of_nat (String.length r))); [discriminate|done].
    - intros (f & r & nl & Hpos & Hf & Hl & Hr & Hd & Hlen & Hnl).
      assert (E : location_regex pos = Some (f, r)).
      { apply location_regex_Some. exists nl. by repeat split. }
      unfold from_str. rewrite E. unfold rank_from_str_to_int, int_str.
      destruct (Z.ltb_spec max_str_digits (Z.of_nat (String.length r))); [lia|].
      destruct (digits_read _ Hd) as [u ->]. cbn [rbind].
      unfold file_from_str_to_int.
      destruct (letter_values_letters _ Hl) as (vs & -> & _). cbn [rbind]. eauto. }
  split; [done|]. rewrite <- Hok. split.
  - intros H [p Hp]. congruence.
  - intros H. destruct (from_str_outcome pos) as [Hp|Hp]; [by destruct H|done].
Qed.

Lemma lower_lower (c : ascii) : lower (lower c) = lower c.
Proof. by destruct c as [[] [] [] [] [] [] [] []]. Qed.

Lemma is_letter_lower (c : ascii) : is_letter (lower c) = is_letter c.
Proof. by destruct c as [[] [] [] [] [] [] [] []]. Qed.

Lemma lower_not_letter (c : ascii) : is_letter c = false -> lower c = c.
Proof. by destruct c as [[] [] [] [] [] [] [] []]. Qed.

Lemma letter_values_lower (s : string) :
  letter_values (lower_ascii_letters s) = letter_values s.
Proof.
  induction s as [|c s IH]; cbn [letter_values lower_ascii_letters]; [done|].
  by rewrite lower_lower, IH.
Qed.

Lemma span_letters_lower (s : string) :
  span_letters (lower_ascii_letters s)
  = (lower_ascii_letters (fst (span_letters s)), lower_ascii_letters (snd (span_letters s))).
Proof.
  induction s as [|c s IH]; simpl; [done|]. rewrite is_letter_lower.
  destruct (is_letter c); [|done]. rewrite IH. by destruct (span_letters s).
Qed.

Lemma strip_final_newline_lower (s : string) :
  strip_final_newline (lower_ascii_letters s) = lower_ascii_letters (strip_final_newline s).
Proof.
  induction s as [|c s IH]; [done|]. destruct s as [|d s].
  - simpl. by destruct c as [[] [] [] [] [] [] [] []].
  - change (strip_final_newline (lower_ascii_letters (String c (String d s))))
      with (String (lower c) (strip_final_newline (lower_ascii_letters (String d s)))).
    change (lower_ascii_letters (strip_final_newline (String c (String d s))))
      with (String (lower c) (lower_ascii_letters (strip_final_newline (String d s)))).
    by rewrite IH.
Qed.

Lemma lower_ascii_letters_digits (s : string) : all_digits s = true -> lower_ascii_letters s = s.
Proof.
  induction s as [|c s IH]; simpl; [done|]. intros [Hc Hs]%andb_true_iff.
  by rewrite (lower_not_letter c (digit_not_letter c Hc)), IH.
Qed.

Lemma all_digits_lower (s : string) : all_digits (lower_ascii_letters s) = all_digits s.
Proof.
  induction s as [|c s IH]; simpl; [done|]. rewrite IH. f_equal.
  by destruct c as [[] [] [] [] [] [] [] []].
Qed.

(** A final newline after the digits is let through by [$]; a newline
    anywhere else is not. *)
Example final_newline_is_accepted :
  from_str (String "a" (String "1" (String "010" EmptyString))) = Ok (0, 0)
  /\ from_str (String "a" (String "010" (String "1" EmptyString))) = Raise ValueError.
Proof. by vm_compute. Qed.

(** X11: The constructor reads the letters [A] to [Z] as their lower-case
    counterparts: replacing each of them in a text by its lower-case letter
    changes neither the position returned nor the exception raised. *)
Theorem from_str_ignores_ascii_case (pos : string) :
  from_str (lower_ascii_letters pos) = from_str pos.
Proof.
  unfold from_str, location_regex. rewrite span_letters_lower.
  destruct (span_letters pos) as [f rest]. simpl fst. simpl snd.
  rewrite strip_final_newline_lower.
  destruct f as [|c f]; [done|].
  destruct (strip_final_newline rest) as [|d r] eqn:Er; [done|].
  destruct (all_digits (String d r)) eqn:Hd.
  - rewrite (lower_ascii_letters_digits _ Hd). cbn [lower_ascii_letters]. rewrite Hd.
    destruct (rank_from_str_to_int (String d r)); [|done]. cbn [rbind].
    unfold file_from_str_to_int.
    change (String (lower c) (lower_ascii_letters f)) with (lower_ascii_letters (String c f)).
    by rewrite letter_values_lower.
  - pose proof (all_digits_lower (String d r)) as Hl. rewrite Hd in Hl.
    cbn [lower_ascii_letters] in *. by rewrite Hl.
Qed.

Lemma output_chars_loop_minimal (file : Z) (fuel : nat) (oc : Z) :
  1 <= oc ->
  (oc = 1 \/ 26 ^ (oc - 1) <= file) ->
  let n := output_chars_loop fuel oc file in
  n = 1 \/ 26 ^ (n - 1) <= file.
Proof.
  revert oc. induction fuel as [|fuel IH]; intros oc Hoc Hinv; simpl; [done|].
  destruct (Z.leb_spec (26 ^ oc) file) as [Hle|Hgt]; [|done].
  apply IH; [lia|]. right. by replace (oc + 1 - 1) with oc by lia.
Qed.

Lemma output_chars_spec (file : Z) :
  let n := output_chars file in
  String.length (file_from_int_to_str file) = Z.to_nat n
  /\ 1 <= n /\ file < 26 ^ n /\ (n = 1 \/ 26 ^ (n - 1) <= file).
Proof.
  simpl. split; [|split; [apply output_chars_pos|split; [apply output_chars_exit|]]].
  - unfold file_from_int_to_str, file_values.
    generalize (Z.to_nat (output_chars file)). intros n.
    assert (Hlen : forall l : list ascii, String.length (string_of_list_ascii l) = length l).
    { induction l as [|c l IH]; simpl; [done|]. by rewrite IH. }
    by rewrite Hlen, length_map, length_rev, length_map, length_seq.
  - by apply output_chars_loop_minimal; [|left].
Qed.

(** X12: The number of letters of a file is the least that can hold it: one
    letter below 26, and otherwise [n] letters with
    [26 ** (n - 1) <= file < 26 ** n]. *)
Theorem file_text_has_least_length (file : Z) :
  let n := output_chars file in
  String.length (file_from_int_to_str file) = Z.to_nat n
  /\ 1 <= n /\ file < 26 ^ n /\ (n = 1 \/ 26 ^ (n - 1) <= file).
Proof. apply output_chars_spec. Qed.

End PositionParsing.

Section PositionRendering.

Import StandardPosition.

(** The base-26 digits below position [n] determine the number modulo
    [26 ** n]. *)
Lemma digits_determine (n : nat) (f g : Z) :
  (forall i : nat, (i < n)%nat ->
     (f / 26 ^ Z.of_nat i) mod 26 = (g / 26 ^ Z.of_nat i) mod 26) ->
  f mod 26 ^ Z.of_nat n = g mod 26 ^ Z.of_nat n.
Proof.
  revert f g. induction n as [|n IH]; intros f g H.
  - by rewrite !Z.mod_1_r.
  - replace (Z.of_nat (S n)) with (1 + Z.of_nat n) by lia.
    rewrite Z.pow_add_r, Z.pow_1_r by lia.
    rewrite !Z.rem_mul_r by (try apply Z.pow_nonzero; lia).
    pose proof (H 0%nat ltac:(lia)) as H0. simpl in H0. rewrite !Z.div_1_r in H0.
    rewrite H0. f_equal. f_equal. apply IH. intros i Hi.
    pose proof (H (S i) ltac:(lia)) as Hs.
    replace (Z.of_nat (S i)) with (1 + Z.of_nat i) in Hs by lia.
    rewrite Z.pow_add_r, Z.pow_1_r in Hs by lia.
    by rewrite <- !Z.div_div in Hs by (try apply Z.pow_pos_nonneg; lia).
Qed.

Lemma ascii_lowercase_at_inj (x y : Z) :
  0 <= x < 26 -> 0 <= y < 26 -> ascii_lowercase_at x = ascii_lowercase_at y -> x = y.
Proof.
  intros Hx Hy.
  assert (Hn : forall z, 0 <= z < 26 ->
            N_of_ascii (ascii_lowercase_at z) = (97 + Z.to_N z)%N).
  { intros z Hz. replace z with (Z.of_nat (Z.to_nat z)) by lia.
    assert (Z.to_nat z < 26)%nat as Hlt by lia. revert Hlt.
    generalize (Z.to_nat z). intros k Hk.
    do 26 (destruct k as [|k]; [by vm_compute|]). lia. }
  intros E. apply (f_equal N_of_ascii) in E. rewrite !Hn in E by done. lia.
Qed.

Lemma ascii_lowercase_at_letter (x : Z) :
  0 <= x < 26 -> is_letter (ascii_lowercase_at x) = true.
Proof.
  intros Hx. replace x with (Z.of_nat (Z.to_nat x)) by lia.
  assert (Z.to_nat x < 26)%nat as Hlt by lia. revert Hlt.
  generalize (Z.to_nat x). intros k Hk.
  do 26 (destruct k as [|k]; [by vm_compute|]). lia.
Qed.

Lemma string_of_list_ascii_inj (l1 l2 : list ascii) :
  string_of_list_ascii l1 = string_of_list_ascii l2 -> l1 = l2.
Proof.
  intros H. apply (f_equal list_ascii_of_string) in H.
  by rewrite !list_ascii_of_string_of_list_ascii in H.
Qed.

Lemma file_values_digit (file : Z) (i : nat) :
  (i < Z.to_nat (output_chars file))%nat ->
  file_values file !! i = Some ((file / 26 ^ Z.of_nat i) mod 26).
Proof.
  intros Hi. unfold file_values. rewrite list_lookup_fmap, lookup_seq_lt by done. done.
Qed.

Lemma file_values_range (f : Z) : Forall (fun x => 0 <= x < 26) (rev (file_values f)).
Proof.
  apply Forall_rev. unfold file_values. apply Forall_fmap.
  apply Forall_forall. intros i _. simpl. apply Z.mod_pos_bound. lia.
Qed.

Lemma map_ascii_lowercase_at_inj (l1 l2 : list Z) :
  Forall (fun x => 0 <= x < 26) l1 -> Forall (fun x => 0 <= x < 26) l2 ->
  map ascii_lowercase_at l1 = map ascii_lowercase_at l2 -> l1 = l2.
Proof.
  intros H1. revert l2. induction H1 as [|x l1 Hx _ IH]; intros [|y l2] H2 Hmap;
    try discriminate; [done|].
  inversion H2; subst. simpl in Hmap. injection Hmap as Hxy Hmap.
  f_equal; [by apply ascii_lowercase_at_inj|by apply IH].
Qed.

(** Two non-negative files with the same letters are the same file. *)
Lemma file_from_int_to_str_inj (f g : Z) :
  0 <= f -> 0 <= g ->
  file_from_int_to_str f = file_from_int_to_str g -> f = g.
Proof.
  intros Hf Hg H.
  assert (Hlen : Z.to_nat (output_chars f) = Z.to_nat (output_chars g)).
  { destruct (output_chars_spec f) as [<- _].
    destruct (output_chars_spec g) as [<- _]. by rewrite H. }
  unfold file_from_int_to_str in H. apply string_of_list_ascii_inj in H.
  apply map_ascii_lowercase_at_inj in H; [|apply file_values_range..].
  assert (Hvals : file_values f = file_values g).
  { apply (f_equal (@List.rev Z)) in H. by rewrite !List.rev_involutive in H. }
  pose proof (output_chars_exit f) as Hbf. pose proof (output_chars_exit g) as Hbg.
  pose proof (output_chars_pos f). pose proof (output_chars_pos g).
  assert (Hmod : f mod 26 ^ Z.of_nat (Z.to_nat (output_chars f))
                 = g mod 26 ^ Z.of_nat (Z.to_nat (output_chars f))).
  { apply digits_determine. intros i Hi.
    pose proof (file_values_digit f i Hi) as Hdf.
    pose proof (file_values_digit g i ltac:(lia)) as Hdg.
    rewrite Hvals in Hdf. congruence. }
  rewrite Z2Nat.id in Hmod by lia.
  rewrite Z.mod_small in Hmod by lia.
  rewrite Z.mod_small in Hmod; [done|]. split; [done|].
  replace (output_chars f) with (output_chars g) by lia. done.
Qed.

Lemma file_from_int_to_str_letters (f : Z) :
  all_letters (file_from_int_to_str f) = true.
Proof.
  unfold file_from_int_to_str. pose proof (file_values_range f) as H.
  induction H as [|x l Hx _ IH]; simpl; [done|].
  by rewrite ascii_lowercase_at_letter, IH.
Qed.

(** X13: The text of a position determines it: two positions with non-negative
    coordinates and the same text are equal. *)
Theorem to_str_inj (p q : Position) :
  0 <= file p -> 0 <= rank p -> 0 <= file q -> 0 <= rank q ->
  to_str p = to_str q -> p = q.
Proof.
  destruct p as [f r], q as [g t]. simpl. intros Hf Hr Hg Ht H. unfold to_str in H.
  simpl in H.
  assert (Hsplit : forall h u, 0 <= u ->
    span_letters (file_from_int_to_str h ++ rank_from_int_to_str u)
    = (file_from_int_to_str h, rank_from_int_to_str u)).
  { intros h u Hu. apply span_letters_app; [apply file_from_int_to_str_letters|].
    unfold rank_from_int_to_str.
    destruct (str_int_pos (u + 1)) as (Hdig & _ & _); [lia|].
    destruct (str_int (u + 1)) as [|c s]; [done|].
    simpl in Hdig. apply andb_true_iff in Hdig as [Hc _]. by apply digit_not_letter. }
  pose proof (Hsplit f r Hr) as H1. pose proof (Hsplit g t Ht) as H2.
  rewrite H in H1. rewrite H1 in H2. injection H2 as Hfile Hrank.
  f_equal; [by apply file_from_int_to_str_inj|].
  unfold rank_from_int_to_str in Hrank. apply str_int_inj in Hrank; lia.
Qed.

Lemma to_str_inj_witness : (4, 0) = ((2 + 2, 0) : Position).
Proof. apply to_str_inj; simpl; try lia. vm_compute. reflexivity. Defined.

End PositionRendering.

(* ===================================================================== *)
(** ** What a committed move writes *)
(* ===================================================================== *)

#[global] Instance keeps_preorder {A : Type} (f : Normal.t -> A) : PreOrder (keeps f).
Proof. split; unfold keeps; [by intros s|]. intros s1 s2 s3 H1 H2. congruence. Qed.

Lemma board_remove_piece_preserves (R : Normal.t -> Normal.t -> Prop) (p : Position) :
  (forall b s, R s (set_board b s)) -> preserves R (board_remove_piece p).
Proof. intros H s. unfold board_remove_piece. simpl. apply H. Qed.

Lemma board_put_piece_preserves (R : Normal.t -> Normal.t -> Prop)
    (pc : option Piece) (p : Position) :
  (forall b s, R s (set_board b s)) -> preserves R (board_put_piece pc p).
Proof. intros H s. unfold board_put_piece. simpl. apply H. Qed.

(** Steps through a block for a relation of the form [keeps f]: every
    assignment met must leave [f] alone. *)
Ltac keeps_steps :=
  repeat first
    [ preserves_step
    | apply preserves_modify; intros; reflexivity
    | apply board_remove_piece_preserves; intros; reflexivity
    | apply board_put_piece_preserves; intros; reflexivity ].

Lemma on_move_half_moves (s s' : Normal.t) :
  half_moves s' = half_moves s -> on_move s' = on_move s.
Proof. unfold on_move. by intros ->. Qed.

Lemma on_move_next (s s' : Normal.t) :
  half_moves s' = half_moves s + 1 -> on_move s' = opponent (on_move s).
Proof.
  unfold on_move, n_sides. change (Z.of_nat (length sides)) with 2. intros ->.
  replace (half_moves s + 1 - 1) with (half_moves s - 1 + 1) by lia.
  pose proof (Z.mod_pos_bound (half_moves s - 1) 2 ltac:(lia)) as Hb.
  rewrite <- Z.add_mod_idemp_l by lia.
  assert (Hc : (half_moves s - 1) mod 2 = 0 \/ (half_moves s - 1) mod 2 = 1) by lia.
  destruct Hc as [-> | ->]; reflexivity.
Qed.

(** The steps of [relocate] one by one, for a move whose source holds
    [pc]. *)
Lemma relocate_ok (m : StandardMove) (s s' : Normal.t) (taken : option Piece) :
  relocate m s = (Ok taken, s') ->
  let moved := StandardBoard.get_piece (board s) (source m) in
  let b1 := delete (source m) (board s) in
  let displaced := b1 !! destination m in
  let b2 := snd (StandardBoard.put_piece b1 moved (destination m)) in
  exists s3 s4 s5,
    (if isinstance moved Pawn then move_pawn m displaced
     else (move_other ;;! ret displaced)) (set_board b2 s) = (Ok taken, s3)
    /\ move_castling_rook m moved s3 = (Ok tt, s4)
    /\ move_capture taken s4 = (Ok tt, s5)
    /\ update_castling_info (source m) (destination m) s5 = (Ok tt, s').
Proof.
  unfold relocate. intros H.
  apply bind_ok in H as (moved & s1 & H1 & H).
  unfold board_remove_piece in H1. simpl in H1. injection H1 as <- <-.
  apply bind_ok in H as (displaced & s2 & H2 & H).
  unfold board_put_piece in H2. simpl in H2. injection H2 as <- <-.
  apply bind_ok in H as (taken' & s3 & H3 & H).
  apply bind_ok in H as ([] & s4 & H4 & H).
  apply bind_ok in H as ([] & s5 & H5 & H).
  apply bind_ok in H as ([] & s6 & H6 & H). injection H as <- <-.
  exists s3, s4, s5. by repeat split.
Qed.

Section Effects.

Variable board_hash : Board -> Z.

(** [move] goes through only for a piece of the side on move. *)
Lemma move_source_piece (m : StandardMove) (s s' : Normal.t) (taken : option Piece) :
  move board_hash m s = (Ok taken, s') ->
  exists pc, StandardBoard.get_piece (board s) (source m) = Some pc
             /\ side pc = on_move s.
Proof.
  intros H. unfold move in H. apply bind_ok in H as ([] & s1 & Ha & H).
  pose proof (preserves_run eq _ _ _ _ (assert_move_preserves eq m) Ha) as <-.
  apply bind_ok in H as (moved & s2 & Hg & H). injection Hg as <- <-.
  destruct (StandardBoard.get_piece (board s) (source m)) as [pc|]; [|discriminate].
  apply bind_ok in H as (on & s3 & Hon & H). injection Hon as <- <-.
  exists pc. split; [done|]. case_bool_decide as Hs; [discriminate|].
  by destruct (decide (side pc = on_move s)).
Qed.

(** X14: A committed move is a move of the side on move; it hands the move to the
    other side, advances the half-move counter by one, appends the move to
    the history (so that [last_move] returns it) and pushes one snapshot, the
    state before the move. *)
Theorem move_turn_and_history (m : StandardMove) (s s' : Normal.t) (taken : option Piece) :
  move board_hash m s = (Ok taken, s') ->
  (exists pc, StandardBoard.get_piece (board s) (source m) = Some pc
              /\ side pc = on_move s)
  /\ on_move s' = opponent (on_move s)
  /\ half_moves s' = half_moves s + 1
  /\ moves_history s' = moves_history s ++ [m]
  /\ last_move s' = Some m
  /\ board_history s' = board_history s ++ [snapshot s].
Proof.
  intros H. pose proof (move_ok _ _ _ _ _ H) as [_ Hc].
  apply commit_effect in Hc as (Hb & Hm & Hh & _).
  split; [by apply (move_source_piece m s s' taken)|repeat split; try done].
  - by apply on_move_next.
  - unfold last_move. rewrite Hm. apply last_snoc.
Qed.

Lemma commit_relocate (m : StandardMove) (s s' : Normal.t) (taken : option Piece) :
  commit board_hash m s = (Ok taken, s') ->
  exists s6,
    relocate m (set_board_history (board_history s ++ [snapshot s]) s) = (Ok taken, s6)
    /\ s' = set_half_moves (half_moves s6 + 1)
              (set_moves_history (moves_history s6 ++ [m])
                 (set_position_occurence
                    (increment (board_hash (board s6)) (position_occurence s6)) s6)).
Proof.
  unfold commit. intros H.
  apply bind_ok in H as ([] & s1 & Hsave & H).
  unfold save_history, modify in Hsave. injection Hsave as <-.
  apply bind_ok in H as (tk & s6 & Hrel & H).
  unfold bind, modify, ret in H. injection H as <- <-. by exists s6.
Qed.

End Effects.

Lemma move_pawn_ok (m : StandardMove) (displaced taken : option Piece) (s s' : Normal.t) :
  move_pawn m displaced s = (Ok taken, s') ->
  s' = set_board (board s')
         (set_half_moves_since_pawn_moved 0
            (set_en_passant (en_passant_after (piece Pawn White) m) s)).
Proof.
  unfold move_pawn. intros H.
  apply bind_ok in H as (ep & s0 & Hep & H). injection Hep as <- <-.
  apply bind_ok in H as (tk & s1 & H1 & H).
  assert (E1 : s1 = set_board (board s1) s).
  { destruct (bool_decide _).
    - unfold board_remove_piece in H1. simpl in H1. injection H1 as _ <-. by destruct s.
    - injection H1 as _ <-. by destruct s. }
  apply bind_ok in H as ([] & s2 & H2 & H). injection H2 as <-.
  apply bind_ok in H as ([] & s3 & H3 & H). injection H3 as <-.
  apply bind_ok in H as ([] & s4 & H4 & H). injection H as _ <-.
  assert (E4 : s4 = set_board (board s4)
                      (set_half_moves_since_pawn_moved 0
                         (set_en_passant (en_passant_after (piece Pawn White) m) s1))).
  { unfold en_passant_after. rewrite bool_decide_eq_true_2 by done. simpl andb.
    destruct (last_rank (destination m)).
    - apply bind_ok in H4 as (on & s5 & Hon & H4). injection Hon as <- <-.
      destruct (promotion m) as [k|]; [|discriminate].
      apply bind_ok in H4 as (d & s6 & Hput & H4). injection H4 as <-.
      unfold board_put_piece in Hput. simpl in Hput. injection Hput as _ <-.
      by destruct s1.
    - injection H4 as <-. by destruct s1. }
  rewrite E4. rewrite E1. by destruct s.
Qed.

Lemma move_other_ok (s : Normal.t) :
  exists s', move_other s = (Ok tt, s')
             /\ s' = set_half_moves_since_pawn_moved (half_moves_since_pawn_moved s + 1)
                       (set_en_passant None s).
Proof.
  unfold move_other, bind, gets, modify. simpl.
  destruct (en_passant s) eqn:E; simpl; eexists; (split; [reflexivity|]).
  - done.
  - destruct s; simpl in *. by subst.
Qed.

Lemma move_castling_rook_ok (m : StandardMove) (moved : option Piece) (s s' : Normal.t) :
  move_castling_rook m moved s = (Ok tt, s') -> s' = set_board (board s') s.
Proof.
  unfold move_castling_rook, bind, board_remove_piece, board_put_piece, ret. simpl.
  intros H. repeat (destruct (_ : bool) in H); injection H as <-; by destruct s.
Qed.

Lemma move_capture_ok (taken : option Piece) (s : Normal.t) :
  move_capture taken s
  = (Ok tt,
     set_pocket (pocket_after (on_move s) taken (pocket s))
       (set_half_moves_since_capture
          (match taken with None => half_moves_since_capture s + 1 | Some _ => 0 end) s)).
Proof.
  unfold move_capture, pocket_after, bind, gets, modify. destruct taken; simpl; [done|].
  by destruct s.
Qed.

Section EffectsOfMove.

Variable board_hash : Board -> Z.

(** Every field a committed move writes, except the board: the en-passant
    square, both sub-counters, the castling rights and the pockets. *)
Lemma move_fields (m : StandardMove) (s s' : Normal.t) (taken : option Piece) (pc : Piece) :
  move board_hash m s = (Ok taken, s') ->
  StandardBoard.get_piece (board s) (source m) = Some pc ->
  en_passant s' = en_passant_after pc m
  /\ half_moves_since_pawn_moved s'
     = (if bool_decide (kind pc = Pawn) then 0 else half_moves_since_pawn_moved s + 1)
  /\ half_moves_since_capture s'
     = match taken with None => half_moves_since_capture s + 1 | Some _ => 0 end
  /\ castling s' = revoked (source m) (destination m) (castling s)
  /\ pocket s' = pocket_after (on_move s) taken (pocket s).
Proof.
  intros H Hpc. apply move_ok in H as [_ H].
  apply commit_relocate in H as (s6 & Hrel & ->).
  apply relocate_ok in Hrel as (s3 & s4 & s5 & H3 & H4 & H5 & H6).
  simpl in H3, H4. rewrite Hpc in H3, H4.
  apply move_castling_rook_ok in H4. rewrite move_capture_ok in H5. injection H5 as H5.
  unfold update_castling_info, modify in H6. injection H6 as H6.
  assert (Hon : on_move s4 = on_move s
                /\ pocket s4 = pocket s /\ castling s4 = castling s
                /\ half_moves_since_capture s4 = half_moves_since_capture s
                /\ en_passant s4 = en_passant_after pc m
                /\ half_moves_since_pawn_moved s4
                   = (if bool_decide (kind pc = Pawn) then 0
                      else half_moves_since_pawn_moved s + 1)).
  { rewrite H4. unfold isinstance in H3. unfold en_passant_after.
    destruct (decide (kind pc = Pawn)) as [Hk|Hk].
    - rewrite bool_decide_eq_true_2 in H3 by done. rewrite !bool_decide_eq_true_2 by done.
      apply move_pawn_ok in H3. rewrite H3. unfold en_passant_after.
      rewrite bool_decide_eq_true_2 by done. by repeat split.
    - rewrite bool_decide_eq_false_2 in H3 by done. rewrite !bool_decide_eq_false_2 by done.
      apply bind_ok in H3 as ([] & s3' & Ho & H3). injection H3 as _ <-.
      match type of Ho with
      | move_other ?st = _ => destruct (move_other_ok st) as (s3'' & Ho' & Es3)
      end.
      rewrite Ho' in Ho. injection Ho as <-. rewrite Es3. by repeat split. }
  destruct Hon as (Hon & Hp & Hc & Hcap & Hep & Hpawn).
  assert (E6 : castling s6 = revoked (source m) (destination m) (castling s5)
               /\ en_passant s6 = en_passant s5
               /\ half_moves_since_pawn_moved s6 = half_moves_since_pawn_moved s5
               /\ half_moves_since_capture s6 = half_moves_since_capture s5
               /\ pocket s6 = pocket s5).
  { rewrite <- H6. unfold revoked. by destruct (bool_decide (castling s5 = ∅)). }
  destruct E6 as (E6c & E6e & E6p & E6h & E6k). simpl.
  rewrite E6c, E6e, E6p, E6h, E6k, <- H5. simpl.
  rewrite Hon, Hp, Hc, Hcap, Hep, Hpawn. done.
Qed.

End EffectsOfMove.

Section BoardOfMove.

Variable board_hash : Board -> Z.

(** The board a committed move leaves is the one left by the relocation of
    the piece and the rook step. *)
Lemma move_board_steps (m : StandardMove) (s s' : Normal.t) (taken : option Piece)
    (pc : Piece) :
  move board_hash m s = (Ok taken, s') ->
  StandardBoard.get_piece (board s) (source m) = Some pc ->
  let b1 := delete (source m) (board s) in
  let s2 := set_board (<[destination m := pc]> b1)
              (set_board_history (board_history s ++ [snapshot s]) s) in
  exists s3 s4,
    (if bool_decide (kind pc = Pawn) then move_pawn m (b1 !! destination m)
     else (move_other ;;! ret (b1 !! destination m))) s2 = (Ok taken, s3)
    /\ move_castling_rook m (Some pc) s3 = (Ok tt, s4)
    /\ board s' = board s4.
Proof.
  intros H Hpc. apply move_ok in H as [_ H].
  apply commit_relocate in H as (s6 & Hrel & ->).
  apply relocate_ok in Hrel as (s3 & s4 & s5 & H3 & H4 & H5 & H6).
  simpl in H3, H4. rewrite Hpc in H3, H4.
  exists s3, s4. split; [exact H3|]. split; [exact H4|].
  rewrite move_capture_ok in H5. injection H5 as <-.
  unfold update_castling_info, modify in H6. injection H6 as <-. simpl.
  by destruct (bool_decide _).
Qed.

(** X15: A move of a piece other than a pawn that is not a two-file step of a
    king: the piece leaves its square for the destination, nothing else on
    the board changes, and the piece found on the destination is
    returned. *)
Theorem move_plain_board (m : StandardMove) (s s' : Normal.t) (taken : option Piece)
    (pc : Piece) :
  move board_hash m s = (Ok taken, s') ->
  StandardBoard.get_piece (board s) (source m) = Some pc ->
  kind pc <> Pawn ->
  ~ (kind pc = King
     /\ Z.abs (StandardPosition.file (source m) - StandardPosition.file (destination m)) = 2) ->
  board s' = <[destination m := pc]> (delete (source m) (board s))
  /\ taken = delete (source m) (board s) !! destination m.
Proof.
  intros H Hpc Hk Hcastle.
  destruct (move_board_steps m s s' taken pc H Hpc) as (s3 & s4 & H3 & H4 & ->).
  rewrite bool_decide_eq_false_2 in H3 by done.
  apply bind_ok in H3 as ([] & s3' & Ho & H3). injection H3 as <- <-.
  match type of Ho with
  | move_other ?st = _ => destruct (move_other_ok st) as (s3'' & Ho' & Es3)
  end.
  rewrite Ho' in Ho. injection Ho as <-.
  assert (Hrook : move_castling_rook m (Some pc) s3'' = (Ok tt, s3'')).
  { unfold move_castling_rook, isinstance.
    destruct (decide (kind pc = King)) as [HK|HK].
    - rewrite bool_decide_eq_true_2 by done. simpl.
      destruct (Z.eqb_spec (Z.abs (StandardPosition.file (source m)
                                    - StandardPosition.file (destination m))) 2); [|done].
      by destruct Hcastle.
    - by rewrite bool_decide_eq_false_2. }
  rewrite Hrook in H4. injection H4 as <-. by rewrite Es3.
Qed.

(** X16: Castling on the king side as executed: a king stepping from file e to
    file g leaves the king on g and moves whatever stood on the h-file
    square of its rank to the f-file square. *)
Theorem move_king_side_castling_board (m : StandardMove) (s s' : Normal.t)
    (taken : option Piece) (pc : Piece) (rank : Z) :
  move board_hash m s = (Ok taken, s') ->
  StandardBoard.get_piece (board s) (source m) = Some pc ->
  kind pc = King ->
  source m = (4, rank) -> destination m = (6, rank) ->
  board s' !! (4, rank) = None
  /\ board s' !! (6, rank) = Some pc
  /\ board s' !! (5, rank) = board s !! (7, rank)
  /\ board s' !! (7, rank) = None
  /\ forall p, p <> (4, rank) -> p <> (5, rank) -> p <> (6, rank) -> p <> (7, rank) ->
               board s' !! p = board s !! p.
Proof.
  intros H Hpc Hk Hsrc Hdst.
  destruct (move_board_steps m s s' taken pc H Hpc) as (s3 & s4 & H3 & H4 & ->).
  rewrite bool_decide_eq_false_2 in H3 by (rewrite Hk; discriminate).
  apply bind_ok in H3 as ([] & s3' & Ho & H3). injection H3 as <- <-.
  match type of Ho with
  | move_other ?st = _ => destruct (move_other_ok st) as (s3'' & Ho' & Es3)
  end.
  rewrite Ho' in Ho. injection Ho as <-.
  unfold move_castling_rook, isinstance in H4.
  rewrite bool_decide_eq_true_2 in H4 by done. rewrite Hsrc, Hdst in H4. simpl in H4.
  unfold bind, board_remove_piece, board_put_piece, ret in H4. simpl in H4.
  injection H4 as <-. rewrite Es3. simpl. rewrite Hsrc, Hdst.
  assert (N47 : ((4, rank) : Position) <> (7, rank)) by (intros [=]).
  assert (N67 : ((6, rank) : Position) <> (7, rank)) by (intros [=]).
  assert (N45 : ((4, rank) : Position) <> (5, rank)) by (intros [=]).
  assert (N65 : ((6, rank) : Position) <> (5, rank)) by (intros [=]).
  assert (N75 : ((7, rank) : Position) <> (5, rank)) by (intros [=]).
  assert (N46 : ((4, rank) : Position) <> (6, rank)) by (intros [=]).
  set (b2 := <[(6, rank):=pc]> (delete (4, rank) (board s))).
  assert (Hrook : b2 !! (7, rank) = board s !! (7, rank)).
  { unfold b2. rewrite lookup_insert_ne, lookup_delete_ne by done. done. }
  rewrite Hrook.
  destruct (board s !! (7, rank)) as [rk|] eqn:Erk.
  - repeat split.
    + rewrite lookup_insert_ne, lookup_delete_ne by done.
      unfold b2. by rewrite lookup_insert_ne, lookup_delete_eq by done.
    + rewrite lookup_insert_ne, lookup_delete_ne by done. unfold b2.
      by rewrite lookup_insert_eq.
    + by rewrite lookup_insert_eq.
    + rewrite lookup_insert_ne by done. by rewrite lookup_delete_eq.
    + intros p P4 P5 P6 P7. rewrite lookup_insert_ne, lookup_delete_ne by done.
      unfold b2. by rewrite lookup_insert_ne, lookup_delete_ne by done.
  - repeat split.
    + rewrite !lookup_delete_ne by done.
      unfold b2. by rewrite lookup_insert_ne, lookup_delete_eq by done.
    + rewrite !lookup_delete_ne by done. unfold b2. by rewrite lookup_insert_eq.
    + by rewrite lookup_delete_eq.
    + rewrite lookup_delete_ne by done. by rewrite lookup_delete_eq.
    + intros p P4 P5 P6 P7. rewrite !lookup_delete_ne by done.
      unfold b2. by rewrite lookup_insert_ne, lookup_delete_ne by done.
Qed.

(** X17: Promotion as executed: a pawn that reaches rank 1 or 8 otherwise than by
    capturing en passant is replaced on the destination by a piece of the
    declared kind and of the side on move. *)
Theorem move_promotion_board (m : StandardMove) (s s' : Normal.t) (taken : option Piece)
    (pc : Piece) :
  move board_hash m s = (Ok taken, s') ->
  StandardBoard.get_piece (board s) (source m) = Some pc ->
  kind pc = Pawn ->
  last_rank (destination m) = true ->
  en_passant s <> Some (destination m) ->
  exists k, promotion m = Some k
            /\ board s' = <[destination m := piece k (on_move s)]>
                            (delete (source m) (board s)).
Proof.
  intros H Hpc Hk Hlast Hep.
  destruct (move_board_steps m s s' taken pc H Hpc) as (s3 & s4 & H3 & H4 & ->).
  rewrite bool_decide_eq_true_2 in H3 by done.
  assert (Hrook : s4 = s3).
  { unfold move_castling_rook, isinstance in H4.
    rewrite bool_decide_eq_false_2 in H4 by (rewrite Hk; discriminate).
    simpl in H4. by injection H4. }
  subst s4. unfold move_pawn in H3.
  apply bind_ok in H3 as (ep & s0 & Hg & H3). injection Hg as <- <-. simpl in H3.
  rewrite bool_decide_eq_false_2 in H3 by (intros E; by rewrite <- E in Hep).
  apply bind_ok in H3 as (tk & s1 & H1 & H3). injection H1 as <- <-.
  apply bind_ok in H3 as ([] & s2 & H2 & H3). injection H2 as <-.
  apply bind_ok in H3 as ([] & s2' & H2 & H3). injection H2 as <-.
  apply bind_ok in H3 as ([] & s5 & H5 & H3). injection H3 as _ <-.
  rewrite Hlast in H5.
  apply bind_ok in H5 as (on & s6 & Hon & H5). injection Hon as <- <-.
  destruct (promotion m) as [k|]; [|discriminate]. exists k. split; [done|].
  apply bind_ok in H5 as (d & s7 & Hput & H5). injection H5 as <-.
  unfold board_put_piece in Hput. simpl in Hput. injection Hput as _ <-. simpl.
  by rewrite insert_insert_eq.
Qed.

(** X18: Capturing en passant as executed: a pawn that lands on the en-passant
    square short of the last rank removes, and returns, what stands on the
    square beside its source on the destination file. *)
Theorem move_en_passant_board (m : StandardMove) (s s' : Normal.t) (taken : option Piece)
    (pc : Piece) :
  move board_hash m s = (Ok taken, s') ->
  StandardBoard.get_piece (board s) (source m) = Some pc ->
  kind pc = Pawn ->
  en_passant s = Some (destination m) ->
  last_rank (destination m) = false ->
  let passed : Position :=
    (StandardPosition.file (destination m), StandardPosition.rank (source m)) in
  let b2 := <[destination m := pc]> (delete (source m) (board s)) in
  board s' = delete passed b2 /\ taken = b2 !! passed.
Proof.
  intros H Hpc Hk Hep Hlast. simpl.
  destruct (move_board_steps m s s' taken pc H Hpc) as (s3 & s4 & H3 & H4 & ->).
  rewrite bool_decide_eq_true_2 in H3 by done.
  assert (Hrook : s4 = s3).
  { unfold move_castling_rook, isinstance in H4.
    rewrite bool_decide_eq_false_2 in H4 by (rewrite Hk; discriminate).
    simpl in H4. by injection H4. }
  subst s4. unfold move_pawn in H3.
  apply bind_ok in H3 as (ep & s0 & Hg & H3). injection Hg as <- <-. simpl in H3.
  rewrite Hep in H3. rewrite bool_decide_eq_true_2 in H3 by done.
  apply bind_ok in H3 as (tk & s1 & H1 & H3).
  unfold board_remove_piece in H1. simpl in H1. injection H1 as <- <-.
  apply bind_ok in H3 as ([] & s2 & H2 & H3). injection H2 as <-.
  apply bind_ok in H3 as ([] & s2' & H2 & H3). injection H2 as <-.
  apply bind_ok in H3 as ([] & s5 & H5 & H3). injection H3 as <- <-.
  rewrite Hlast in H5. injection H5 as <-. done.
Qed.

End BoardOfMove.

(* ===================================================================== *)
(** ** What an accepted move looks like *)
(* ===================================================================== *)

Lemma vacant_free_for (b : Board) (pc : Piece) (d : Position) :
  vacant b d = true -> free_for b pc d.
Proof. unfold vacant, free_for. by destruct (StandardBoard.get_piece b d). Qed.

(** Every square [special_moves] returns is empty, and is on the board when
    the piece stands on the board. *)
Lemma special_moves_vacant (s : Normal.t) (position : Position) (brd : option Board)
    (dests : gset Position) (d : Position) :
  special_moves s position brd = Ok dests ->
  d ∈ dests ->
  vacant (default (board s) brd) d = true
  /\ (StandardBoard.validate_position position = true ->
      StandardBoard.validate_position d = true).
Proof.
  intros Hsp Hd.
  destruct (StandardBoard.get_piece (default (board s) brd) position) as [pc|] eqn:Hpc.
  2:{ unfold special_moves in Hsp. by rewrite Hpc in Hsp. }
  destruct (decide (kind pc = Pawn)) as [Hk|Hk].
  { destruct (special_moves_pawn_spec s position brd pc dests d Hpc Hk Hsp Hd)
      as (_ & ? & ?). by split. }
  unfold special_moves in Hsp. rewrite Hpc in Hsp.
  rewrite bool_decide_eq_false_2 in Hsp by done.
  destruct (bool_decide (kind pc = King) && negb (bool_decide (castling s = ∅))
            && (StandardPosition.file position =? 4)) eqn:E;
    [|injection Hsp as <-; by apply elem_of_empty in Hd].
  apply andb_true_iff in E as [_ Hf%Z.eqb_eq].
  destruct (attacked_fields_by_sides s (other_sides (on_move s)) None); [|discriminate].
  simpl in Hsp. injection Hsp as <-.
  assert (Hval : forall x, StandardBoard.validate_position position = true ->
                           0 <= x < 8 ->
                           StandardBoard.validate_position
                             (x, StandardPosition.rank position) = true).
  { intros x. unfold StandardBoard.validate_position, StandardBoard.files,
      StandardBoard.ranks. destruct position as [pf pr]. simpl.
    intros [[[? ?]%andb_true_iff ?]%andb_true_iff ?]%andb_true_iff Hx.
    repeat (apply andb_true_iff; split); try done; [apply Z.leb_le|apply Z.ltb_lt]; lia. }
  apply elem_of_union in Hd as [Hd|Hd].
  - destruct (bool_decide (_ ∈ castling s)); [|by apply elem_of_empty in Hd].
    destruct (vacant _ (_ + 1, _)); [|by apply elem_of_empty in Hd].
    destruct (vacant _ (_ + 2, _)) eqn:V; [|by apply elem_of_empty in Hd].
    simpl in Hd. destruct (bool_decide _); [|by apply elem_of_empty in Hd].
    apply elem_of_singleton in Hd as ->. split; [done|].
    intros Hp. apply Hval; [done|lia].
  - destruct (bool_decide (_ ∈ castling s)); [|by apply elem_of_empty in Hd].
    destruct (vacant _ (_ - 1, _)); [|by apply elem_of_empty in Hd].
    destruct (vacant _ (_ - 2, _)) eqn:V; [|by apply elem_of_empty in Hd].
    simpl in Hd. destruct (bool_decide _); [|by apply elem_of_empty in Hd].
    apply elem_of_singleton in Hd as ->. split; [done|].
    intros Hp. apply Hval; [done|lia].
Qed.

(** X19: A move that [assert_move] accepts starts from an occupied square and
    ends on a different square that is empty or held by another side; it
    stays on the board when it starts there; and a pawn reaching rank 1 or 8
    carries a promotion. *)
Theorem assert_move_accepted (m : StandardMove) (s s1 : Normal.t) :
  assert_move m s = (Ok tt, s1) ->
  exists pc,
    StandardBoard.get_piece (board s) (source m) = Some pc
    /\ free_for (board s) pc (destination m)
    /\ source m <> destination m
    /\ (StandardBoard.validate_position (source m) = true ->
        StandardBoard.validate_position (destination m) = true)
    /\ (kind pc = Pawn -> last_rank (destination m) = true -> promotion m <> None).
Proof.
  unfold assert_move. intros H.
  apply bind_ok in H as (pc_opt & s0 & Hg & H). injection Hg as <- <-.
  destruct (StandardBoard.get_piece (board s) (source m)) as [pc|] eqn:Hpc; [|discriminate].
  exists pc. split; [done|].
  apply bind_ok in H as (avail & s0 & Hav & H). unfold reads in Hav.
  injection Hav as Hav <-.
  destruct (standard_moves s (source m) None) as [a|] eqn:Ha; [|discriminate].
  destruct (standard_captures s (source m) None) as [b|] eqn:Hb; [|discriminate].
  destruct (special_moves s (source m) None) as [c|] eqn:Hc; [|discriminate].
  simpl in Hav. injection Hav as <-.
  case_bool_decide as Hin; [discriminate|].
  assert (Hfree : free_for (board s) pc (destination m)
                  /\ (StandardBoard.validate_position (source m) = true ->
                      StandardBoard.validate_position (destination m) = true)).
  { apply elem_of_union in Hin as [Hin|Hin]; [apply elem_of_union in Hin as [Hin|Hin]|].
    - destruct (standard_moves_spec s _ None a _ Ha Hin) as [V E].
      split; [|done]. unfold free_for. simpl in E. by rewrite E.
    - destruct (standard_captures_spec s _ None pc b _ Hpc Hb Hin)
        as (V & F & _). by split.
    - destruct (special_moves_vacant s _ None c _ Hc Hin) as [V F].
      split; [by apply vacant_free_for|done]. }
  destruct Hfree as [Hfree Hval]. split; [done|]. split.
  { intros E. unfold free_for in Hfree. rewrite <- E, Hpc in Hfree. by apply Hfree. }
  split; [done|]. intros Hk Hlast.
  apply bind_ok in H as (copy & s0 & Hcopy & H). injection Hcopy as <- <-.
  destruct (StandardBoard.remove_piece (board s) (source m)) as [tp tb].
  apply bind_ok in H as (ep & s0 & Hep & H). injection Hep as <- <-.
  apply bind_ok in H as (on & s0 & Hon & H). injection Hon as <- <-.
  destruct (StandardBoard.find_pieces _ _) as [|[kp k] ?]; [discriminate|].
  apply bind_ok in H as (att & s0 & Hatt & H).
  destruct (bool_decide (kp ∈ att)); [discriminate|].
  rewrite bool_decide_eq_true_2 in H by done. rewrite Hlast in H. simpl in H.
  by destruct (promotion m).
Qed.

(* ===================================================================== *)
(** ** More on rollback *)
(* ===================================================================== *)

Lemma pop_histories_run (n : nat) (s : Normal.t) :
  (n <= length (moves_history s))%nat ->
  (n <= length (board_history s))%nat ->
  pop_histories n s
  = (Ok tt,
     set_board_history (take (length (board_history s) - n) (board_history s))
       (set_moves_history (take (length (moves_history s) - n) (moves_history s)) s)).
Proof.
  revert s. induction n as [|n IH]; intros s Hm Hb.
  - simpl. rewrite !Nat.sub_0_r, !firstn_all. by rewrite set_histories_same.
  - simpl. unfold bind.
    assert (Hpm : pop moves_history set_moves_history s
                  = (Ok tt, set_moves_history
                              (take (length (moves_history s) - 1) (moves_history s)) s)).
    { unfold pop. rewrite removelast_take. destruct (moves_history s); [simpl in Hm; lia|done]. }
    rewrite Hpm.
    assert (Hpb : forall l, pop board_history set_board_history (set_moves_history l s)
                  = (Ok tt, set_board_history
                              (take (length (board_history s) - 1) (board_history s))
                              (set_moves_history l s))).
    { intros l. unfold pop. rewrite removelast_take. simpl.
      destruct (board_history s); [simpl in Hb; lia|done]. }
    rewrite Hpb. rewrite IH; simpl; rewrite ?length_take; [|lia..].
    rewrite !take_take. unfold set_board_history, set_moves_history. simpl.
    f_equal. f_equal; f_equal; lia.
Qed.

(** When the offset exceeds both histories the popping loop empties them
    and then raises [IndexError]. *)
Lemma pop_histories_overrun (n : nat) (s : Normal.t) :
  length (moves_history s) = length (board_history s) ->
  (length (moves_history s) < n)%nat ->
  pop_histories n s = (Raise IndexError, set_board_history [] (set_moves_history [] s)).
Proof.
  revert s. induction n as [|n IH]; intros s Hlen Hn; [lia|].
  simpl. unfold bind.
  destruct (moves_history s) as [|x mh] eqn:Em.
  - unfold pop at 1. rewrite Em. destruct (board_history s) eqn:Eb; [|discriminate Hlen].
    f_equal. destruct s; simpl in *. by subst.
  - destruct (board_history s) as [|y bh] eqn:Eb; [discriminate Hlen|].
    assert (Hpm : pop moves_history set_moves_history s
                  = (Ok tt, set_moves_history (removelast (x :: mh)) s)).
    { unfold pop. by rewrite Em. }
    rewrite Hpm.
    assert (Hpb : pop board_history set_board_history
                    (set_moves_history (removelast (x :: mh)) s)
                  = (Ok tt, set_board_history (removelast (y :: bh))
                              (set_moves_history (removelast (x :: mh)) s))).
    { unfold pop. simpl. by rewrite Eb. }
    assert (Lm : length (removelast (x :: mh)) = length mh).
    { rewrite removelast_take, length_take. simpl. lia. }
    assert (Lb : length (removelast (y :: bh)) = length bh).
    { rewrite removelast_take, length_take. simpl. lia. }
    rewrite Hpb. rewrite IH.
    + done.
    + change (length (removelast (x :: mh)) = length (removelast (y :: bh))).
      rewrite Lm, Lb. simpl in Hlen. lia.
    + change (length (removelast (x :: mh)) < n)%nat. rewrite Lm. simpl in Hn. lia.
Qed.

(** X20: [load_history] with an offset that is not positive, or that exceeds
    twice the number of snapshots, raises [IndexError] and leaves the
    instance as it was. *)
Theorem load_history_rejects_offset (offset : Z) (s : Normal.t) :
  history_consistent s ->
  offset <= 0 \/ 2 * Z.of_nat (length (board_history s)) < offset ->
  load_history offset s = (Raise IndexError, s).
Proof.
  intros [Hhm _] Hoff. unfold load_history, bind, gets, reads. simpl.
  assert (Hidx : py_index (board_history s) (half_moves s - offset - 1) = Raise IndexError).
  { unfold py_index. rewrite Hhm.
    destruct (Z.ltb_spec (Z.of_nat (length (board_history s)) + 1 - offset - 1) 0).
    - destruct (Z.leb_spec 0 (Z.of_nat (length (board_history s))
                              + (Z.of_nat (length (board_history s)) + 1 - offset - 1)));
        [lia|done].
    - destruct (Z.leb_spec 0 (Z.of_nat (length (board_history s)) + 1 - offset - 1));
        [|lia]. simpl.
      destruct (Z.ltb_spec (Z.of_nat (length (board_history s)) + 1 - offset - 1)
                  (Z.of_nat (length (board_history s)))); [lia|done]. }
  by rewrite Hidx.
Qed.

(** X21: [load_history] with an offset above the number of snapshots [n] but not
    above [2 * n] raises [IndexError] only after writing to the instance:
    Python's negative index picks the snapshot at index [2 * n - offset],
    its fields are restored, and both histories are emptied before the pop
    fails. *)
Theorem load_history_overrun (offset : Z) (s : Normal.t) :
  history_consistent s ->
  length (moves_history s) = length (board_history s) ->
  Z.of_nat (length (board_history s)) < offset <= 2 * Z.of_nat (length (board_history s)) ->
  exists snap,
    board_history s !! Z.to_nat (2 * Z.of_nat (length (board_history s)) - offset) = Some snap
    /\ load_history offset s
       = (Raise IndexError,
          set_board_history [] (set_moves_history [] (restore snap s))).
Proof.
  intros [Hhm _] Hlen Hoff.
  set (n := length (board_history s)) in *.
  destruct (lookup_lt_is_Some_2 (board_history s) (Z.to_nat (2 * Z.of_nat n - offset)))
    as [snap Hsnap]; [fold n; lia|].
  exists snap. split; [done|].
  unfold load_history, bind, gets, reads. simpl.
  assert (Hidx : py_index (board_history s) (half_moves s - offset - 1) = Ok snap).
  { unfold py_index. fold n. rewrite Hhm.
    destruct (Z.ltb_spec (Z.of_nat n + 1 - offset - 1) 0); [|lia].
    destruct (Z.leb_spec 0 (Z.of_nat n + (Z.of_nat n + 1 - offset - 1))); [|lia]. simpl.
    destruct (Z.ltb_spec (Z.of_nat n + (Z.of_nat n + 1 - offset - 1)) (Z.of_nat n)); [|lia].
    replace (Z.of_nat n + (Z.of_nat n + 1 - offset - 1)) with (2 * Z.of_nat n - offset) by lia.
    by rewrite Hsnap. }
  rewrite Hidx. unfold modify. simpl.
  rewrite pop_histories_overrun; [done|done|]. simpl. fold n. lia.
Qed.

Section RollbackMany.

Variable board_hash : Board -> Z.

Lemma play_histories (mvs : list StandardMove) (s : Normal.t) :
  all_accepted board_hash mvs s = true ->
  exists snaps,
    length snaps = length mvs
    /\ board_history (play board_hash mvs s) = board_history s ++ snaps
    /\ moves_history (play board_hash mvs s) = moves_history s ++ mvs
    /\ half_moves (play board_hash mvs s) = half_moves s + Z.of_nat (length mvs)
    /\ (mvs <> [] -> head snaps = Some (snapshot s)).
Proof.
  revert s. induction mvs as [|m mvs IH]; intros s H; simpl in *.
  - exists []. rewrite !app_nil_r. repeat split; [lia|done].
  - destruct (move board_hash m s) as [[taken|e] s1] eqn:E; [|discriminate].
    apply move_ok in E as [_ E]. apply commit_effect in E as (Hb & Hm & Hh & _).
    destruct (IH s1 H) as (snaps & Hlen & Hb' & Hm' & Hh' & _). simpl.
    exists (snapshot s :: snaps). simpl. rewrite Hlen, Hb', Hm', Hh', Hb, Hm, Hh.
    rewrite <- !app_assoc. simpl.
    split; [done|]. split; [done|]. split; [done|]. split; [lia|done].
Qed.

(** X22: Rolling back as many plies as were just committed: after any sequence of
    accepted moves, [load_history] with the length of the sequence as offset
    succeeds and restores every snapshotted field and both histories of the
    state before the first of them (the pockets alone keep the captures). *)
Theorem play_then_load_history (mvs : list StandardMove) (s : Normal.t) :
  history_consistent s ->
  length (moves_history s) = length (board_history s) ->
  all_accepted board_hash mvs s = true ->
  mvs <> [] ->
  load_history (Z.of_nat (length mvs)) (play board_hash mvs s)
  = (Ok tt, set_pocket (pocket (play board_hash mvs s)) s).
Proof.
  intros [Hhm _] Hlen Hacc Hne.
  destruct (play_histories mvs s Hacc) as (snaps & Hsl & Hb & Hm & Hh & Hhead).
  specialize (Hhead Hne). set (s' := play board_hash mvs s) in *.
  unfold load_history, bind, gets, reads. simpl.
  assert (Hidx : py_index (board_history s') (half_moves s' - Z.of_nat (length mvs) - 1)
                 = Ok (snapshot s)).
  { unfold py_index. rewrite Hh, Hb, length_app, Hhm.
    set (n := length (board_history s)).
    destruct (Z.ltb_spec (Z.of_nat n + 1 + Z.of_nat (length mvs)
                          - Z.of_nat (length mvs) - 1) 0); [lia|].
    destruct (Z.leb_spec 0 (Z.of_nat n + 1 + Z.of_nat (length mvs)
                            - Z.of_nat (length mvs) - 1)); [|lia].
    destruct mvs as [|m0 mvs0]; [done|]. simpl length in *.
    destruct (Z.ltb_spec (Z.of_nat n + 1 + Z.of_nat (S (length mvs0))
                          - Z.of_nat (S (length mvs0)) - 1)
                (Z.of_nat (n + length snaps))); [|lia].
    simpl. replace (Z.to_nat _) with (n + 0)%nat by lia.
    rewrite lookup_app_r by lia. subst n.
    rewrite Nat.add_0_r, Nat.sub_diag.
    destruct snaps as [|s0 snaps]; [discriminate|]. simpl in *.
    injection Hhead as ->. reflexivity. }
  rewrite Hidx. unfold modify. simpl. rewrite Nat2Z.id.
  rewrite pop_histories_run; simpl; rewrite ?Hb, ?Hm, ?length_app; [|lia..].
  f_equal. unfold set_board_history, set_moves_history, set_pocket, restore, snapshot. simpl.
  rewrite Hsl, Hlen.
  replace (length (board_history s) + length mvs - length mvs)%nat
    with (length (board_history s)) by lia.
  rewrite take_app_length. rewrite <- Hlen at 1. rewrite take_app_length. done.
Qed.

(** X23: In every state of a game there is one snapshot per move of the history,
    and the half-move counter is their number plus one. *)
Theorem reachable_histories_aligned (s : Normal.t) :
  reachable board_hash s ->
  length (moves_history s) = length (board_history s)
  /\ half_moves s = Z.of_nat (length (board_history s)) + 1.
Proof.
  intros Hs. split; [|by apply (reachable_consistent board_hash)].
  induction Hs as [init|s s' m taken Hs IH H|s s' offset Hs IH H].
  - done.
  - apply move_ok in H as [_ H]. apply commit_effect in H as (Hb & Hm & _).
    rewrite Hb, Hm, !length_app. simpl. lia.
  - apply reachable_consistent in Hs.
    apply (load_history_ok _ _ _ Hs) in H as (n & snap & _ & Hn & _ & ->). simpl.
    rewrite !length_take. lia.
Qed.

End RollbackMany.

(* ===================================================================== *)
(** ** Enumerating the moves *)
(* ===================================================================== *)

Lemma assert_move_offered (m : StandardMove) (s : Normal.t) :
  fst (assert_move m s) = Ok tt ->
  exists pc dests,
    StandardBoard.get_piece (board s) (source m) = Some pc
    /\ offered s (source m) = Ok dests
    /\ destination m ∈ dests.
Proof.
  unfold assert_move, offered, bind, gets, reads. simpl.
  destruct (StandardBoard.get_piece (board s) (source m)) as [pc|]; [|discriminate].
  destruct (standard_moves s (source m) None) as [a|]; [|discriminate].
  destruct (standard_captures s (source m) None) as [b|]; [|discriminate].
  destruct (special_moves s (source m) None) as [c|]; [|discriminate].
  simpl. case_bool_decide as Hin; [discriminate|]. intros _.
  by exists pc, (a ∪ b ∪ c).
Qed.

Lemma try_assert_move_run (m : StandardMove) (s s' : Normal.t) (b : bool) :
  try_assert_move m s = (Ok b, s') ->
  s' = s /\ (b = true <-> fst (assert_move m s) = Ok tt).
Proof.
  unfold try_assert_move. pose proof (assert_move_preserves eq m s) as Hs.
  destruct (assert_move m s) as [[[]|e] s1]; simpl in *.
  - intros [= <- <-]. done.
  - destruct (except_NotAValidMove e); [|discriminate]. intros [= <- <-].
    split; [done|]. split; discriminate.
Qed.

Lemma collect_valid_run (pos : Position) (dests : list Position)
    (acc ms : gset StandardMove) (s s' : Normal.t) :
  collect_valid pos dests acc s = (Ok ms, s') ->
  s' = s
  /\ forall m, m ∈ ms <->
       m ∈ acc \/ exists d, d ∈ dests /\ m = mkMove pos d None
                            /\ fst (assert_move m s) = Ok tt.
Proof.
  revert acc. induction dests as [|d dests IH]; intros acc; simpl.
  - intros [= <- <-]. split; [done|]. intros m. split; [by left|].
    intros [H|(d & Hd & _)]; [done|]. by apply elem_of_nil in Hd.
  - intros H. apply bind_ok in H as (ok & s1 & Ht & H).
    apply try_assert_move_run in Ht as [-> Hok].
    apply IH in H as [-> Hms]. split; [done|]. intros m. rewrite Hms. split.
    + intros [Hm|(d' & Hd' & -> & Hacc)].
      * destruct ok; [|by left].
        apply elem_of_union in Hm as [->%elem_of_singleton|Hm]; [|by left].
        right. exists d. split; [by left|]. split; [done|]. by apply Hok.
      * right. exists d'. split; [by right|done].
    + intros [Hm|(d' & Hd' & -> & Hacc)].
      * left. destruct ok; [|done]. apply elem_of_union. by right.
      * apply elem_of_cons in Hd' as [->|Hd'].
        -- left. apply Hok in Hacc as ->. apply elem_of_union. left.
           by apply elem_of_singleton.
        -- right. by exists d'.
Qed.

Lemma collect_from_run (sd : Side) (ps : list (Position * Piece))
    (acc ms : gset StandardMove) (s s' : Normal.t) :
  collect_from sd ps acc s = (Ok ms, s') ->
  s' = s
  /\ forall m, m ∈ ms <->
       m ∈ acc
       \/ exists pos pc dests d,
            (pos, pc) ∈ ps /\ side pc = sd /\ offered s pos = Ok dests /\ d ∈ dests
            /\ m = mkMove pos d None /\ fst (assert_move m s) = Ok tt.
Proof.
  revert acc. induction ps as [|[pos pc] ps IH]; intros acc; simpl.
  - intros [= <- <-]. split; [done|]. intros m. split; [by left|].
    intros [H|(? & ? & ? & ? & Hin & _)]; [done|]. by apply elem_of_nil in Hin.
  - case_bool_decide as Hside.
    + intros H. apply IH in H as [-> Hms]. split; [done|]. intros m. rewrite Hms.
      split; (intros [Hm|(pos' & pc' & dests & d & Hin & Hsd & Rest)]; [by left|right]).
      * exists pos', pc', dests, d. split; [by right|done].
      * apply elem_of_cons in Hin as [[= -> ->]|Hin]; [done|].
        by exists pos', pc', dests, d.
    + intros H.
      apply bind_ok in H as (dests & s1 & Hd & H). unfold reads in Hd.
      fold (offered s pos) in Hd.
      destruct (offered s pos) as [dests0|] eqn:Hoff; [|discriminate].
      injection Hd as <- <-.
      apply bind_ok in H as (moves' & s1 & Hc & H).
      apply collect_valid_run in Hc as [-> Hmoves'].
      apply IH in H as [-> Hms]. split; [done|]. intros m. rewrite Hms, Hmoves'. split.
      * intros [[Hm|(d & Hd & -> & Hacc)]|(pos' & pc' & dests & d & Hin & Rest)].
        -- by left.
        -- right. exists pos, pc, dests0, d. split; [by left|].
           split; [done|]. split; [done|]. split; [by apply elem_of_elements|done].
        -- right. exists pos', pc', dests, d. split; [by right|done].
      * intros [Hm|(pos' & pc' & dests & d & Hin & Hsd & Ho & Hd & -> & Hacc)];
          [by left; left|].
        apply elem_of_cons in Hin as [[= -> ->]|Hin].
        -- left. right. exists d. rewrite Hoff in Ho. injection Ho as <-.
           split; [by apply elem_of_elements|done].
        -- right. by exists pos', pc', dests, d.
Qed.

Lemma all_available_moves_run (sd : option Side) (s s' : Normal.t) (ms : list StandardMove) :
  all_available_moves sd s = (Ok ms, s') ->
  s' = s /\ NoDup ms /\ forall m, m ∈ ms <-> accepted_from (default (on_move s) sd) s m.
Proof.
  unfold all_available_moves. intros H.
  apply bind_ok in H as (on & s1 & Hon & H). injection Hon as <- <-.
  apply bind_ok in H as (ps & s1 & Hps & H). injection Hps as <- <-.
  apply bind_ok in H as (moves & s1 & Hc & H). injection H as <- <-.
  apply collect_from_run in Hc as [-> Hm]. split; [done|]. split; [apply NoDup_elements|].
  intros m. rewrite elem_of_elements, Hm. unfold accepted_from. split.
  - intros [H|(pos & pc & dests & d & Hin & Hsd & _ & _ & -> & Hacc)];
      [by apply elem_of_empty in H|].
    split; [done|]. split; [|done]. exists pc. split; [|done].
    by apply elem_of_map_to_list in Hin.
  - intros (Hp & (pc & Hpc & Hsd) & Hacc). right.
    destruct (assert_move_offered m s Hacc) as (pc' & dests & Hpc' & Ho & Hd).
    exists (source m), pc, dests, (destination m).
    split; [by apply elem_of_map_to_list|]. split; [done|]. split; [done|].
    split; [done|]. split; [|done]. destruct m. simpl in *. by subst.
Qed.

Lemma first_valid_run (pos : Position) (dests : list Position) (s s' : Normal.t) (b : bool) :
  first_valid pos dests s = (Ok b, s') ->
  s' = s
  /\ (b = true <-> exists d, d ∈ dests /\ fst (assert_move (mkMove pos d None) s) = Ok tt).
Proof.
  induction dests as [|d dests IH]; simpl.
  - intros [= <- <-]. split; [done|]. split; [discriminate|].
    intros (d & Hd & _). by apply elem_of_nil in Hd.
  - intros H. apply bind_ok in H as (ok & s1 & Ht & H).
    apply try_assert_move_run in Ht as [-> Hok]. destruct ok.
    + injection H as <- <-. split; [done|]. split; [|done]. intros _.
      exists d. split; [by left|]. by apply Hok.
    + apply IH in H as [-> Hb]. split; [done|]. rewrite Hb. split.
      * intros (d' & Hd' & Hacc). exists d'. split; [by right|done].
      * intros (d' & Hd' & Hacc). apply elem_of_cons in Hd' as [->|Hd'].
        -- by apply Hok in Hacc.
        -- by exists d'.
Qed.

Lemma offered_elements (s : Normal.t) (pos : Position) (a b c : gset Position) :
  standard_moves s pos None = Ok a ->
  standard_captures s pos None = Ok b ->
  special_moves s pos None = Ok c ->
  offered s pos = Ok (a ∪ b ∪ c)
  /\ forall d, d ∈ elements b ++ elements a ++ elements c <-> d ∈ a ∪ b ∪ c.
Proof.
  intros Ha Hb Hc. unfold offered. rewrite Ha, Hb, Hc. split; [done|].
  intros d. rewrite !elem_of_app, !elem_of_elements, !elem_of_union. tauto.
Qed.

Lemma can_move_from_run (ps : list (Position * Piece)) (s s' : Normal.t) (b : bool) :
  can_move_from ps s = (Ok b, s') ->
  s' = s
  /\ (b = true <->
      exists pos pc dests d,
        (pos, pc) ∈ ps /\ side pc = on_move s /\ offered s pos = Ok dests /\ d ∈ dests
        /\ fst (assert_move (mkMove pos d None) s) = Ok tt).
Proof.
  induction ps as [|[pos pc] ps IH]; simpl.
  - intros [= <- <-]. split; [done|]. split; [discriminate|].
    intros (? & ? & ? & ? & Hin & _). by apply elem_of_nil in Hin.
  - intros H. apply bind_ok in H as (on & s1 & Hon & H). injection Hon as <- <-.
    case_bool_decide as Hside.
    + apply bind_ok in H as (sc & s1 & Hsc & H). unfold reads in Hsc.
      destruct (standard_captures s pos None) as [sc0|] eqn:Ec; [|discriminate].
      injection Hsc as <- <-.
      apply bind_ok in H as (sm & s1 & Hsm & H). unfold reads in Hsm.
      destruct (standard_moves s pos None) as [sm0|] eqn:Em; [|discriminate].
      injection Hsm as <- <-.
      apply bind_ok in H as (sp & s1 & Hsp & H). unfold reads in Hsp.
      destruct (special_moves s pos None) as [sp0|] eqn:Es; [|discriminate].
      injection Hsp as <- <-.
      destruct (offered_elements s pos sm0 sc0 sp0 Em Ec Es) as [Hoff Hel].
      apply bind_ok in H as (found & s1 & Hf & H).
      apply first_valid_run in Hf as [-> Hfound]. destruct found.
      * injection H as <- <-. split; [done|]. split; [|done]. intros _.
        destruct Hfound as [(d & Hd & Hacc) _]; [done|].
        exists pos, pc, (sm0 ∪ sc0 ∪ sp0), d. split; [by left|].
        split; [done|]. split; [done|]. split; [by apply Hel|done].
      * apply IH in H as [-> Hb]. split; [done|]. rewrite Hb. split.
        -- intros (pos' & pc' & dests & d & Hin & Rest).
           exists pos', pc', dests, d. split; [by right|done].
        -- intros (pos' & pc' & dests & d & Hin & Hsd & Ho & Hd & Hacc).
           apply elem_of_cons in Hin as [[= -> ->]|Hin]; [|by exists pos', pc', dests, d].
           rewrite Hoff in Ho. injection Ho as <-.
           assert (false = true) as Habs; [|discriminate Habs].
           apply Hfound. exists d. split; [by apply Hel|done].
    + apply IH in H as [-> Hb]. split; [done|]. rewrite Hb. split.
      * intros (pos' & pc' & dests & d & Hin & Rest).
        exists pos', pc', dests, d. split; [by right|done].
      * intros (pos' & pc' & dests & d & Hin & Hsd & Rest).
        apply elem_of_cons in Hin as [[= -> ->]|Hin]; [done|].
        by exists pos', pc', dests, d.
Qed.

Lemma can_i_make_a_move_run (s s' : Normal.t) (b : bool) :
  can_i_make_a_move s = (Ok b, s') ->
  s' = s /\ (b = true <-> exists m, accepted_from (on_move s) s m).
Proof.
  unfold can_i_make_a_move. intros H.
  apply bind_ok in H as (ps & s1 & Hps & H). injection Hps as <- <-.
  apply can_move_from_run in H as [-> Hb]. split; [done|]. rewrite Hb.
  unfold accepted_from. split.
  - intros (pos & pc & dests & d & Hin & Hsd & _ & _ & Hacc).
    exists (mkMove pos d None). split; [done|]. split; [|done].
    exists pc. split; [|done]. by apply elem_of_map_to_list in Hin.
  - intros (m & Hp & (pc & Hpc & Hsd) & Hacc).
    destruct (assert_move_offered m s Hacc) as (pc' & dests & Hpc' & Ho & Hd).
    exists (source m), pc, dests, (destination m).
    split; [by apply elem_of_map_to_list|]. split; [done|]. split; [done|].
    split; [done|]. destruct m. simpl in *. by subst.
Qed.



(** X26: The two enumerations agree: when both return, [can_i_make_a_move] is
    true exactly when [all_available_moves] for the side on move is not
    empty. *)
Theorem can_i_make_a_move_iff_moves_available (s s1 s2 : Normal.t) (b : bool)
    (ms : list StandardMove) :
  can_i_make_a_move s = (Ok b, s1) ->
  all_available_moves None s = (Ok ms, s2) ->
  b = true <-> ms <> [].
Proof.
  intros [_ Hb]%can_i_make_a_move_run (_ & _ & Hms)%all_available_moves_run.
  rewrite Hb. simpl in Hms. split.
  - intros (m & Hm) ->. apply Hms in Hm. by apply elem_of_nil in Hm.
  - intros Hne. destruct ms as [|m ms]; [done|]. exists m. apply Hms. by left.
Qed.

(* ===================================================================== *)
(** ** The verdicts of [game_state] *)
(* ===================================================================== *)

Lemma other_sides_opponent (sd : Side) : other_sides sd = {[opponent sd]}.
Proof. destruct sd; apply (bool_decide_unpack _); by vm_compute. Qed.

Lemma game_state_rest_verdict (s : Normal.t) (v : Verdict) :
  fst (game_state_rest s) = Ok v ->
  v = fifty_move_rule \/ v = threefold_repetition
  \/ (v = check_mate (on_move s)
      /\ fst (can_i_make_a_move s) = Ok false /\ is_check s = Ok true)
  \/ (v = stalemate
      /\ fst (can_i_make_a_move s) = Ok false /\ is_check s = Ok false)
  \/ (v = undecided /\ fst (can_i_make_a_move s) = Ok true).
Proof.
  unfold game_state_rest, bind, gets. simpl.
  destruct (_ && _); [intros [= <-]; by left|].
  destruct (existsb _ _); [intros [= <-]; by right; left|].
  pose proof (can_i_make_a_move_preserves eq s) as Hs.
  destruct (can_i_make_a_move s) as [[[]|e] s1]; simpl in *; try discriminate; subst s1.
  - intros [= <-]. by do 4 right.
  - unfold is_check, reads.
    destruct (StandardBoard.find_pieces _ _) as [|[kp k] ?]; [discriminate|].
    destruct (attacked_fields_by_sides _ _ _) as [att|]; simpl; [|discriminate].
    case_bool_decide; intros [= <-].
    + right; right; left. unfold check_mate. by rewrite other_sides_opponent.
    + do 3 right. by left.
Qed.

(** X27: [game_state] returns one of six verdicts.  It names the other side the
    winner by check mate only when the side on move has no accepted move and
    [is_check] holds, reports stalemate only when it has none and [is_check]
    does not hold, and gives no verdict only when it has one. *)
Theorem game_state_verdicts (s : Normal.t) (v : Verdict) :
  fst (game_state s) = Ok v ->
  v = insufficient_material \/ v = fifty_move_rule \/ v = threefold_repetition
  \/ (v = check_mate (on_move s)
      /\ fst (can_i_make_a_move s) = Ok false /\ is_check s = Ok true)
  \/ (v = stalemate
      /\ fst (can_i_make_a_move s) = Ok false /\ is_check s = Ok false)
  \/ (v = undecided /\ fst (can_i_make_a_move s) = Ok true).
Proof.
  destruct (game_state_cases s) as [H|[H|[e H]]]; rewrite H.
  - intros [= <-]. by left.
  - intros Hv. right. by apply game_state_rest_verdict.
  - discriminate.
Qed.

(* ===================================================================== *)
(** ** The bookkeeping of a committed move *)
(* ===================================================================== *)

Lemma revoke_other_side (sd sd' : Side) (k : Kind) (kh ra rh src dst : Position)
    (c : gset Piece) :
  sd <> sd' -> piece k sd' ∈ revoke sd kh ra rh src dst c <-> piece k sd' ∈ c.
Proof.
  intros Hsd. unfold revoke.
  destruct (bool_decide (kh = src)); [|destruct (_ || _); [|destruct (_ || _)]];
    rewrite ?elem_of_difference, ?elem_of_union, ?elem_of_singleton;
    (split; [tauto|]); try done; intros Hin; (split; [done|]); intros Hx;
    repeat (destruct Hx as [Hx|Hx]); congruence.
Qed.

Lemma revoke_king_side (sd : Side) (kh ra rh src dst : Position) (c : gset Piece) :
  piece King sd ∈ revoke sd kh ra rh src dst c <->
  piece King sd ∈ c /\ src <> kh /\ ((src = ra \/ dst = ra) \/ ~ (src = rh \/ dst = rh)).
Proof.
  unfold revoke.
  destruct (decide (kh = src)) as [Ek|Ek];
    [rewrite bool_decide_eq_true_2 by done|rewrite bool_decide_eq_false_2 by done].
  { rewrite elem_of_difference, elem_of_union, !elem_of_singleton.
    split; [intros [_ H]; exfalso; apply H; by left|]. intros (_ & H & _). congruence. }
  destruct (decide (ra = src)) as [Ea|Ea]; destruct (decide (ra = dst)) as [Ea'|Ea'];
    rewrite ?(bool_decide_eq_true_2 (ra = src)), ?(bool_decide_eq_false_2 (ra = src)),
      ?(bool_decide_eq_true_2 (ra = dst)), ?(bool_decide_eq_false_2 (ra = dst)) by done;
    simpl.
  1-3: rewrite elem_of_difference, elem_of_singleton;
       split; [intros [H _]; split; [done|]; split; [congruence|]; left; auto
              |intros (H & _); split; [done|discriminate]].
  destruct (decide (rh = src)) as [Eh|Eh]; destruct (decide (rh = dst)) as [Eh'|Eh'];
    rewrite ?(bool_decide_eq_true_2 (rh = src)), ?(bool_decide_eq_false_2 (rh = src)),
      ?(bool_decide_eq_true_2 (rh = dst)), ?(bool_decide_eq_false_2 (rh = dst)) by done;
    simpl.
  1-3: rewrite elem_of_difference, elem_of_singleton;
       split; [intros [_ H]; by destruct H|];
       intros (_ & _ & [[?|?]|H]); try congruence; exfalso; apply H; auto.
  split; [|tauto]. intros H. split; [done|]. split; [congruence|].
  right. intros [?|?]; congruence.
Qed.

Lemma revoke_queen_side (sd : Side) (kh ra rh src dst : Position) (c : gset Piece) :
  piece Queen sd ∈ revoke sd kh ra rh src dst c <->
  piece Queen sd ∈ c /\ src <> kh /\ ~ (src = ra \/ dst = ra).
Proof.
  unfold revoke.
  destruct (decide (kh = src)) as [Ek|Ek];
    [rewrite bool_decide_eq_true_2 by done|rewrite bool_decide_eq_false_2 by done].
  { rewrite elem_of_difference, elem_of_union, !elem_of_singleton.
    split; [intros [_ H]; exfalso; apply H; by right|]. intros (_ & H & _). congruence. }
  destruct (decide (ra = src)) as [Ea|Ea]; destruct (decide (ra = dst)) as [Ea'|Ea'];
    rewrite ?(bool_decide_eq_true_2 (ra = src)), ?(bool_decide_eq_false_2 (ra = src)),
      ?(bool_decide_eq_true_2 (ra = dst)), ?(bool_decide_eq_false_2 (ra = dst)) by done;
    simpl.
  1-3: rewrite elem_of_difference, elem_of_singleton;
       split; [intros [_ H]; by destruct H|];
       intros (_ & _ & H); exfalso; apply H; auto.
  assert (Hq : piece Queen sd ∈ (if bool_decide (rh = src) || bool_decide (rh = dst)
                                 then c ∖ {[piece King sd]} else c)
               <-> piece Queen sd ∈ c).
  { destruct (_ || _); [|done]. rewrite elem_of_difference, elem_of_singleton.
    split; [tauto|]. intros H. split; [done|discriminate]. }
  rewrite Hq. split; [|tauto]. intros H. split; [done|]. split; [congruence|].
  intros [?|?]; congruence.
Qed.

Section Bookkeeping.

Variable board_hash : Board -> Z.

(** X28: The en-passant square after a committed move: set exactly when a pawn
    moved by two ranks, to the square on the pawn's file halfway between
    source and destination. *)
Theorem move_en_passant_square (m : StandardMove) (s s' : Normal.t)
    (taken : option Piece) (pc : Piece) (sq : Position) :
  move board_hash m s = (Ok taken, s') ->
  StandardBoard.get_piece (board s) (source m) = Some pc ->
  en_passant s' = Some sq <->
    kind pc = Pawn
    /\ Z.abs (StandardPosition.rank (source m) - StandardPosition.rank (destination m)) = 2
    /\ sq = (StandardPosition.file (source m),
             Z.quot (StandardPosition.rank (source m)
                     + StandardPosition.rank (destination m)) 2).
Proof.
  intros H Hpc. destruct (move_fields board_hash m s s' taken pc H Hpc) as (-> & _).
  unfold en_passant_after. case_bool_decide as Hk; simpl.
  - destruct (Z.eqb_spec (Z.abs (StandardPosition.rank (source m)
                                 - StandardPosition.rank (destination m))) 2) as [E|E].
    + split; [by intros [= <-]|]. by intros (_ & _ & ->).
    + split; [discriminate|]. by intros (_ & ? & _).
  - split; [discriminate|]. by intros (? & _).
Qed.

(** X29: The counters and pockets after a committed move: the pawn counter is
    reset by a pawn move and advanced by any other, the capture counter is
    reset by a capture and advanced otherwise, and the piece taken goes to
    the end of the pocket of the side that moved. *)
Theorem move_counters_and_pocket (m : StandardMove) (s s' : Normal.t)
    (taken : option Piece) (pc : Piece) :
  move board_hash m s = (Ok taken, s') ->
  StandardBoard.get_piece (board s) (source m) = Some pc ->
  half_moves_since_pawn_moved s'
  = (if bool_decide (kind pc = Pawn) then 0 else half_moves_since_pawn_moved s + 1)
  /\ half_moves_since_capture s'
     = match taken with None => half_moves_since_capture s + 1 | Some _ => 0 end
  /\ forall sd, pocket s' sd
                = match taken with
                  | Some tp => if bool_decide (sd = on_move s) then pocket s sd ++ [tp]
                               else pocket s sd
                  | None => pocket s sd
                  end.
Proof.
  intros H Hpc.
  destruct (move_fields board_hash m s s' taken pc H Hpc) as (_ & Hp & Hc & _ & Hk).
  split; [done|]. split; [done|]. intros sd. rewrite Hk. unfold pocket_after.
  by destruct taken.
Qed.

(** X30: The castling rights after a committed move.  A side keeps its king-side
    right exactly when it held it, the move did not start from the side's
    king square, and the move touched the a-rook square or did not touch the
    h-rook square; it keeps its queen-side right exactly when it held it and
    the move neither started from the king square nor touched the a-rook
    square. *)
Theorem move_castling_rights (m : StandardMove) (s s' : Normal.t)
    (taken : option Piece) (sd : Side) :
  move board_hash m s = (Ok taken, s') ->
  (piece King sd ∈ castling s' <->
     piece King sd ∈ castling s /\ source m <> king_home sd
     /\ (touches (rook_a_home sd) m \/ ~ touches (rook_h_home sd) m))
  /\ (piece Queen sd ∈ castling s' <->
        piece Queen sd ∈ castling s /\ source m <> king_home sd
        /\ ~ touches (rook_a_home sd) m).
Proof.
  intros H.
  destruct (move_source_piece board_hash m s s' taken H) as (pc & Hpc & _).
  destruct (move_fields board_hash m s s' taken pc H Hpc) as (_ & _ & _ & -> & _).
  unfold revoked, touches. case_bool_decide as He.
  - rewrite He. split; split; try (intros H0; by apply elem_of_empty in H0);
      intros [H0 _]; by apply elem_of_empty in H0.
  - destruct sd; simpl.
    + rewrite (revoke_other_side Black White King) by done.
      rewrite (revoke_other_side Black White Queen) by done.
      rewrite revoke_king_side, revoke_queen_side.
      split; split; intros (? & ? & ?); repeat split; try done; try congruence; tauto.
    + rewrite revoke_king_side, revoke_queen_side.
      rewrite (revoke_other_side White Black King) by done.
      rewrite (revoke_other_side White Black Queen) by done.
      split; split; intros (? & ? & ?); repeat split; try done; try congruence; tauto.
Qed.

End Bookkeeping.

(* ===================================================================== *)
(** ** More worked instances *)
(* ===================================================================== *)

Lemma standard_captures_subseteq_attacked_fields_witness :
  exists captures attacked : gset Position,
    standard_captures centre_pawns (4, 3) None = Ok captures
    /\ attacked_fields centre_pawns (4, 3) None = Ok attacked
    /\ captures ⊆ attacked.
Proof.
  destruct (standard_captures centre_pawns (4, 3) None) as [captures|] eqn:Ec;
    [|by vm_compute in Ec].
  destruct (attacked_fields centre_pawns (4, 3) None) as [attacked|] eqn:Ea;
    [|by vm_compute in Ea].
  exists captures, attacked. split; [reflexivity|]. split; [reflexivity|].
  apply (standard_captures_subseteq_attacked_fields centre_pawns (4, 3) None
           (piece Pawn White) captures attacked);
    [vm_compute; reflexivity | | exact Ec | exact Ea].
  intros c Hc. apply list_elem_of_In in Hc. simpl in Hc.
  destruct Hc as [<-|[<-|[]]]; reflexivity.
Defined.

Lemma special_moves_pawn_double_step_witness :
  let file := StandardPosition.file (4, 1) in
  let rank := StandardPosition.rank (4, 1) in
  ((side (piece Pawn White) = Black /\ rank = 6 /\ (4, 3) = (file, 4)
    /\ vacant (default (board (new true)) None) (file, 5) = true)
   \/ (side (piece Pawn White) = White /\ rank = 1 /\ (4, 3) = (file, 3)
       /\ vacant (default (board (new true)) None) (file, 2) = true))
  /\ vacant (default (board (new true)) None) (4, 3) = true
  /\ StandardBoard.validate_position (4, 3) = true.
Proof.
  destruct (special_moves (new true) (4, 1) None) as [dests|] eqn:E; [|by vm_compute in E].
  apply (special_moves_pawn_double_step (new true) (4, 1) None (piece Pawn White)
           dests (4, 3)); [vm_compute; reflexivity | reflexivity | exact E |].
  apply (bool_decide_unpack _). revert E. vm_compute. intros [= <-]. exact I.
Defined.

Lemma special_moves_queen_side_witness :
  exists dests attacked : gset Position,
    special_moves open_back_rank (4, 0) None = Ok dests
    /\ attacked_fields_by_sides open_back_rank (other_sides (on_move open_back_rank)) None
       = Ok attacked
    /\ ((4 - 2, 0) ∈ dests <->
        castling open_back_rank <> ∅ /\ 4 = 4
        /\ piece Queen (on_move open_back_rank) ∈ castling open_back_rank
        /\ vacant (default (board open_back_rank) None) (4 - 1, 0) = true
        /\ vacant (default (board open_back_rank) None) (4 - 2, 0) = true
        /\ ((4 - 1, 0) ∉ attacked) /\ ((4 - 2, 0) ∉ attacked)).
Proof.
  destruct (special_moves open_back_rank (4, 0) None) as [dests|] eqn:Es;
    [|by vm_compute in Es].
  destruct (attacked_fields_by_sides open_back_rank (other_sides (on_move open_back_rank))
              None) as [attacked|] eqn:Ea; [|by vm_compute in Ea].
  exists dests, attacked. split; [reflexivity|]. split; [reflexivity|].
  apply (special_moves_queen_side open_back_rank (4, 0) None (piece King White)
           dests attacked); [vm_compute; reflexivity | reflexivity | exact Es | exact Ea].
Defined.

Lemma assert_move_accepted_witness :
  exists pc,
    StandardBoard.get_piece (board (new true)) (source (mv (4, 1) (4, 3))) = Some pc
    /\ free_for (board (new true)) pc (destination (mv (4, 1) (4, 3)))
    /\ source (mv (4, 1) (4, 3)) <> destination (mv (4, 1) (4, 3))
    /\ (StandardBoard.validate_position (source (mv (4, 1) (4, 3))) = true ->
        StandardBoard.validate_position (destination (mv (4, 1) (4, 3))) = true)
    /\ (kind pc = Pawn -> last_rank (destination (mv (4, 1) (4, 3))) = true ->
        promotion (mv (4, 1) (4, 3)) <> None).
Proof.
  apply (assert_move_accepted (mv (4, 1) (4, 3)) (new true) (new true)).
  vm_compute. reflexivity.
Defined.

Lemma move_turn_and_history_witness :
  let m := mv (4, 1) (4, 3) in
  let s := new true in
  let s' := play fen_hash [m] s in
  (exists pc, StandardBoard.get_piece (board s) (source m) = Some pc
              /\ side pc = on_move s)
  /\ on_move s' = opponent (on_move s)
  /\ half_moves s' = half_moves s + 1
  /\ moves_history s' = moves_history s ++ [m]
  /\ last_move s' = Some m
  /\ board_history s' = board_history s ++ [snapshot s].
Proof.
  apply (move_turn_and_history fen_hash (mv (4, 1) (4, 3)) (new true) _ None).
  vm_compute. reflexivity.
Defined.

Lemma move_en_passant_square_witness :
  let m := mv (4, 1) (4, 3) in
  en_passant (play fen_hash [m] (new true)) = Some (4, 2) <->
    kind (piece Pawn White) = Pawn
    /\ Z.abs (StandardPosition.rank (source m) - StandardPosition.rank (destination m)) = 2
    /\ (4, 2) = (StandardPosition.file (source m),
                 Z.quot (StandardPosition.rank (source m)
                         + StandardPosition.rank (destination m)) 2).
Proof.
  apply (move_en_passant_square fen_hash (mv (4, 1) (4, 3)) (new true) _ None
           (piece Pawn White) (4, 2)); vm_compute; reflexivity.
Defined.

Lemma move_counters_and_pocket_witness :
  let m := mv (4, 3) (3, 4) in
  let s := centre_pawns in
  let s' := play fen_hash [m] s in
  half_moves_since_pawn_moved s'
  = (if bool_decide (kind (piece Pawn White) = Pawn) then 0
     else half_moves_since_pawn_moved s + 1)
  /\ half_moves_since_capture s' = 0
  /\ forall sd, pocket s' sd
                = if bool_decide (sd = on_move s) then pocket s sd ++ [piece Pawn Black]
                  else pocket s sd.
Proof.
  apply (move_counters_and_pocket fen_hash (mv (4, 3) (3, 4)) centre_pawns _
           (Some (piece Pawn Black)) (piece Pawn White)); vm_compute; reflexivity.
Defined.

Lemma move_castling_rights_witness :
  let m := mv (7, 0) (6, 0) in
  let s := play fen_hash knights_out (new true) in
  let s' := play fen_hash [m] s in
  (piece King White ∈ castling s' <->
     piece King White ∈ castling s /\ source m <> king_home White
     /\ (touches (rook_a_home White) m \/ ~ touches (rook_h_home White) m))
  /\ (piece Queen White ∈ castling s' <->
        piece Queen White ∈ castling s /\ source m <> king_home White
        /\ ~ touches (rook_a_home White) m).
Proof.
  apply (move_castling_rights fen_hash (mv (7, 0) (6, 0))
           (play fen_hash knights_out (new true)) _ None White).
  vm_compute. reflexivity.
Defined.

Lemma move_plain_board_witness :
  let m := mv (6, 0) (5, 2) in
  board (play fen_hash [m] (new true))
  = <[destination m := piece Knight White]> (delete (source m) (board (new true)))
  /\ None = delete (source m) (board (new true)) !! destination m.
Proof.
  apply (move_plain_board fen_hash (mv (6, 0) (5, 2)) (new true) _ None
           (piece Knight White));
    [vm_compute; reflexivity | vm_compute; reflexivity | discriminate |].
  intros [H _]. discriminate H.
Defined.

Lemma move_king_side_castling_board_witness :
  let s := open_back_rank in
  let s' := play fen_hash [mv (4, 0) (6, 0)] s in
  board s' !! ((4, 0) : Position) = None
  /\ board s' !! ((6, 0) : Position) = Some (piece King White)
  /\ board s' !! ((5, 0) : Position) = board s !! ((7, 0) : Position)
  /\ board s' !! ((7, 0) : Position) = None
  /\ forall p : Position,
       p <> (4, 0) -> p <> (5, 0) -> p <> (6, 0) -> p <> (7, 0) ->
       board s' !! p = board s !! p.
Proof.
  apply (move_king_side_castling_board fen_hash (mv (4, 0) (6, 0)) open_back_rank _ None
           (piece King White) 0); vm_compute; reflexivity.
Defined.

Lemma move_promotion_board_witness :
  let m := mkMove (0, 6) (0, 7) (Some Queen) in
  let s := pawn_on_seventh in
  exists k, promotion m = Some k
            /\ board (play fen_hash [m] s)
               = <[destination m := piece k (on_move s)]> (delete (source m) (board s)).
Proof.
  apply (move_promotion_board fen_hash (mkMove (0, 6) (0, 7) (Some Queen)) pawn_on_seventh
           _ None (piece Pawn White));
    [vm_compute; reflexivity | vm_compute; reflexivity | reflexivity
    | vm_compute; reflexivity | discriminate].
Defined.

Lemma move_en_passant_board_witness :
  let m := mv (4, 4) (3, 5) in
  let s := en_passant_ready in
  let passed : Position :=
    (StandardPosition.file (destination m), StandardPosition.rank (source m)) in
  let b2 := <[destination m := piece Pawn White]> (delete (source m) (board s)) in
  board (play fen_hash [m] s) = delete passed b2
  /\ Some (piece Pawn Black) = b2 !! passed.
Proof.
  apply (move_en_passant_board fen_hash (mv (4, 4) (3, 5)) en_passant_ready _
           (Some (piece Pawn Black)) (piece Pawn White)); vm_compute; reflexivity.
Defined.

Lemma load_history_rejects_offset_witness :
  load_history 0 (new true) = (Raise IndexError, new true).
Proof.
  apply (load_history_rejects_offset 0 (new true)); [apply new_consistent | left; lia].
Defined.

Lemma load_history_overrun_witness :
  let s := play fen_hash [mv (4, 1) (4, 3)] (new true) in
  exists snap,
    board_history s !! Z.to_nat (2 * Z.of_nat (length (board_history s)) - 2) = Some snap
    /\ load_history 2 s
       = (Raise IndexError, set_board_history [] (set_moves_history [] (restore snap s))).
Proof.
  apply (load_history_overrun 2 (play fen_hash [mv (4, 1) (4, 3)] (new true))).
  - apply (move_consistent fen_hash (mv (4, 1) (4, 3)) (new true) _ None);
      [apply new_consistent | vm_compute; reflexivity].
  - vm_compute. reflexivity.
  - vm_compute. split; [reflexivity | discriminate].
Defined.

Lemma play_then_load_history_witness :
  load_history (Z.of_nat (length knights_out)) (play fen_hash knights_out (new true))
  = (Ok tt, set_pocket (pocket (play fen_hash knights_out (new true))) (new true)).
Proof.
  apply (play_then_load_history fen_hash knights_out (new true));
    [apply new_consistent | reflexivity | vm_compute; reflexivity | discriminate].
Defined.

Lemma reachable_histories_aligned_witness :
  let s := snd (load_history 1 (play fen_hash knights_out (new true))) in
  length (moves_history s) = length (board_history s)
  /\ half_moves s = Z.of_nat (length (board_history s)) + 1.
Proof.
  apply (reachable_histories_aligned fen_hash).
  apply (reachable_load fen_hash (play fen_hash knights_out (new true)) _ 1).
  - apply (reachable_move fen_hash
             (play fen_hash [mv (6, 0) (5, 2)] (new true)) _ (mv (6, 7) (5, 5)) None).
    + apply (reachable_move fen_hash (new true) _ (mv (6, 0) (5, 2)) None).
      * apply reachable_new.
      * vm_compute. reflexivity.
    + vm_compute. reflexivity.
  - vm_compute. reflexivity.
Defined.



Lemma can_i_make_a_move_iff_moves_available_witness :
  exists (b : bool) (ms : list StandardMove),
    fst (can_i_make_a_move (new true)) = Ok b
    /\ fst (all_available_moves None (new true)) = Ok ms
    /\ (b = true <-> ms <> []).
Proof.
  destruct (can_i_make_a_move (new true)) as [[b|e] s1] eqn:E1; [|by vm_compute in E1].
  destruct (all_available_moves None (new true)) as [[ms|e] s2] eqn:E2;
    [|by vm_compute in E2].
  exists b, ms. split; [reflexivity|]. split; [reflexivity|].
  apply (can_i_make_a_move_iff_moves_available (new true) s1 s2 b ms E1 E2).
Defined.

Lemma game_state_verdicts_witness :
  let s := fools_mate in
  let v := check_mate White in
  v = insufficient_material \/ v = fifty_move_rule \/ v = threefold_repetition
  \/ (v = check_mate (on_move s)
      /\ fst (can_i_make_a_move s) = Ok false /\ is_check s = Ok true)
  \/ (v = stalemate
      /\ fst (can_i_make_a_move s) = Ok false /\ is_check s = Ok false)
  \/ (v = undecided /\ fst (can_i_make_a_move s) = Ok true).
Proof.
  apply (game_state_verdicts fools_mate (check_mate White)). vm_compute. reflexivity.
Defined.
